(** * ARQ orchestration core: a shallow embedding and its verified properties

    The first part embeds the Python sources under [src/browser_automation],
    one module per source file:

    - [StateManager]    advanced_state_manager.py
    - [Orchestrator]    agent_orchestrator.py
    - [FaultTolerance]  fault_tolerance_manager.py
    - [Protocol]        communication_protocol.py
    - [Heapq]           the [heapq] algorithms behind [queue.PriorityQueue]
    - [Broker]          message_broker.py
    - [Workflow]        workflow_manager.py

    and the remaining classes of these files in [BrokerExt] (queries,
    broadcast, event bus), [WorkflowExt] (task table, scheduler),
    [StateExt] (tracker, validator, manager), [OrchestratorExt]
    (distributor, coordinator), [FaultToleranceExt] (health monitor,
    failover, backups) and [ProtocolExt] (protocol handler).

    The second part proves the properties, one module per component
    ([StateManagerProps], [OrchestratorProps], [FaultToleranceProps],
    [BrokerProps], [WorkflowProps], [HeapqProps], [MailboxProps], and
    [SliceProps], [BrokerExtProps], [WorkflowExtProps],
    [CriticalPathProps], [StateExtProps], [OrchestratorExtProps],
    [FaultToleranceExtProps], [ProtocolExtProps]).

    Modelling conventions.  Python dictionaries whose iteration order is
    irrelevant are [gmap]s; dictionaries whose insertion order is observable
    are association lists; Python sets are [gset]s, iterated in an order
    given by an unknown function [iter]; wall-clock readings
    ([datetime.now()], [time.time()], [uuid4()]) are explicit arguments;
    the numbers of the rate limiter are Python's [int]s and binary64
    [float]s;
    callables stored in objects are opaque and running one is recorded as an
    event; recursion whose termination depends on the data takes a [fuel]
    argument and returns [None] when the recursion has not returned within
    that depth. *)

From stdpp Require Import gmap strings list fin_maps sorting pretty.
From Stdlib Require Import ZArith QArith Qminmax Floats.
Close Scope Q_scope.
Local Open Scope string_scope.
Local Open Scope list_scope.
Local Open Scope nat_scope.

(* ===================================================================== *)
(** * advanced_state_manager.py *)
(* ===================================================================== *)

Module StateManager.

Inductive StateType := INITIAL | INTERMEDIATE | TERMINAL | ERROR | WAIT.

Inductive TransitionType := NORMAL | CONDITIONAL | FALLBACK | TIMEOUT.

(** [AuditEntry]; [entry_id] ([uuid4]) and [timestamp] ([datetime.now]) are
    supplied by the caller of [transition] in this model. *)
Record AuditEntry := mkAuditEntry {
  entry_id : string;
  timestamp : Z;
  a_from_state : string;
  a_to_state : string;
  trigger : string;
  user : string;
  success : bool;
  error_message : option string;
  metadata : gmap string string
}.

Definition with_trigger (t : string) (e : AuditEntry) : AuditEntry :=
  mkAuditEntry (entry_id e) (timestamp e) (a_from_state e) (a_to_state e) t
               (user e) (success e) (error_message e) (metadata e).

Section Machine.

(** The [context] argument is [Optional[Any]]: [None] or an arbitrary object
    with a Python truth value.  Handlers, actions and callbacks are opaque
    callables; running one is recorded as an event. *)
Variable PyObj : Type.
Variable truthy_obj : PyObj -> bool.
Variable Callable : Type.

Definition Context := option PyObj.

Definition truthy (c : Context) : bool :=
  match c with
  | None => false
  | Some o => truthy_obj o
  end.

Record StateTransition := mkStateTransition {
  transition_id : string;
  from_state : string;
  to_state : string;
  transition_type : TransitionType;
  condition : option (Context -> bool);
  action : option Callable;
  guard_clauses : list (Context -> bool);
  created_at : Z
}.

Inductive Event :=
| RunExitHandler (st : string) (h : Callable)
| RunAction (a : Callable)
| RunEntryHandler (st : string) (h : Callable)
| RunCallback (cb : Callable) (old_state next_state : string) (c : Context).

Record StateMachine := mkStateMachine {
  current_state : string;
  states : gmap string StateType;
  transitions : gmap string (list StateTransition);
  callbacks : gmap string (list Callable);
  state_entry_handlers : gmap string Callable;
  state_exit_handlers : gmap string Callable;
  audit_trail : list AuditEntry
}.

(** [StateMachine.__init__] *)
Definition new_machine (initial_state : string) : StateMachine :=
  mkStateMachine initial_state ∅ ∅ ∅ ∅ ∅ [].

(** [StateMachine.define_state] *)
Definition define_state (m : StateMachine) (state : string) (ty : StateType)
  : StateMachine :=
  mkStateMachine (current_state m) (<[state := ty]> (states m)) (transitions m)
    (callbacks m) (state_entry_handlers m) (state_exit_handlers m)
    (audit_trail m).

(** [StateMachine.add_transition] *)
Definition add_transition (m : StateMachine) (t : StateTransition)
  : StateMachine :=
  if bool_decide (from_state t ∉ dom (states m) ∨ to_state t ∉ dom (states m))
  then m
  else
    mkStateMachine (current_state m) (states m)
      (<[from_state t := default [] (transitions m !! from_state t) ++ [t]]>
         (transitions m))
      (callbacks m) (state_entry_handlers m) (state_exit_handlers m)
      (audit_trail m).

(** [StateMachine.register_entry_handler] *)
Definition register_entry_handler (m : StateMachine) (state : string)
  (h : Callable) : StateMachine :=
  mkStateMachine (current_state m) (states m) (transitions m) (callbacks m)
    (<[state := h]> (state_entry_handlers m)) (state_exit_handlers m)
    (audit_trail m).

(** [StateMachine.register_exit_handler] *)
Definition register_exit_handler (m : StateMachine) (state : string)
  (h : Callable) : StateMachine :=
  mkStateMachine (current_state m) (states m) (transitions m) (callbacks m)
    (state_entry_handlers m) (<[state := h]> (state_exit_handlers m))
    (audit_trail m).

(** The test of the [for] loop of [transition]:
    [trans.condition is None or (context and trans.condition(context))]
    followed by [all(guard(context) for guard in trans.guard_clauses)]. *)
Definition edge_enabled (c : Context) (t : StateTransition) : bool :=
  match condition t with
  | None => true
  | Some cond => truthy c && cond c
  end
  && forallb (fun g => g c) (guard_clauses t).

(** The edges scanned by [transition]:
    [self.transitions.get(self.current_state, [])]. *)
Definition outgoing (m : StateMachine) : list StateTransition :=
  default [] (transitions m !! current_state m).

(** The loop itself: first enabled edge in declaration order. *)
Definition select_transition (m : StateMachine) (c : Context)
  : option StateTransition :=
  find (edge_enabled c) (outgoing m).

Definition opt_event {A} (f : A -> Event) (o : option A) : list Event :=
  match o with
  | Some a => [f a]
  | None => []
  end.

Definition callback_key (old_state next_state : string) : string :=
  old_state +:+ "_to_" +:+ next_state.

(** [StateMachine.transition].  Returns the boolean result, the machine after
    the call and the callables that were run, in order. *)
Definition transition (m : StateMachine) (eid : string) (now : Z)
  (trig : string) (c : Context) (usr : string)
  : bool * StateMachine * list Event :=
  match select_transition m c with
  | None =>
      let entry := mkAuditEntry eid now (current_state m) "" trig usr false
                     (Some "No valid transition found") ∅ in
      (false,
       mkStateMachine (current_state m) (states m) (transitions m)
         (callbacks m) (state_entry_handlers m) (state_exit_handlers m)
         (audit_trail m ++ [entry]),
       [])
  | Some t =>
      let old_state := current_state m in
      let next_state := to_state t in
      let entry := mkAuditEntry eid now old_state next_state trig usr true
                     None ∅ in
      let key := callback_key old_state next_state in
      (* [self.callbacks[key]] on a defaultdict creates the entry *)
      let cbs := default [] (callbacks m !! key) in
      (true,
       mkStateMachine next_state (states m) (transitions m)
         (<[key := cbs]> (callbacks m))
         (state_entry_handlers m) (state_exit_handlers m)
         (audit_trail m ++ [entry]),
       opt_event (RunExitHandler old_state) (state_exit_handlers m !! old_state)
       ++ opt_event RunAction (action t)
       ++ opt_event (RunEntryHandler next_state)
            (state_entry_handlers m !! next_state)
       ++ map (fun cb => RunCallback cb old_state next_state c) cbs)
  end.

(** Calls a client can make on a machine after constructing it. *)
Inductive Op :=
| OpDefineState (state : string) (ty : StateType)
| OpAddTransition (t : StateTransition)
| OpRegisterEntry (state : string) (h : Callable)
| OpRegisterExit (state : string) (h : Callable)
| OpTransition (eid : string) (now : Z) (trig : string) (c : Context)
    (usr : string).

Definition apply_op (m : StateMachine) (o : Op) : StateMachine :=
  match o with
  | OpDefineState s ty => define_state m s ty
  | OpAddTransition t => add_transition m t
  | OpRegisterEntry s h => register_entry_handler m s h
  | OpRegisterExit s h => register_exit_handler m s h
  | OpTransition eid now trig c usr => (transition m eid now trig c usr).1.2
  end.

Definition run_ops (ops : list Op) (m : StateMachine) : StateMachine :=
  fold_left apply_op ops m.

(** "The guard (if any) accepts the context" and "all guard clauses accept". *)
Definition guard_accepts (c : Context) (t : StateTransition) : bool :=
  match condition t with
  | None => true
  | Some cond => cond c
  end.

Definition clauses_accept (c : Context) (t : StateTransition) : bool :=
  forallb (fun g => g c) (guard_clauses t).

Definition declared (m : StateMachine) : Prop :=
  current_state m ∈ dom (states m).

(** Every stored edge is filed under its source state and joins declared
    states. *)
Definition edges_declared (m : StateMachine) : Prop :=
  ∀ s ts t, transitions m !! s = Some ts → t ∈ ts →
    from_state t = s ∧ from_state t ∈ dom (states m)
    ∧ to_state t ∈ dom (states m).

(** The audit entry written when no edge is enabled. *)
Definition failure_entry (m : StateMachine) (eid : string) (now : Z)
  (trig usr : string) : AuditEntry :=
  mkAuditEntry eid now (current_state m) "" trig usr false
    (Some "No valid transition found") ∅.

Definition append_audit (m : StateMachine) (e : AuditEntry) : StateMachine :=
  mkStateMachine (current_state m) (states m) (transitions m) (callbacks m)
    (state_entry_handlers m) (state_exit_handlers m) (audit_trail m ++ [e]).

End Machine.

Arguments truthy {PyObj} truthy_obj c.
Arguments mkStateTransition {PyObj Callable}.
Arguments transition_id {PyObj Callable}.
Arguments from_state {PyObj Callable}.
Arguments to_state {PyObj Callable}.
Arguments transition_type {PyObj Callable}.
Arguments condition {PyObj Callable}.
Arguments action {PyObj Callable}.
Arguments guard_clauses {PyObj Callable}.
Arguments created_at {PyObj Callable}.
Arguments RunExitHandler {PyObj Callable}.
Arguments RunAction {PyObj Callable}.
Arguments RunEntryHandler {PyObj Callable}.
Arguments RunCallback {PyObj Callable}.
Arguments mkStateMachine {PyObj Callable}.
Arguments current_state {PyObj Callable}.
Arguments states {PyObj Callable}.
Arguments transitions {PyObj Callable}.
Arguments callbacks {PyObj Callable}.
Arguments state_entry_handlers {PyObj Callable}.
Arguments state_exit_handlers {PyObj Callable}.
Arguments audit_trail {PyObj Callable}.
Arguments new_machine {PyObj Callable}.
Arguments define_state {PyObj Callable}.
Arguments add_transition {PyObj Callable}.
Arguments register_entry_handler {PyObj Callable}.
Arguments register_exit_handler {PyObj Callable}.
Arguments edge_enabled {PyObj} truthy_obj {Callable}.
Arguments outgoing {PyObj Callable}.
Arguments select_transition {PyObj} truthy_obj {Callable}.
Arguments transition {PyObj} truthy_obj {Callable}.
Arguments OpDefineState {PyObj Callable}.
Arguments OpAddTransition {PyObj Callable}.
Arguments OpRegisterEntry {PyObj Callable}.
Arguments OpRegisterExit {PyObj Callable}.
Arguments OpTransition {PyObj Callable}.
Arguments apply_op {PyObj} truthy_obj {Callable}.
Arguments run_ops {PyObj} truthy_obj {Callable}.
Arguments guard_accepts {PyObj Callable}.
Arguments clauses_accept {PyObj Callable}.
Arguments declared {PyObj Callable}.
Arguments edges_declared {PyObj Callable}.
Arguments failure_entry {PyObj Callable}.
Arguments append_audit {PyObj Callable}.

(** ** The three-state machine of the specification *)

Definition no_truth (u : unit) : bool := false.

Definition start_edge : StateTransition unit string :=
  mkStateTransition "t1" "INITIAL" "RUNNING" NORMAL None None [] 0.

Definition three_state_ops : list (Op unit string) :=
  [ OpDefineState "INITIAL" INITIAL;
    OpDefineState "RUNNING" INTERMEDIATE;
    OpDefineState "DONE" TERMINAL;
    OpAddTransition start_edge ].

Definition three_state_machine : StateMachine unit string :=
  run_ops no_truth three_state_ops (new_machine "INITIAL").

Definition after_first_start : StateMachine unit string :=
  (transition no_truth three_state_machine "e1" 1 "start" None "system").1.2.

End StateManager.

(* ===================================================================== *)
(** * Python exceptions *)
(* ===================================================================== *)

(** The result of a call that may raise: a value, or the exception's class
    name and its [str(e)]. *)
Inductive outcome (A : Type) :=
| Return (a : A)
| Raise (kind : string) (msg : string).
Arguments Return {A} a.
Arguments Raise {A} kind msg.

(* ===================================================================== *)
(** * agent_orchestrator.py *)
(* ===================================================================== *)

Module Orchestrator.

(** The per-agent dictionary built by [register_agent]. *)
Record AgentInfo := mkAgentInfo {
  id : string;
  capabilities : list string;
  status : string;
  current_task : option string;
  tasks_completed : Z;
  registered_time : Z
}.

Record AgentPool := mkAgentPool {
  pool_name : string;
  max_agents : Z;
  agents : gmap string AgentInfo
}.

(** [AgentPool.__init__] *)
Definition new_pool (name : string) (max : Z) : AgentPool :=
  mkAgentPool name max ∅.

(** [AgentPool.get_pool_size] *)
Definition get_pool_size (p : AgentPool) : Z := Z.of_nat (size (agents p)).

(** [AgentPool.register_agent]; [now] is the reading of [datetime.now()]. *)
Definition register_agent (p : AgentPool) (agent_id : string)
  (caps : list string) (now : Z) : bool * AgentPool :=
  if (max_agents p <=? Z.of_nat (size (agents p)))%Z then (false, p)
  else
    (true,
     mkAgentPool (pool_name p) (max_agents p)
       (<[agent_id := mkAgentInfo agent_id caps "idle" None 0 now]> (agents p))).

(** [AgentPool.unregister_agent] *)
Definition unregister_agent (p : AgentPool) (agent_id : string)
  : bool * AgentPool :=
  if bool_decide (agent_id ∈ dom (agents p))
  then (true, mkAgentPool (pool_name p) (max_agents p) (delete agent_id (agents p)))
  else (false, p).

End Orchestrator.

(* ===================================================================== *)
(** * fault_tolerance_manager.py *)
(* ===================================================================== *)

Module FaultTolerance.

Inductive RecoveryStrategy := RESTART | REASSIGN | FAILOVER | MANUAL.

(** [RecoveryStrategy.value] *)
Definition strategy_value (s : RecoveryStrategy) : string :=
  match s with
  | RESTART => "restart"
  | REASSIGN => "reassign"
  | FAILOVER => "failover"
  | MANUAL => "manual"
  end.

(** One dictionary of [recovery_history]. *)
Record RecoveryEntry := mkRecoveryEntry {
  agent_id : string;
  strategy : string;
  success : bool;
  error : option string;
  timestamp : Z
}.

Record ErrorRecovery := mkErrorRecovery {
  recovery_history : list RecoveryEntry
}.

(** [ErrorRecovery.__init__] *)
Definition new_recovery : ErrorRecovery := mkErrorRecovery [].

(** The [context] argument: a dictionary that no strategy reads. *)
Definition RecoveryContext := gmap string string.

(** [ErrorRecovery._log_recovery_attempt] *)
Definition _log_recovery_attempt (er : ErrorRecovery) (agent : string)
  (s : RecoveryStrategy) (ok : bool) (err : option string) (now : Z)
  : ErrorRecovery :=
  mkErrorRecovery
    (recovery_history er ++ [mkRecoveryEntry agent (strategy_value s) ok err now]).

(** [ErrorRecovery._restart_agent] *)
Definition _restart_agent (er : ErrorRecovery) (agent : string)
  (c : RecoveryContext) (now : Z) : outcome bool * ErrorRecovery :=
  (Return true, _log_recovery_attempt er agent RESTART true None now).

(** [ErrorRecovery._reassign_tasks] *)
Definition _reassign_tasks (er : ErrorRecovery) (agent : string)
  (c : RecoveryContext) (now : Z) : outcome bool * ErrorRecovery :=
  (Return true, _log_recovery_attempt er agent REASSIGN true None now).

(** [ErrorRecovery._failover_agent] *)
Definition _failover_agent (er : ErrorRecovery) (agent : string)
  (c : RecoveryContext) (now : Z) : outcome bool * ErrorRecovery :=
  (Return true, _log_recovery_attempt er agent FAILOVER true None now).

(** [ErrorRecovery.attempt_recovery]: the dispatch inside [try], and the
    [except] handler that logs a failed attempt. *)
Definition attempt_recovery (er : ErrorRecovery) (agent : string)
  (s : RecoveryStrategy) (c : RecoveryContext) (now : Z)
  : bool * ErrorRecovery :=
  let body :=
    match s with
    | RESTART => _restart_agent er agent c now
    | REASSIGN => _reassign_tasks er agent c now
    | FAILOVER => _failover_agent er agent c now
    | MANUAL => (Return false, er)
    end in
  match body with
  | (Return b, er') => (b, er')
  | (Raise _ msg, er') =>
      (false, _log_recovery_attempt er' agent s false (Some msg) now)
  end.

(** [ErrorRecovery.get_recovery_history]: [recovery_history[-limit:]]. *)
Definition get_recovery_history (er : ErrorRecovery) (limit : nat)
  : list RecoveryEntry :=
  if bool_decide (limit = 0) then recovery_history er
  else drop (length (recovery_history er) - limit) (recovery_history er).

Definition is_manual (s : RecoveryStrategy) : bool :=
  match s with
  | MANUAL => true
  | _ => false
  end.

End FaultTolerance.

(* ===================================================================== *)
(** * communication_protocol.py *)
(* ===================================================================== *)

Module Protocol.

(** The values a message dictionary holds in this development. [PTime t]
    stands for the string [t.isoformat()]. *)
Inductive pyval :=
| PNone
| PStr (s : string)
| PInt (z : Z)
| PTime (t : Z)
| PDict (d : gmap string string).

Definition pystr (v : pyval) : string :=
  match v with
  | PNone => "None"
  | PStr s => s
  | PInt z => pretty z
  | PTime t => "datetime:" +:+ pretty t
  | PDict _ => "{...}"
  end.

Definition REQUIRED_FIELDS : list string :=
  ["sender"; "recipient"; "type"; "payload"].
Definition VALID_MESSAGE_TYPES : list string :=
  ["task"; "result"; "event"; "heartbeat"; "error"; "control"].
Definition VALID_PRIORITIES : list string :=
  ["CRITICAL"; "HIGH"; "NORMAL"; "LOW"].

(** [v in S] for a set [S] of strings: a dictionary is unhashable. *)
Definition in_str_set (v : pyval) (S : list string) : outcome bool :=
  match v with
  | PStr s => Return (bool_decide (s ∈ S))
  | PDict _ => Raise "TypeError" "unhashable type: 'dict'"
  | _ => Return false
  end.

(** [ProtocolValidator.validate_message] *)
Definition validate_message (message : gmap string pyval) : outcome bool :=
  if negb (forallb (fun f => bool_decide (f ∈ dom message)) REQUIRED_FIELDS)
  then Raise "ValueError" "Missing required fields"
  else
    let ty := default PNone (message !! "type") in
    match in_str_set ty VALID_MESSAGE_TYPES with
    | Raise k e => Raise k e
    | Return false =>
        Raise "ValueError" ("Invalid message type: " +:+ pystr ty)
    | Return true =>
        let prio_check :=
          match message !! "priority" with
          | None => Return true
          | Some p =>
              match in_str_set p VALID_PRIORITIES with
              | Raise k e => Raise k e
              | Return false =>
                  Raise "ValueError" ("Invalid priority: " +:+ pystr p)
              | Return true => Return true
              end
          end in
        match prio_check with
        | Raise k e => Raise k e
        | Return _ =>
            match message !! "payload" with
            | Some (PDict _) => Return true
            | _ => Raise "ValueError" "Payload must be a dictionary"
            end
        end
    end.

(** The numbers the rate limiter computes with: Python's [int] and
    [float], the latter an IEEE 754 binary64 value. *)
Inductive pynum :=
| NInt (z : Z)
| NFloat (x : float).

(** The conversion that arithmetic between a [float] and an [int] applies
    to the [int]: the nearest float, ties to even, and [OverflowError]
    beyond the range of the floats. *)
Definition float_of_int (z : Z) : outcome float :=
  let x := SF2Prim (binary_normalize prec emax z 0 false) in
  if is_infinity x
  then Raise "OverflowError" "int too large to convert to float"
  else Return x.

Definition to_float (a : pynum) : outcome float :=
  match a with
  | NInt z => float_of_int z
  | NFloat x => Return x
  end.

(** Python compares a [float] with an [int] by their exact values; a NaN
    compares with nothing. *)
Definition compare_float_int (x : float) (z : Z) : option comparison :=
  match Prim2SF x with
  | S754_nan => None
  | S754_infinity true => Some Lt
  | S754_infinity false => Some Gt
  | S754_zero _ => Some (0 ?= z)%Z
  | S754_finite s m e =>
      let v := cond_Zopp s (Zpos m) in
      Some (if (0 <=? e)%Z then (v * 2 ^ e ?= z)%Z
            else (v ?= z * 2 ^ (- e))%Z)
  end.

(** [x < z] for a float [x] and an int [z]. *)
Definition float_lt_int (x : float) (z : Z) : bool :=
  match compare_float_int x z with
  | Some Lt => true
  | _ => false
  end.

(** [a >= z] for a number [a] and an int [z]. *)
Definition num_ge_int (a : pynum) (z : Z) : bool :=
  match a with
  | NInt y => (z <=? y)%Z
  | NFloat x =>
      match compare_float_int x z with
      | Some Eq | Some Gt => true
      | _ => false
      end
  end.

(** [min(capacity, x)]: the second argument is returned when it is smaller
    than the first, the first otherwise. *)
Definition py_min (cap : Z) (x : float) : pynum :=
  if float_lt_int x cap then NFloat x else NInt cap.

(** [a - 1] *)
Definition num_pred (a : pynum) : pynum :=
  match a with
  | NInt z => NInt (z - 1)
  | NFloat x => NFloat (x - 1)%float
  end.

(** [RateLimiter]: [rate] is a float or, as in the handler's default, an
    int; [capacity] is an int; [tokens] starts as the capacity and is a
    float once the bucket is not full; [last_update] is a reading of
    [time.time()]. *)
Record RateLimiter := mkRateLimiter {
  rate : pynum;
  capacity : Z;
  tokens : pynum;
  last_update : float
}.

(** [RateLimiter.__init__]; [now] is the reading of [time.time()]. *)
Definition new_limiter (r : pynum) (cap : Z) (now : float) : RateLimiter :=
  mkRateLimiter r cap (NInt cap) now.

(** [self.tokens + elapsed * self.rate] *)
Definition refilled (l : RateLimiter) (now : float) : outcome float :=
  let elapsed := (now - last_update l)%float in
  match to_float (rate l) with
  | Raise k e => Raise k e
  | Return r =>
      match to_float (tokens l) with
      | Raise k e => Raise k e
      | Return t => Return (t + elapsed * r)%float
      end
  end.

(** [RateLimiter.allow_message]; an exception leaves the limiter as it
    was. *)
Definition allow_message (l : RateLimiter) (now : float)
  : outcome bool * RateLimiter :=
  match refilled l now with
  | Raise k e => (Raise k e, l)
  | Return x =>
      let tk := py_min (capacity l) x in
      if num_ge_int tk 1
      then (Return true, mkRateLimiter (rate l) (capacity l) (num_pred tk) now)
      else (Return false, mkRateLimiter (rate l) (capacity l) tk now)
  end.

End Protocol.

(* ===================================================================== *)
(** * The binary heap behind [queue.PriorityQueue] *)
(* ===================================================================== *)

(** [queue.PriorityQueue] keeps its items in a Python list ordered by the
    [heapq] module; the order in which [MessageQueue.get] returns messages is
    the order in which [heappop] removes them, so the array algorithms are
    embedded as they are written in [heapq]. *)
Module Heapq.
Section Heap.

Context {A : Type}.
(** [lt a b] is [a < b], i.e. [a.__lt__(b)]. *)
Variable lt : A -> A -> bool.

(** The [while pos > startpos] loop of [_siftdown]; [fuel] bounds the number
    of iterations, [pos] iterations always suffice. *)
Fixpoint siftdown_loop (fuel : nat) (heap : list A) (newitem : A)
  (startpos pos : nat) : list A :=
  match fuel with
  | 0 => <[pos := newitem]> heap
  | S fuel' =>
      if bool_decide (startpos < pos) then
        let parentpos := Nat.div2 (pos - 1) in
        match heap !! parentpos with
        | Some parent =>
            if lt newitem parent
            then siftdown_loop fuel' (<[pos := parent]> heap) newitem
                   startpos parentpos
            else <[pos := newitem]> heap
        | None => <[pos := newitem]> heap (* parentpos < pos: not reached *)
        end
      else <[pos := newitem]> heap
  end.

(** [heapq._siftdown(heap, startpos, pos)] *)
Definition _siftdown (heap : list A) (startpos pos : nat) : list A :=
  match heap !! pos with
  | Some newitem => siftdown_loop pos heap newitem startpos pos
  | None => heap
  end.

(** The [while childpos < endpos] loop of [_siftup]: the smaller child is
    moved up until a leaf is reached; returns the array and the leaf. *)
Fixpoint siftup_loop (fuel : nat) (heap : list A) (pos : nat)
  : list A * nat :=
  match fuel with
  | 0 => (heap, pos)
  | S fuel' =>
      let endpos := length heap in
      let childpos := 2 * pos + 1 in
      if bool_decide (childpos < endpos) then
        let rightpos := childpos + 1 in
        let childpos' :=
          match heap !! childpos, heap !! rightpos with
          | Some l, Some r => if negb (lt l r) then rightpos else childpos
          | _, _ => childpos
          end in
        match heap !! childpos' with
        | Some c => siftup_loop fuel' (<[pos := c]> heap) childpos'
        | None => (heap, pos)
        end
      else (heap, pos)
  end.

(** [heapq._siftup(heap, pos)] *)
Definition _siftup (heap : list A) (pos : nat) : list A :=
  match heap !! pos with
  | Some newitem =>
      let '(heap', leaf) := siftup_loop (length heap) heap pos in
      _siftdown (<[leaf := newitem]> heap') pos leaf
  | None => heap
  end.

(** [heapq.heappush(heap, item)] *)
Definition heappush (heap : list A) (item : A) : list A :=
  _siftdown (heap ++ [item]) 0 (length heap).

(** [heapq.heappop(heap)]; [None] is the [IndexError] of an empty heap. *)
Definition heappop (heap : list A) : option (A * list A) :=
  match last heap with
  | None => None
  | Some lastelt =>
      let heap' := take (length heap - 1) heap in
      match heap' !! 0 with
      | Some returnitem => Some (returnitem, _siftup (<[0 := lastelt]> heap') 0)
      | None => Some (lastelt, heap')
      end
  end.

(** Pop until the heap is empty. *)
Fixpoint popall (fuel : nat) (heap : list A) : list A :=
  match fuel with
  | 0 => []
  | S fuel' =>
      match heappop heap with
      | Some (x, heap') => x :: popall fuel' heap'
      | None => []
      end
  end.

(** The heap order: [heap_le a b] is [not (b < a)]. *)
Definition heap_le (a b : A) : Prop := lt b a = false.

(** Index of the parent of [i] in the array. *)
Definition parent (i : nat) : nat := Nat.div2 (i - 1).

(** The heap invariant of [heapq]: no item is smaller than its parent. *)
Definition is_heap (heap : list A) : Prop :=
  ∀ i x y, 0 < i → heap !! i = Some x → heap !! parent i = Some y →
    heap_le y x.

(** What [_siftdown] needs of the array whose slot [pos] is to receive
    [newitem]. *)
Definition sd_pre (heap : list A) (newitem : A) (pos : nat) : Prop :=
  pos < length heap
  ∧ (∀ i x y, 0 < i → i ≠ pos → heap !! i = Some x →
              heap !! parent i = Some y → heap_le y x)
  ∧ (∀ c x, 0 < c → parent c = pos → heap !! c = Some x → heap_le newitem x)
  ∧ (∀ c x y, 0 < c → parent c = pos → 0 < pos → heap !! c = Some x →
              heap !! parent pos = Some y → heap_le y x).

(** While the smaller child is moved up from [pos], the array is heap
    ordered, apart from the two edges below the root as long as [pos] is
    still the root. *)
Definition su_inv (heap : list A) (pos : nat) : Prop :=
  ∀ i x y, 0 < i → (pos = 0 → parent i ≠ 0) → heap !! i = Some x →
    heap !! parent i = Some y → heap_le y x.

(** The child chosen by one iteration of the loop of [_siftup]. *)
Definition smaller_child (heap : list A) (pos : nat) : nat :=
  match heap !! (2 * pos + 1), heap !! (2 * pos + 1 + 1) with
  | Some l, Some r => if negb (lt l r) then 2 * pos + 1 + 1 else 2 * pos + 1
  | _, _ => 2 * pos + 1
  end.

End Heap.
End Heapq.

(* ===================================================================== *)
(** * message_broker.py *)
(* ===================================================================== *)

Module Broker.
Import Protocol.

Inductive MessageType := TASK | RESULT | EVENT | HEARTBEAT | ERROR | CONTROL.

(** [MessageType.value] *)
Definition type_value (t : MessageType) : string :=
  match t with
  | TASK => "task"
  | RESULT => "result"
  | EVENT => "event"
  | HEARTBEAT => "heartbeat"
  | ERROR => "error"
  | CONTROL => "control"
  end.

Inductive MessagePriority := CRITICAL | HIGH | NORMAL | LOW.

(** [MessagePriority.value] *)
Definition priority_value (p : MessagePriority) : Z :=
  match p with
  | CRITICAL => 0
  | HIGH => 1
  | NORMAL => 2
  | LOW => 3
  end.

(** [MessagePriority.name] *)
Definition priority_name (p : MessagePriority) : string :=
  match p with
  | CRITICAL => "CRITICAL"
  | HIGH => "HIGH"
  | NORMAL => "NORMAL"
  | LOW => "LOW"
  end.

(** [Message]; [timestamp] is a [datetime], here a number of microseconds. *)
Record Message := mkMessage {
  sender : string;
  recipient : string;
  message_type : MessageType;
  payload : gmap string string;
  priority : MessagePriority;
  timestamp : Z;
  message_id : string;
  correlation_id : option string
}.

(** [Message.__lt__] *)
Definition Message_lt (self other : Message) : bool :=
  if negb (priority_value (priority self) =? priority_value (priority other))%Z
  then (priority_value (priority self) <? priority_value (priority other))%Z
  else (timestamp self <? timestamp other)%Z.

(** [Message.to_dict] *)
Definition to_dict (m : Message) : gmap string pyval :=
  <["sender" := PStr (sender m)]>
  (<["recipient" := PStr (recipient m)]>
  (<["type" := PStr (type_value (message_type m))]>
  (<["payload" := PDict (payload m)]>
  (<["priority" := PStr (priority_name (priority m))]>
  (<["timestamp" := PTime (timestamp m)]>
  (<["message_id" := PStr (message_id m)]>
  (<["correlation_id" :=
       match correlation_id m with Some c => PStr c | None => PNone end]>
   ∅))))))).

(** [MessageQueue]: [queue] is the heap array of the [PriorityQueue]. *)
Record MessageQueue := mkMessageQueue {
  queue : list Message;
  max_size : Z;
  message_count : Z
}.

(** [MessageQueue.__init__] *)
Definition new_queue (max : Z) : MessageQueue := mkMessageQueue [] max 0.

(** [PriorityQueue.put(item, block=False)] raises [Full] in this case. *)
Definition queue_full (q : MessageQueue) : bool :=
  (0 <? max_size q)%Z && (max_size q <=? Z.of_nat (length (queue q)))%Z.

(** [MessageQueue.put(message, block=False)] *)
Definition put (q : MessageQueue) (m : Message) : bool * MessageQueue :=
  if queue_full q then (false, q)
  else (true,
        mkMessageQueue (Heapq.heappush Message_lt (queue q) m) (max_size q)
          (message_count q + 1)).

(** [MessageQueue.get(block=True, timeout=timeout)] when no other thread
    puts during the call: a negative timeout is a [ValueError], an empty
    queue times out with [Empty]; both are turned into [None]. *)
Definition get (q : MessageQueue) (timeout : Q)
  : option Message * MessageQueue :=
  if negb (Qle_bool 0 timeout) then (None, q)
  else
    match Heapq.heappop Message_lt (queue q) with
    | Some (m, rest) =>
        (Some m, mkMessageQueue rest (max_size q) (message_count q - 1))
    | None => (None, q)
    end.

(** [MessageQueue.size] *)
Definition size (q : MessageQueue) : Z := message_count q.

(** One dictionary of the dead-letter list. *)
Record DLQEntry := mkDLQEntry {
  dl_message : gmap string pyval;
  failure_reason : string;
  dl_timestamp : Z
}.

Record DeadLetterQueue := mkDeadLetterQueue {
  messages : list DLQEntry;
  max_messages : Z
}.

(** [l.pop(0)], executed for its effect on [l]. *)
Definition pop0 {A} (l : list A) : outcome (list A) :=
  match l with
  | [] => Raise "IndexError" "pop from empty list"
  | _ :: l' => Return l'
  end.

(** [DeadLetterQueue.add_message] *)
Definition add_message (d : DeadLetterQueue) (m : Message) (reason : string)
  (now : Z) : outcome DeadLetterQueue :=
  let entry := mkDLQEntry (to_dict m) reason now in
  if (max_messages d <=? Z.of_nat (length (messages d)))%Z then
    match pop0 (messages d) with
    | Return l => Return (mkDeadLetterQueue (l ++ [entry]) (max_messages d))
    | Raise k e => Raise k e
    end
  else Return (mkDeadLetterQueue (messages d ++ [entry]) (max_messages d)).

(** [MessageBroker] (the event bus plays no part in message delivery and is
    left out). *)
Record MessageBroker := mkMessageBroker {
  message_queues : gmap string MessageQueue;
  dead_letter_queue : DeadLetterQueue;
  max_queue_size : Z;
  message_history : list (gmap string pyval);
  max_history : Z
}.

(** [MessageBroker.__init__] *)
Definition new_broker (max_queue : Z) : MessageBroker :=
  mkMessageBroker ∅ (mkDeadLetterQueue [] 500) max_queue [] 1000.

Definition set_queues (b : MessageBroker) (qs : gmap string MessageQueue)
  : MessageBroker :=
  mkMessageBroker qs (dead_letter_queue b) (max_queue_size b)
    (message_history b) (max_history b).

Definition set_dlq (b : MessageBroker) (d : DeadLetterQueue) : MessageBroker :=
  mkMessageBroker (message_queues b) d (max_queue_size b)
    (message_history b) (max_history b).

Definition set_history (b : MessageBroker) (h : list (gmap string pyval))
  : MessageBroker :=
  mkMessageBroker (message_queues b) (dead_letter_queue b) (max_queue_size b)
    h (max_history b).

(** [MessageBroker._get_or_create_queue] *)
Definition _get_or_create_queue (b : MessageBroker) (agent_id : string)
  : MessageQueue * MessageBroker :=
  match message_queues b !! agent_id with
  | Some q => (q, b)
  | None =>
      let q := new_queue (max_queue_size b) in
      (q, set_queues b (<[agent_id := q]> (message_queues b)))
  end.

(** [MessageBroker._record_message] *)
Definition _record_message (b : MessageBroker) (m : Message)
  : outcome MessageBroker :=
  if (max_history b <=? Z.of_nat (length (message_history b)))%Z then
    match pop0 (message_history b) with
    | Return h => Return (set_history b (h ++ [to_dict m]))
    | Raise k e => Raise k e
    end
  else Return (set_history b (message_history b ++ [to_dict m])).

(** [MessageBroker.send_message]: the [try] body, then the [except] handler,
    whose own [add_message] is not protected. *)
Definition send_message (b : MessageBroker) (m : Message) (now : Z)
  : outcome bool * MessageBroker :=
  let '(q, b1) := _get_or_create_queue b (recipient m) in
  let '(ok, q') := put q m in
  let b2 := set_queues b1 (<[recipient m := q']> (message_queues b1)) in
  let body : outcome bool * MessageBroker :=
    if ok then
      match _record_message b2 m with
      | Return b3 => (Return true, b3)
      | Raise k e => (Raise k e, b2)
      end
    else
      match add_message (dead_letter_queue b2) m "Queue full" now with
      | Return d => (Return false, set_dlq b2 d)
      | Raise k e => (Raise k e, b2)
      end in
  match body with
  | (Return r, b') => (Return r, b')
  | (Raise _ e, b') =>
      match add_message (dead_letter_queue b') m e now with
      | Return d => (Return false, set_dlq b' d)
      | Raise k' e' => (Raise k' e', b')
      end
  end.

(** [MessageBroker.receive_message] *)
Definition receive_message (b : MessageBroker) (agent_id : string)
  (timeout : Q) : option Message * MessageBroker :=
  let '(q, b1) := _get_or_create_queue b agent_id in
  let '(r, q') := get q timeout in
  (r, set_queues b1 (<[agent_id := q']> (message_queues b1))).

(** A run of sends followed by a run of receives on one broker. *)
Fixpoint send_all (b : MessageBroker) (ms : list Message) (now : Z)
  : list (outcome bool) * MessageBroker :=
  match ms with
  | [] => ([], b)
  | m :: ms' =>
      let '(r, b1) := send_message b m now in
      let '(rs, b2) := send_all b1 ms' now in
      (r :: rs, b2)
  end.

Fixpoint receive_n (b : MessageBroker) (agent_id : string) (timeout : Q)
  (n : nat) : list (option Message) * MessageBroker :=
  match n with
  | 0 => ([], b)
  | S n' =>
      let '(r, b1) := receive_message b agent_id timeout in
      let '(rs, b2) := receive_n b1 agent_id timeout n' in
      (r :: rs, b2)
  end.

(** The ordering key of the mailbox: [(priority.value, timestamp)]. *)
Definition key_le (a b : Message) : Prop := Message_lt b a = false.

(** The receive order the specification states, following its words:
    by priority (critical first), first sent first among equal priorities.
    Each message is placed behind every message sent earlier whose priority
    is at least as urgent. *)
Fixpoint insert_fifo (m : Message) (l : list Message) : list Message :=
  match l with
  | [] => [m]
  | y :: l' =>
      if (priority_value (priority y) <=? priority_value (priority m))%Z
      then y :: insert_fifo m l'
      else m :: l
  end.

Definition priority_fifo (ms : list Message) : list Message :=
  foldl (fun acc m => insert_fifo m acc) [] ms.

(** Timestamps strictly increase. *)
Definition ts_lt (a b : Message) : Prop := (timestamp a < timestamp b)%Z.

(** ** Vocabulary and sample data of the delivery properties *)

(** The mailbox [send_message] works on: the recipient's, or a new one. *)
Definition mailbox (b : MessageBroker) (agent : string) : MessageQueue :=
  default (new_queue (max_queue_size b)) (message_queues b !! agent).




Definition msg (p : MessagePriority) (body : string) (ts : Z) : Message :=
  mkMessage "agent1" "agent2" TASK {["body" := body]} p ts "" None.

(** send(NORMAL,"a"), send(HIGH,"b"), send(LOW,"c"), created in that order. *)
Definition abc : list Message :=
  [msg NORMAL "a" 1; msg HIGH "b" 2; msg LOW "c" 3].

(** Two NORMAL messages, the one created later sent first. *)
Definition late_first : list Message :=
  [msg NORMAL "x" 2; msg NORMAL "y" 1].

(** Four NORMAL messages with one and the same timestamp. *)
Definition same_instant : list Message :=
  [msg NORMAL "1" 0; msg NORMAL "2" 0; msg NORMAL "3" 0; msg NORMAL "4" 0].

End Broker.

(* ===================================================================== *)
(** * workflow_manager.py *)
(* ===================================================================== *)

Module Workflow.

Inductive TaskStatus :=
  PENDING | READY | RUNNING | COMPLETED | FAILED | SKIPPED | BLOCKED.

Definition is_pending (s : TaskStatus) : bool :=
  match s with
  | PENDING => true
  | _ => false
  end.

Inductive WorkflowStrategy := SEQUENTIAL | PARALLEL | ADAPTIVE | BATCH.

Record Task := mkTask {
  task_id : string;
  name : string;
  status : TaskStatus;
  priority : Z;
  dependencies : gset string;
  retry_count : Z;
  max_retries : Z;
  timeout : Z
}.

Definition set_status (t : Task) (s : TaskStatus) : Task :=
  mkTask (task_id t) (name t) s (priority t) (dependencies t) (retry_count t)
    (max_retries t) (timeout t).

(** A Python [dict] whose insertion order is observable. *)
Section Dict.
Context {V : Type}.

Fixpoint dict_get (d : list (string * V)) (k : string) : option V :=
  match d with
  | [] => None
  | (k', v) :: d' => if bool_decide (k' = k) then Some v else dict_get d' k
  end.

(** [d[k] = v]: an existing key keeps its position. *)
Fixpoint dict_set (d : list (string * V)) (k : string) (v : V)
  : list (string * V) :=
  match d with
  | [] => [(k, v)]
  | (k', v') :: d' =>
      if bool_decide (k' = k) then (k, v) :: d' else (k', v') :: dict_set d' k v
  end.

Definition dict_keys (d : list (string * V)) : list string := map fst d.

End Dict.

(** [Workflow]: [tasks] is the ordered dictionary from task id to task. *)
Record Workflow := mkWorkflow {
  workflow_id : string;
  w_name : string;
  tasks : list (string * Task);
  strategy : WorkflowStrategy
}.

(** [Workflow.add_task] *)
Definition add_task (w : Workflow) (t : Task) : Workflow :=
  mkWorkflow (workflow_id w) (w_name w) (dict_set (tasks w) (task_id t) t)
    (strategy w).

Definition set_tasks (w : Workflow) (ts : list (string * Task)) : Workflow :=
  mkWorkflow (workflow_id w) (w_name w) ts (strategy w).

(** [DependencyResolver]: two [defaultdict(set)]. *)
Record DependencyResolver := mkResolver {
  dependency_graph : gmap string (gset string);
  reverse_graph : gmap string (gset string)
}.

Definition new_resolver : DependencyResolver := mkResolver ∅ ∅.

(** [g[k].add(x)] on a [defaultdict(set)]. *)
Definition graph_add (g : gmap string (gset string)) (k x : string)
  : gmap string (gset string) :=
  <[k := {[x]} ∪ default ∅ (g !! k)]> g.

(** [g.get(k, set())] *)
Definition graph_get (g : gmap string (gset string)) (k : string)
  : gset string :=
  default ∅ (g !! k).

Section Resolver.

(** The order in which Python iterates over a set. *)
Variable iter : gset string -> list string.

(** The two nested loops of [build_graph]. *)
Definition add_edges (r : DependencyResolver) (tid : string) (deps : list string)
  : DependencyResolver :=
  fold_left
    (fun r dep =>
       mkResolver (graph_add (dependency_graph r) tid dep)
                  (graph_add (reverse_graph r) dep tid))
    deps r.

Definition fill_graphs (ts : list (string * Task)) : DependencyResolver :=
  fold_left (fun r kv => add_edges r kv.1 (iter (dependencies kv.2)))
    ts new_resolver.

(** The state of [_has_cycle]: the sets [visited] and [rec_stack]. *)
Record dfs_state := mkDfs {
  visited : gset string;
  rec_stack : gset string
}.

(** The [for neighbor in ...] loop of [dfs]; [call] is the recursive [dfs].
    The result [None] stands for a recursion that has not returned. *)
Fixpoint dfs_loop (call : string -> dfs_state -> option (bool * dfs_state))
  (neighbors : list string) (st : dfs_state) : option (bool * dfs_state) :=
  match neighbors with
  | [] => Some (false, st)
  | nb :: rest =>
      if bool_decide (nb ∉ visited st) then
        match call nb st with
        | None => None
        | Some (true, st') => Some (true, st')
        | Some (false, st') => dfs_loop call rest st'
        end
      else if bool_decide (nb ∈ rec_stack st) then Some (true, st)
      else dfs_loop call rest st
  end.

(** The inner function [dfs] of [_has_cycle]; [fuel] bounds the depth of the
    recursion. *)
Fixpoint dfs (g : gmap string (gset string)) (fuel : nat) (node : string)
  (st : dfs_state) : option (bool * dfs_state) :=
  match fuel with
  | 0 => None
  | S fuel' =>
      let st1 := mkDfs ({[node]} ∪ visited st) ({[node]} ∪ rec_stack st) in
      match dfs_loop (dfs g fuel') (iter (graph_get g node)) st1 with
      | None => None
      | Some (true, st2) => Some (true, st2)
      | Some (false, st2) =>
          Some (false, mkDfs (visited st2) (rec_stack st2 ∖ {[node]}))
      end
  end.

(** The [for task_id in workflow.tasks] loop of [_has_cycle]. *)
Fixpoint has_cycle_loop (g : gmap string (gset string)) (fuel : nat)
  (ids : list string) (st : dfs_state) : option bool :=
  match ids with
  | [] => Some false
  | tid :: rest =>
      if bool_decide (tid ∉ visited st) then
        match dfs g fuel tid st with
        | None => None
        | Some (true, _) => Some true
        | Some (false, st') => has_cycle_loop g fuel rest st'
        end
      else has_cycle_loop g fuel rest st
  end.

(** Every string that occurs in the graph, as a key or as a dependency. *)
Definition graph_nodes (g : gmap string (gset string)) : gset string :=
  dom g ∪ ⋃ (snd <$> map_to_list g).

(** [DependencyResolver._has_cycle]: the recursion is given one level per
    string that can ever be visited, plus one. *)
Definition _has_cycle (r : DependencyResolver) (w : Workflow) : option bool :=
  let g := dependency_graph r in
  let ids := dict_keys (tasks w) in
  has_cycle_loop g
    (S (stdpp.base.size (graph_nodes g ∪ list_to_set ids)))
    ids (mkDfs ∅ ∅).

(** [DependencyResolver.build_graph] *)
Definition build_graph (w : Workflow) : option bool * DependencyResolver :=
  let r := fill_graphs (tasks w) in
  (negb <$> _has_cycle r w, r).

(** [DependencyResolver.get_dependencies] *)
Definition get_dependencies (r : DependencyResolver) (tid : string)
  : gset string :=
  graph_get (dependency_graph r) tid.

(** [DependencyResolver.get_dependents] *)
Definition get_dependents (r : DependencyResolver) (tid : string)
  : gset string :=
  graph_get (reverse_graph r) tid.

(** The [for dep_id in ...] loop of [calculate_length]. *)
Fixpoint max_dep_loop
  (call : string -> list (string * nat) -> option (nat * list (string * nat)))
  (deps : list string) (max_dep_length : nat) (pl : list (string * nat))
  : option (nat * list (string * nat)) :=
  match deps with
  | [] => Some (max_dep_length, pl)
  | dep :: rest =>
      match call dep pl with
      | None => None
      | Some (n, pl') => max_dep_loop call rest (Nat.max max_dep_length n) pl'
      end
  end.

(** The inner function [calculate_length] of [get_critical_path], threading
    the memo table [path_lengths]; [None] stands for a recursion that has not
    returned within [fuel] nested calls. *)
Fixpoint calculate_length (g : gmap string (gset string)) (fuel : nat)
  (tid : string) (pl : list (string * nat))
  : option (nat * list (string * nat)) :=
  match fuel with
  | 0 => None
  | S fuel' =>
      match dict_get pl tid with
      | Some n => Some (n, pl)
      | None =>
          match max_dep_loop (calculate_length g fuel')
                  (iter (graph_get g tid)) 0 pl with
          | None => None
          | Some (mx, pl') => Some (mx + 1, dict_set pl' tid (mx + 1))
          end
      end
  end.

(** The [for task_id in workflow.tasks] loop that fills [path_lengths]. *)
Fixpoint lengths_loop (g : gmap string (gset string)) (fuel : nat)
  (ids : list string) (pl : list (string * nat))
  : option (list (string * nat)) :=
  match ids with
  | [] => Some pl
  | tid :: rest =>
      match calculate_length g fuel tid pl with
      | None => None
      | Some (_, pl') => lengths_loop g fuel rest pl'
      end
  end.

(** [path_lengths] once every task has been measured. *)
Definition path_lengths (r : DependencyResolver) (w : Workflow) (fuel : nat)
  : option (list (string * nat)) :=
  lengths_loop (dependency_graph r) fuel (dict_keys (tasks w)) [].

(** [sorted(items, key=lambda x: x[1], reverse=True)]: a stable sort,
    descending. *)
Fixpoint insert_desc (x : string * nat) (l : list (string * nat))
  : list (string * nat) :=
  match l with
  | [] => [x]
  | y :: l' => if x.2 <? y.2 then y :: insert_desc x l' else x :: l
  end.

Definition sorted_desc (l : list (string * nat)) : list (string * nat) :=
  foldr insert_desc [] l.

(** The final loop of [get_critical_path]. *)
Fixpoint collect_path (items : list (string * nat)) (current_length : Z)
  : list string :=
  match items with
  | [] => []
  | (tid, len) :: rest =>
      if (Z.of_nat len =? current_length)%Z
      then tid :: collect_path rest (current_length - 1)
      else collect_path rest current_length
  end.

(** [max(path_lengths.values()) if path_lengths else 0] *)
Definition max_length (pl : list (string * nat)) : nat :=
  foldr Nat.max 0 (map snd pl).

(** [DependencyResolver.get_critical_path] *)
Definition get_critical_path (r : DependencyResolver) (w : Workflow)
  (fuel : nat) : option (list string) :=
  match path_lengths r w fuel with
  | None => None
  | Some pl =>
      Some (collect_path (sorted_desc pl) (Z.of_nat (max_length pl)))
  end.

(** The dependency check of [validate_workflow]. *)
Definition deps_exist (ts : list (string * Task)) : bool :=
  forallb
    (fun kv =>
       forallb (fun dep => bool_decide (dep ∈ dict_keys ts))
         (iter (dependencies kv.2)))
    ts.

(** [WorkflowManager.validate_workflow], with the manager's resolver as it is
    left by the call. *)
Definition validate_workflow (r : DependencyResolver) (w : Workflow)
  : option bool * DependencyResolver :=
  match tasks w with
  | [] => (Some false, r)
  | _ =>
      match build_graph w with
      | (None, r') => (None, r')
      | (Some false, r') => (Some false, r')
      | (Some true, r') => (Some (deps_exist (tasks w)), r')
      end
  end.

(** [sorted(workflow.tasks.values(), key=lambda t: t.priority)]: stable,
    ascending. *)
Fixpoint insert_prio (x : Task) (l : list Task) : list Task :=
  match l with
  | [] => [x]
  | y :: l' =>
      if (priority y <? priority x)%Z then y :: insert_prio x l' else x :: l
  end.

Definition sorted_prio (l : list Task) : list Task :=
  foldr insert_prio [] l.

(** [TaskScheduler.schedule]: the execution order, and the workflow with the
    scheduled tasks marked [READY]. *)
Definition schedule (w : Workflow) : list string * Workflow :=
  let todo :=
    filter (fun t => is_pending (status t)) (sorted_prio (map snd (tasks w))) in
  (map task_id todo,
   set_tasks w
     (map (fun kv =>
             match status kv.2 with
             | PENDING => (kv.1, set_status kv.2 READY)
             | _ => kv
             end)
        (tasks w))).

(** [WorkflowManager.get_execution_plan] *)
Definition get_execution_plan (r : DependencyResolver) (w : Workflow)
  : option (option (list string)) * DependencyResolver * Workflow :=
  match validate_workflow r w with
  | (None, r') => (None, r', w)
  | (Some false, r') => (Some None, r', w)
  | (Some true, r') => let '(plan, w') := schedule w in (Some (Some plan), r', w')
  end.

(** [d] is one of the dependencies the graph records for [t]. *)
Definition gedge (g : gmap string (gset string)) (t d : string) : Prop :=
  d ∈ graph_get g t.

(** [ranked g n x]: every dependency chain that starts at [x] has at most
    [n] nodes. *)
Fixpoint ranked (g : gmap string (gset string)) (n : nat) (x : string)
  : Prop :=
  match n with
  | 0 => False
  | S m => ∀ y, gedge g x y → ranked g m y
  end.

(** A node from which a dependency cycle can be reached. *)
Definition reaches_cycle (g : gmap string (gset string)) (x : string) : Prop :=
  ∃ c, rtc (gedge g) x c ∧ tc (gedge g) c c.

(** The largest length recorded in [pl] for a member of [s], or 0. *)
Definition max_over (pl : list (string * nat)) (s : gset string) : nat :=
  max_list_with (fun d => default 0 (dict_get pl d)) (elements s).

(** The first key, in insertion order, recorded with length [len]. *)
Definition first_with (pl : list (string * nat)) (len : nat) : option string :=
  fst <$> find (fun kv => kv.2 =? len) pl.

(** One key per length value, from [c] downwards, each the first key
    recorded with that length. *)
Fixpoint levels (pl : list (string * nat)) (c : nat) : list string :=
  match c with
  | 0 => []
  | S c' =>
      match first_with pl c with
      | Some k => k :: levels pl c'
      | None => []
      end
  end.

(** A dependency edge of the workflow: [t] depends on [d]. *)
Definition edge (w : Workflow) (t d : string) : Prop :=
  ∃ task, (t, task) ∈ tasks w ∧ d ∈ dependencies task.

(** The dependency relation is acyclic: no task is reachable from itself. *)
Definition acyclic (w : Workflow) : Prop :=
  ∀ t, ¬ tc (edge w) t t.

(** Every referenced dependency id is the id of a task of the workflow. *)
Definition deps_closed (w : Workflow) : Prop :=
  ∀ t d, edge w t d → d ∈ dict_keys (tasks w).

End Resolver.

(** ** Invariants of the depth-first search *)

Section Invariants.
Variable g : gmap string (gset string).
Abbreviation E := (gedge g).

Definition black_ranked (st : dfs_state) : Prop :=
  ∀ x, x ∈ visited st → x ∉ rec_stack st → ∃ n, ranked g n x.

(** What a returning call of [dfs] guarantees. *)
Definition dfs_post (node : string) (st : dfs_state) (b : bool)
  (st' : dfs_state) : Prop :=
  if b then (∃ x, tc E x x)
  else (visited st ⊆ visited st' ∧ rec_stack st' = rec_stack st
        ∧ node ∈ visited st' ∧ black_ranked st').

Definition dfs_pre (node : string) (st : dfs_state) : Prop :=
  (node ∉ visited st) ∧ (rec_stack st ⊆ visited st)
  ∧ (∀ r, r ∈ rec_stack st → tc E r node)
  ∧ black_ranked st.

(** ** Invariants of the memo table *)

Abbreviation memo := (list (string * nat)).

Definition recorded (pl : memo) (d : string) : nat := default 0 (dict_get pl d).

(** Every recorded length is one more than the largest length recorded for
    a dependency, and dependencies of recorded tasks are recorded. *)
Definition consistent (pl : memo) : Prop :=
  ∀ t n, dict_get pl t = Some n →
    (∀ d, E t d → d ∈ dict_keys pl) ∧ n = S (max_over pl (graph_get g t)).

(** What a returning call of [calculate_length] guarantees when no cycle
    exists. *)
Definition calc_post (t : string) (pl : memo) (n : nat) (pl' : memo) : Prop :=
  ∃ ext, pl' = pl ++ ext ∧ consistent pl' ∧ dict_get pl' t = Some n
         ∧ ∀ x, x ∈ dict_keys ext → rtc E t x ∧ x ∉ dict_keys pl.

End Invariants.

(** The order [sorted(..., reverse=True)] establishes. *)
Definition desc (a b : string * nat) : Prop := b.2 ≤ a.2.

(** ** The two workflows of the specification *)

Definition mk_task (tid : string) (deps : gset string) : Task :=
  mkTask tid tid PENDING 5 deps 0 3 60.

Definition workflow_of (ts : list Task) : Workflow :=
  foldl add_task (mkWorkflow "wf" "wf" [] SEQUENTIAL) ts.

(** A, B, C, each depending on the prior one, A on C. *)
Definition cyclic_workflow : Workflow :=
  workflow_of [mk_task "A" {["C"]}; mk_task "B" {["A"]}; mk_task "C" {["B"]}].

(** B and C depend on A, D depends on B and C. *)
Definition diamond_workflow : Workflow :=
  workflow_of [mk_task "A" ∅; mk_task "B" {["A"]}; mk_task "C" {["A"]};
               mk_task "D" {["B"; "C"]}].

End Workflow.

(* ===================================================================== *)
(** * Python list slices *)
(* ===================================================================== *)

(** The slice [l[-limit:]]: [-0] is [0], so a zero limit selects the whole
    list; a negative limit [-k] selects [l[k:]]. *)
Definition last_slice {A} (l : list A) (limit : Z) : list A :=
  if (limit =? 0)%Z then l
  else if (0 <? limit)%Z then drop (length l - Z.to_nat limit) l
  else drop (Z.to_nat (- limit)) l.

(* ===================================================================== *)
(** * message_broker.py: queries, broadcast and the event bus *)
(* ===================================================================== *)

Module BrokerExt.
Import Protocol Broker.

(** [MessageQueue.is_empty] *)
Definition is_empty (q : MessageQueue) : bool := (Broker.size q =? 0)%Z.

(** [DeadLetterQueue.get_messages] *)
Definition get_messages (d : DeadLetterQueue) (limit : Z) : list DLQEntry :=
  last_slice (messages d) limit.

(** [DeadLetterQueue.clear] *)
Definition clear (d : DeadLetterQueue) : DeadLetterQueue :=
  mkDeadLetterQueue [] (max_messages d).

(** A run of [DeadLetterQueue.add_message] calls, stopped by the first
    exception. *)
Fixpoint add_messages (d : DeadLetterQueue)
  (calls : list (Message * string * Z)) : outcome DeadLetterQueue :=
  match calls with
  | [] => Return d
  | (m, reason, now) :: calls' =>
      match add_message d m reason now with
      | Return d' => add_messages d' calls'
      | Raise k e => Raise k e
      end
  end.

(** The entry [add_message] builds for a call. *)
Definition entry_of (call : Message * string * Z) : DLQEntry :=
  let '(m, reason, now) := call in mkDLQEntry (to_dict m) reason now.




(** [MessageBroker.clear_dlq] *)
Definition clear_dlq (b : MessageBroker) : MessageBroker :=
  set_dlq b (clear (dead_letter_queue b)).

(** The dictionary of [MessageBroker.get_broker_stats]. *)
Record BrokerStats := mkBrokerStats {
  active_agents : Z;
  total_queued_messages : Z;
  dlq_size : Z;
  history_size : Z
}.

(** [MessageBroker.get_broker_stats] *)
Definition get_broker_stats (b : MessageBroker) : BrokerStats :=
  mkBrokerStats
    (Z.of_nat (base.size (message_queues b)))
    (map_fold (fun _ q acc => (Broker.size q + acc)%Z) 0%Z (message_queues b))
    (Z.of_nat (length (messages (dead_letter_queue b))))
    (Z.of_nat (length (message_history b))).

(** The copy [broadcast_message] builds for one agent: [message_id] and
    [correlation_id] take their defaults, [timestamp] is a new reading of
    the clock. *)
Definition make_copy (message : Message) (agent_id : string) (ts : Z)
  : Message :=
  mkMessage (sender message) agent_id (message_type message)
    (payload message) (priority message) ts "" None.

Section Broadcast.

(** [list(self.message_queues.keys())]: the agents in the order in which
    their mailboxes were created, which the map does not record. *)
Variable keys : gmap string MessageQueue → list string.

(** The loop of [broadcast_message].  [stamp a] is the clock reading when
    the copy for [a] is created, [dstamp a] the reading when that copy is
    dead-lettered. *)
Fixpoint broadcast_loop (b : MessageBroker) (message : Message)
  (exclude_agents : list string) (stamp dstamp : string → Z)
  (agents : list string) (successful_sends : Z)
  : outcome Z * MessageBroker :=
  match agents with
  | [] => (Return successful_sends, b)
  | agent_id :: rest =>
      if bool_decide (agent_id ∉ exclude_agents) then
        match send_message b (make_copy message agent_id (stamp agent_id))
                (dstamp agent_id) with
        | (Return true, b') =>
            broadcast_loop b' message exclude_agents stamp dstamp rest
              (successful_sends + 1)
        | (Return false, b') =>
            broadcast_loop b' message exclude_agents stamp dstamp rest
              successful_sends
        | (Raise k e, b') => (Raise k e, b')
        end
      else
        broadcast_loop b message exclude_agents stamp dstamp rest
          successful_sends
  end.

(** [MessageBroker.broadcast_message]; [exclude_agents = None] is [[]]. *)
Definition broadcast_message (b : MessageBroker) (message : Message)
  (exclude_agents : list string) (stamp dstamp : string → Z)
  : outcome Z * MessageBroker :=
  broadcast_loop b message exclude_agents stamp dstamp
    (keys (message_queues b)) 0.

(** The calls a client makes on a broker. *)
Inductive BrokerOp :=
| OpSend (m : Message) (now : Z)
| OpReceive (agent_id : string) (timeout : Q)
| OpBroadcast (m : Message) (exclude_agents : list string)
    (stamp dstamp : string → Z)
| OpClearDlq.

Definition apply_op (b : MessageBroker) (op : BrokerOp) : MessageBroker :=
  match op with
  | OpSend m now => (send_message b m now).2
  | OpReceive a t => (receive_message b a t).2
  | OpBroadcast m ex stamp dstamp => (broadcast_message b m ex stamp dstamp).2
  | OpClearDlq => clear_dlq b
  end.

Definition run_ops (b : MessageBroker) (ops : list BrokerOp) : MessageBroker :=
  foldl apply_op b ops.

End Broadcast.

(** What [list.append] after the conditional [pop(0)] leaves. *)
Definition ring_push {A} (max : Z) (l : list A) (x : A) : list A :=
  (if (max <=? Z.of_nat (length l))%Z then tail l else l) ++ [x].

(** The capacities of the history and of the dead-letter queue are positive
    and respected. *)
Definition bounded (b : MessageBroker) : Prop :=
  (0 < max_history b)%Z
  ∧ (0 < max_messages (dead_letter_queue b))%Z
  ∧ (Z.of_nat (length (message_history b)) ≤ max_history b)%Z
  ∧ (Z.of_nat (length (messages (dead_letter_queue b)))
     ≤ max_messages (dead_letter_queue b))%Z.



(** ** Sample data *)



(** ** The event bus *)

Record EventData := mkEventData {
  event_type : string;
  source : string;
  ev_timestamp : Z;
  data : gmap string string
}.

Section Bus.

(** Callbacks are opaque; [list.remove] compares them with [==]. *)
Context {Callable : Type} `{EqDecision Callable}.

(** [EventBus]: a [defaultdict(list)]. *)
Record EventBus := mkEventBus {
  subscribers : gmap string (list Callable)
}.

(** [EventBus.__init__] *)
Definition new_bus : EventBus := mkEventBus ∅.

(** [EventBus.subscribe] *)
Definition subscribe (bus : EventBus) (et : string) (callback : Callable)
  : EventBus :=
  mkEventBus
    (<[et := default [] (subscribers bus !! et) ++ [callback]]>
       (subscribers bus)).

(** [l.remove(x)], executed for its effect on [l]. *)
Fixpoint list_remove (x : Callable) (l : list Callable)
  : outcome (list Callable) :=
  match l with
  | [] => Raise "ValueError" "list.remove(x): x not in list"
  | y :: l' =>
      if decide (y = x) then Return l'
      else match list_remove x l' with
           | Return r => Return (y :: r)
           | Raise k e => Raise k e
           end
  end.

(** [EventBus.unsubscribe] *)
Definition unsubscribe (bus : EventBus) (et : string) (callback : Callable)
  : outcome EventBus :=
  match subscribers bus !! et with
  | Some l =>
      match list_remove callback l with
      | Return l' => Return (mkEventBus (<[et := l']> (subscribers bus)))
      | Raise k e => Raise k e
      end
  | None => Return bus
  end.

(** [EventBus.get_subscriber_count] *)
Definition get_subscriber_count (bus : EventBus) (et : string) : Z :=
  Z.of_nat (length (default [] (subscribers bus !! et))).

(** What [publish] does that is visible from outside. *)
Inductive BusEvent :=
| Called (callback : Callable) (event : EventData)
| Printed (text : string).

(** [EventBus.publish]; [raises c e] is the [str] of the exception that the
    callback [c] raises on [e], if it raises one.  Callbacks do not
    subscribe or unsubscribe while the event is being published. *)
Definition publish (bus : EventBus) (raises : Callable → EventData → option string)
  (event : EventData) : list BusEvent :=
  flat_map
    (fun callback =>
       Called callback event ::
       match raises callback event with
       | Some e => [Printed ("Error in event callback: " +:+ e)]
       | None => []
       end)
    (default [] (subscribers bus !! event_type event)).

(** The callbacks [publish] has called, in the order of the calls. *)
Definition calls (evs : list BusEvent) : list Callable :=
  omap (fun ev => match ev with Called c _ => Some c | Printed _ => None end)
    evs.

End Bus.

Arguments EventBus Callable : clear implicits.

End BrokerExt.

(* ===================================================================== *)
(** * workflow_manager.py: the task table and the scheduler *)
(* ===================================================================== *)

Module WorkflowExt.
Import Workflow.

(** [Task.is_ready_to_run] *)
Definition is_ready_to_run (t : Task) : bool :=
  match status t with
  | READY => true
  | _ => false
  end.

(** [Task.can_retry] *)
Definition can_retry (t : Task) : bool := (retry_count t <? max_retries t)%Z.

(** [del d[k]] on a dictionary that holds [k]. *)
Definition dict_del {V} (d : list (string * V)) (k : string)
  : list (string * V) :=
  filter (fun kv => kv.1 ≠ k) d.

(** [Workflow.get_task] *)
Definition get_task (w : Workflow) (tid : string) : option Task :=
  dict_get (tasks w) tid.

(** [Workflow.remove_task] *)
Definition remove_task (w : Workflow) (tid : string) : bool * Workflow :=
  if bool_decide (tid ∈ dict_keys (tasks w))
  then (true, set_tasks w (dict_del (tasks w) tid))
  else (false, w).

(** The calls that change the task table of a workflow. *)
Inductive TableOp :=
| OpAdd (t : Task)
| OpRemove (tid : string).

Definition apply_table_op (w : Workflow) (op : TableOp) : Workflow :=
  match op with
  | OpAdd t => add_task w t
  | OpRemove tid => (remove_task w tid).2
  end.

(** [TaskScheduler]: [ready_queue] is a [deque], [task_status] a
    dictionary. *)
Record TaskScheduler := mkTaskScheduler {
  ready_queue : list string;
  task_status : list (string * TaskStatus);
  execution_order : list string
}.

(** [TaskScheduler.__init__] *)
Definition new_scheduler : TaskScheduler := mkTaskScheduler [] [] [].

(** [TaskScheduler.schedule] with the scheduler's own state: the statuses
    are copied before any task is marked, the ready queue is extended, the
    execution order is replaced. *)
Definition schedule_on (s : TaskScheduler) (w : Workflow)
  : list string * TaskScheduler * Workflow :=
  let '(order, w') := schedule w in
  (order,
   mkTaskScheduler (ready_queue s ++ order)
     (map (fun kv => (kv.1, status kv.2)) (tasks w))
     order,
   w').

(** [TaskScheduler.get_next_task] *)
Definition get_next_task (s : TaskScheduler) : option string * TaskScheduler :=
  match ready_queue s with
  | [] => (None, s)
  | tid :: rest =>
      (Some tid, mkTaskScheduler rest (task_status s) (execution_order s))
  end.

(** [TaskScheduler.mark_complete] *)
Definition mark_complete (s : TaskScheduler) (tid : string) : TaskScheduler :=
  mkTaskScheduler (ready_queue s) (dict_set (task_status s) tid COMPLETED)
    (execution_order s).

(** [TaskScheduler.mark_failed] *)
Definition mark_failed (s : TaskScheduler) (tid : string) : TaskScheduler :=
  mkTaskScheduler (ready_queue s) (dict_set (task_status s) tid FAILED)
    (execution_order s).

(** [n] calls of [get_next_task] in a row. *)
Fixpoint next_tasks (s : TaskScheduler) (n : nat)
  : list (option string) * TaskScheduler :=
  match n with
  | 0 => ([], s)
  | S n' =>
      let '(r, s1) := get_next_task s in
      let '(rs, s2) := next_tasks s1 n' in
      (r :: rs, s2)
  end.

(** Ascending priority values. *)
Definition prio_le (a b : Task) : Prop := (priority a ≤ priority b)%Z.

(** A dependency chain of the workflow: it starts at a task and every
    element depends on the next one. *)
Fixpoint follows_edges (w : Workflow) (c : list string) : Prop :=
  match c with
  | x :: ((y :: _) as rest) => edge w x y ∧ follows_edges w rest
  | _ => True
  end.

Definition dep_chain (w : Workflow) (c : list string) : Prop :=
  (∃ x, head c = Some x ∧ x ∈ dict_keys (tasks w)) ∧ follows_edges w c.

(** ** Vocabulary of the critical path *)

(** The dependencies declared by the tasks filed under [t]. *)
Definition declared (w : Workflow) (t : string) : gset string :=
  ⋃ ((fun kv : string * Task =>
        if bool_decide (kv.1 = t) then dependencies kv.2 else ∅) <$> tasks w).

(** The longest dependency chain that starts at [t] (with [t], one of its
    dependencies, a dependency of that one, and so on) has [n] elements. *)
Definition chain_length (w : Workflow) (t : string) (n : nat) : Prop :=
  (∃ c, head c = Some t ∧ follows_edges w c ∧ length c = n)
  ∧ ∀ c, head c = Some t → follows_edges w c → length c ≤ n.

(** [x] is the first element of [order] that has the property [P]. *)
Definition first_such (order : list string) (P : string → Prop) (x : string)
  : Prop :=
  ∃ before after,
    order = before ++ x :: after ∧ P x ∧ ∀ y, y ∈ before → ¬ P y.

(** The order in which a depth-first measurement records tasks.
    [measured deps seen ts order]: measuring the tasks [ts] one after the
    other, when [seen] is what has been recorded so far, leaves [order]
    recorded.  A task that is already recorded is passed over; a new task
    is recorded after its dependencies [deps t] have been measured. *)
Inductive measured (deps : string → list string)
  : list string → list string → list string → Prop :=
| measured_nil seen : measured deps seen [] seen
| measured_known seen t ts order :
    t ∈ seen → measured deps seen ts order →
    measured deps seen (t :: ts) order
| measured_new seen t ts mid order :
    t ∉ seen → measured deps seen (deps t) mid →
    measured deps (mid ++ [t]) ts order →
    measured deps seen (t :: ts) order.

(** The order in which the tasks of a workflow are recorded when they are
    measured in insertion order, the dependencies of each in the order in
    which their set is iterated. *)
Definition record_order (iter : gset string → list string) (w : Workflow)
  (order : list string) : Prop :=
  measured (fun t => iter (declared w t)) [] (dict_keys (tasks w)) order.

(** A critical path that breaks ties by [order]: the path is as long as the
    longest dependency chain of the workflow, and its [i]-th element is the
    first task of [order] whose own longest chain has [i] elements less
    than that. *)
Definition critical_path_by (w : Workflow) (order path : list string)
  : Prop :=
  (∀ c, dep_chain w c → length c ≤ length path)
  ∧ (tasks w ≠ [] → ∃ c, dep_chain w c ∧ length c = length path)
  ∧ ∀ i t, path !! i = Some t →
           first_such order (fun u => chain_length w u (length path - i)) t.

(** R depends on Q; P and Q depend on nothing; added as R, P, Q. *)
Definition rpq_workflow : Workflow :=
  workflow_of [mk_task "R" {["Q"]}; mk_task "P" ∅; mk_task "Q" ∅].

End WorkflowExt.

(* ===================================================================== *)
(** * advanced_state_manager.py: tracker, validator and manager *)
(* ===================================================================== *)

Module StateExt.
Import StateManager.

(** [StateSnapshot]; the context [{}] that [record_state] stores for a
    falsy context is [None] here. *)
Record StateSnapshot (PyObj : Type) := mkStateSnapshot {
  snapshot_id : string;
  state : string;
  s_timestamp : Z;
  s_context : option PyObj;
  s_metadata : gmap string string
}.
Arguments mkStateSnapshot {PyObj}.
Arguments snapshot_id {PyObj}.
Arguments state {PyObj}.
Arguments s_timestamp {PyObj}.
Arguments s_context {PyObj}.
Arguments s_metadata {PyObj}.

(** [StateTracker]; clock readings are microseconds, durations are seconds,
    with Python floats idealised as exact rationals. *)
Record StateTracker (PyObj : Type) := mkStateTracker {
  t_current_state : string;
  state_history : list (StateSnapshot PyObj);
  state_transitions_count : Z;
  state_durations : gmap string Q;
  last_state_change : option Z
}.
Arguments mkStateTracker {PyObj}.
Arguments t_current_state {PyObj}.
Arguments state_history {PyObj}.
Arguments state_transitions_count {PyObj}.
Arguments state_durations {PyObj}.
Arguments last_state_change {PyObj}.

(** [StateValidator] *)
Record StateValidator := mkStateValidator {
  rules : list (string → string → bool)
}.

(** [StateValidator.__init__] *)
Definition new_validator : StateValidator := mkStateValidator [].

(** [StateValidator.add_validation_rule] *)
Definition add_validation_rule (v : StateValidator)
  (rule : string → string → bool) : StateValidator :=
  mkStateValidator (rules v ++ [rule]).

(** [StateValidator.validate_transition] *)
Definition validate_transition (v : StateValidator) (from_state to_state : string)
  : bool * option string :=
  match find (fun rule => negb (rule from_state to_state)) (rules v) with
  | Some _ =>
      (false,
       Some ("Validation failed for " +:+ from_state +:+ " -> " +:+ to_state))
  | None => (true, None)
  end.

Section Manager.

Variable PyObj : Type.
Variable truthy_obj : PyObj → bool.
Variable Callable : Type.

(** [StateMachine.can_transition] *)
Definition can_transition (m : StateMachine PyObj Callable)
  (from_state to_state : string) (c : Context PyObj) : bool :=
  match find (fun t => bool_decide (StateManager.to_state t = to_state))
          (default [] (transitions m !! from_state)) with
  | Some t =>
      match condition t with
      | Some cond => if truthy truthy_obj c then cond c else true
      | None => true
      end
  | None => false
  end.

(** [StateTracker.__init__] *)
Definition new_tracker : StateTracker PyObj := mkStateTracker "" [] 0 ∅ None.

(** [StateTracker.record_state]; [sid] and [ts] are the id and the
    timestamp of the snapshot, [now_d] and [now_c] the two later readings
    of the clock. *)
Definition record_state (tr : StateTracker PyObj) (st : string)
  (c : Context PyObj) (sid : string) (ts now_d now_c : Z)
  : StateSnapshot PyObj * StateTracker PyObj :=
  let snapshot :=
    mkStateSnapshot sid st ts (if truthy truthy_obj c then c else None) ∅ in
  let durations :=
    match last_state_change tr with
    | Some last =>
        <[t_current_state tr :=
            (default 0 (state_durations tr !! t_current_state tr)
             + inject_Z (now_d - last) / 1000000)%Q]>
          (state_durations tr)
    | None => state_durations tr
    end in
  (snapshot,
   mkStateTracker st (state_history tr ++ [snapshot])
     (state_transitions_count tr + 1) durations (Some now_c)).

(** [StateTracker.get_state_duration] *)
Definition get_state_duration (tr : StateTracker PyObj) (st : string) : Q :=
  default 0%Q (state_durations tr !! st).

(** [StateTracker.get_history] *)
Definition get_history (tr : StateTracker PyObj) (limit : option Z)
  : list (StateSnapshot PyObj) :=
  match limit with
  | None => state_history tr
  | Some l =>
      if (l =? 0)%Z then state_history tr else last_slice (state_history tr) l
  end.

(** [AdvancedStateManager] *)
Record AdvancedStateManager := mkManager {
  machine : StateMachine PyObj Callable;
  tracker : StateTracker PyObj;
  validator : StateValidator
}.

(** [AdvancedStateManager.__init__] *)
Definition new_manager (initial_state : string) (sid : string) (ts now_c : Z)
  : AdvancedStateManager :=
  mkManager (new_machine initial_state)
    (record_state new_tracker initial_state None sid ts 0 now_c).2
    new_validator.

(** The test of the first loop of [transition_with_validation]:
    [trans.condition is None or (context and trans.condition(context))]. *)
Definition condition_holds (c : Context PyObj)
  (t : StateTransition PyObj Callable) : bool :=
  match condition t with
  | None => true
  | Some cond => truthy truthy_obj c && cond c
  end.

(** [AdvancedStateManager.transition_with_validation]: the returned pair,
    the manager after the call, and the callables that were run. *)
Definition transition_with_validation (mgr : AdvancedStateManager)
  (trig : string) (c : Context PyObj) (usr : string)
  (eid : string) (now : Z) (sid : string) (ts now_d now_c : Z)
  : (bool * option string) * AdvancedStateManager * list (Event PyObj Callable) :=
  match find (condition_holds c) (outgoing (machine mgr)) with
  | None => ((false, Some "No valid transition found"), mgr, [])
  | Some t0 =>
      let next_state := to_state t0 in
      match validate_transition (validator mgr)
              (current_state (machine mgr)) next_state with
      | (false, error) => ((false, error), mgr, [])
      | (true, _) =>
          let '(success, m', evs) :=
            transition truthy_obj (machine mgr) eid now trig c usr in
          if success
          then ((true, None),
                mkManager m'
                  (record_state (tracker mgr) next_state c sid ts now_d now_c).2
                  (validator mgr),
                evs)
          else ((false, Some "Transition failed"),
                mkManager m' (tracker mgr) (validator mgr), evs)
      end
  end.

(** The dictionary of [AdvancedStateManager.get_state_report]. *)
Record StateReport := mkStateReport {
  r_current_state : string;
  total_transitions : Z;
  r_state_durations : gmap string Q;
  history_length : Z;
  audit_entries : Z
}.

(** [AdvancedStateManager.get_state_report] *)
Definition get_state_report (mgr : AdvancedStateManager) : StateReport :=
  mkStateReport (current_state (machine mgr))
    (state_transitions_count (tracker mgr))
    (state_durations (tracker mgr))
    (Z.of_nat (length (state_history (tracker mgr))))
    (Z.of_nat (length (audit_trail (machine mgr)))).

(** The calls a client makes on a manager: it configures the machine and
    the validator, and moves the machine through the manager. *)
Inductive ManagerOp :=
| MDefineState (st : string) (ty : StateType)
| MAddTransition (t : StateTransition PyObj Callable)
| MRegisterEntry (st : string) (h : Callable)
| MRegisterExit (st : string) (h : Callable)
| MAddRule (rule : string → string → bool)
| MTransition (trig : string) (c : Context PyObj) (usr : string)
    (eid : string) (now : Z) (sid : string) (ts now_d now_c : Z).

Definition set_machine (mgr : AdvancedStateManager)
  (m : StateMachine PyObj Callable) : AdvancedStateManager :=
  mkManager m (tracker mgr) (validator mgr).

Definition apply_manager_op (mgr : AdvancedStateManager) (o : ManagerOp)
  : AdvancedStateManager :=
  match o with
  | MDefineState st ty => set_machine mgr (define_state (machine mgr) st ty)
  | MAddTransition t => set_machine mgr (add_transition (machine mgr) t)
  | MRegisterEntry st h =>
      set_machine mgr (register_entry_handler (machine mgr) st h)
  | MRegisterExit st h =>
      set_machine mgr (register_exit_handler (machine mgr) st h)
  | MAddRule rule =>
      mkManager (machine mgr) (tracker mgr)
        (add_validation_rule (validator mgr) rule)
  | MTransition trig c usr eid now sid ts now_d now_c =>
      (transition_with_validation mgr trig c usr eid now sid ts now_d now_c).1.2
  end.

Definition run_manager_ops (mgr : AdvancedStateManager) (ops : list ManagerOp)
  : AdvancedStateManager :=
  foldl apply_manager_op mgr ops.

(** An operation that adds no edge with guard clauses. *)
Definition guard_free_op (o : ManagerOp) : Prop :=
  match o with
  | MAddTransition t => guard_clauses t = []
  | _ => True
  end.

(** No stored edge has guard clauses. *)
Definition guard_free (m : StateMachine PyObj Callable) : Prop :=
  ∀ s ts t, transitions m !! s = Some ts → t ∈ ts → guard_clauses t = [].

(** The tracker agrees with a machine that has no guard clauses and has
    never failed. *)
Definition in_sync (mgr : AdvancedStateManager) : Prop :=
  guard_free (machine mgr)
  ∧ t_current_state (tracker mgr) = current_state (machine mgr)
  ∧ state_transitions_count (tracker mgr)
    = Z.of_nat (length (state_history (tracker mgr)))
  ∧ length (state_history (tracker mgr))
    = 1 + length (filter (fun e => success e = true)
                    (audit_trail (machine mgr)))
  ∧ Forall (fun e => success e = true) (audit_trail (machine mgr)).

End Manager.

Arguments can_transition {PyObj} truthy_obj {Callable}.
Arguments new_tracker {PyObj}.
Arguments record_state {PyObj} truthy_obj.
Arguments get_state_duration {PyObj}.
Arguments get_history {PyObj}.
Arguments mkManager {PyObj Callable}.
Arguments machine {PyObj Callable}.
Arguments tracker {PyObj Callable}.
Arguments validator {PyObj Callable}.
Arguments new_manager {PyObj} truthy_obj {Callable}.
Arguments condition_holds {PyObj} truthy_obj {Callable}.
Arguments transition_with_validation {PyObj} truthy_obj {Callable}.
Arguments get_state_report {PyObj Callable}.
Arguments MDefineState {PyObj Callable}.
Arguments MAddTransition {PyObj Callable}.
Arguments MRegisterEntry {PyObj Callable}.
Arguments MRegisterExit {PyObj Callable}.
Arguments MAddRule {PyObj Callable}.
Arguments MTransition {PyObj Callable}.
Arguments set_machine {PyObj Callable}.
Arguments apply_manager_op {PyObj} truthy_obj {Callable}.
Arguments run_manager_ops {PyObj} truthy_obj {Callable}.
Arguments guard_free_op {PyObj Callable}.
Arguments guard_free {PyObj Callable}.
Arguments in_sync {PyObj Callable}.

(** ** Sample data *)

(** An edge from INITIAL to DONE whose only guard clause rejects. *)
Definition guarded_edge : StateTransition unit string :=
  mkStateTransition "t0" "INITIAL" "DONE" NORMAL None None [fun _ => false] 0.

(** The three-state machine, configured through a manager. *)
Definition three_state_manager_ops : list (ManagerOp unit string) :=
  [ MDefineState "INITIAL" INITIAL;
    MDefineState "RUNNING" INTERMEDIATE;
    MDefineState "DONE" TERMINAL;
    MAddTransition start_edge ].

Definition three_state_manager : AdvancedStateManager unit string :=
  run_manager_ops no_truth (new_manager no_truth "INITIAL" "s0" 0 0)
    three_state_manager_ops.

(** The same machine with the guarded edge declared first. *)
Definition guarded_manager : AdvancedStateManager unit string :=
  run_manager_ops no_truth (new_manager no_truth "INITIAL" "s0" 0 0)
    [ MDefineState "INITIAL" INITIAL;
      MDefineState "RUNNING" INTERMEDIATE;
      MDefineState "DONE" TERMINAL;
      MAddTransition guarded_edge;
      MAddTransition start_edge ].

End StateExt.

(* ===================================================================== *)
(** * agent_orchestrator.py: distribution and coordination *)
(* ===================================================================== *)

Module OrchestratorExt.
Import Orchestrator.

(** [AgentPool.get_agent] *)
Definition get_agent (p : AgentPool) (agent_id : string) : option AgentInfo :=
  agents p !! agent_id.

(** The calls that change the membership of a pool. *)
Inductive PoolOp :=
| OpRegister (agent_id : string) (caps : list string) (now : Z)
| OpUnregister (agent_id : string).

Definition apply_pool_op (p : AgentPool) (op : PoolOp) : AgentPool :=
  match op with
  | OpRegister a caps now => (register_agent p a caps now).2
  | OpUnregister a => (unregister_agent p a).2
  end.

Inductive LoadBalancingStrategy :=
  ROUND_ROBIN | LEAST_LOADED | PRIORITY_BASED | WEIGHTED.

(** [TaskDistributor] *)
Record TaskDistributor := mkTaskDistributor {
  strategy : LoadBalancingStrategy;
  round_robin_index : Z
}.

(** [TaskDistributor.__init__] *)
Definition new_distributor (s : LoadBalancingStrategy) : TaskDistributor :=
  mkTaskDistributor s 0.

(** The [agents] argument of [distribute_task]: a dictionary in its
    insertion order. *)
Definition AgentDict := list (string * AgentInfo).

(** [[a for a in agents.values() if a["status"] == "idle"]] *)
Definition idle_agents (agents : AgentDict) : list AgentInfo :=
  filter (fun a => status a = "idle") (map snd agents).

(** [TaskDistributor._round_robin]; it is called on a non-empty dictionary
    only. *)
Definition _round_robin (d : TaskDistributor) (agents : AgentDict)
  : option string * TaskDistributor :=
  (map fst agents
     !! Z.to_nat (round_robin_index d `mod` Z.of_nat (length agents)),
   mkTaskDistributor (strategy d) (round_robin_index d + 1)).

(** [min(x :: l, key=key)]: the first item with the least key. *)
Fixpoint first_min {A} (key : A → Z) (x : A) (l : list A) : A :=
  match l with
  | [] => x
  | y :: l' =>
      if (key y <? key x)%Z then first_min key y l' else first_min key x l'
  end.

(** [TaskDistributor._least_loaded] *)
Definition _least_loaded (agents : AgentDict) : option string :=
  match idle_agents agents with
  | [] => None
  | a :: rest => Some (id (first_min tasks_completed a rest))
  end.

(** [TaskDistributor._priority_based]; the task is not consulted. *)
Definition _priority_based (agents : AgentDict) : option string :=
  match idle_agents agents with
  | [] => None
  | a :: _ => Some (id a)
  end.

(** The loop of [_weighted]; floats are idealised as exact rationals and
    [tasks_completed] is never negative. *)
Fixpoint weighted_loop (idle : list AgentInfo) (r current : Q)
  : option string :=
  match idle with
  | [] => None
  | a :: rest =>
      let current' := (current + 1 / (1 + inject_Z (tasks_completed a)))%Q in
      if Qle_bool r current' then Some (id a)
      else weighted_loop rest r current'
  end.

(** [TaskDistributor._weighted]; [r] is the value of [random.uniform]. *)
Definition _weighted (agents : AgentDict) (r : Q) : option string :=
  match idle_agents agents with
  | [] => None
  | a :: rest =>
      match weighted_loop (a :: rest) r 0 with
      | Some x => Some x
      | None => Some (id a)
      end
  end.

(** [TaskDistributor.distribute_task]; the task is passed on to
    [_priority_based] only, which ignores it. *)
Definition distribute_task (d : TaskDistributor) (agents : AgentDict) (r : Q)
  : option string * TaskDistributor :=
  match agents with
  | [] => (None, d)
  | _ =>
      match strategy d with
      | ROUND_ROBIN => _round_robin d agents
      | LEAST_LOADED => (_least_loaded agents, d)
      | PRIORITY_BASED => (_priority_based agents, d)
      | WEIGHTED => (_weighted agents r, d)
      end
  end.

(** [n] calls of [distribute_task] on the same dictionary. *)
Fixpoint distribute_n (d : TaskDistributor) (agents : AgentDict) (r : Q)
  (n : nat) : list (option string) * TaskDistributor :=
  match n with
  | 0 => ([], d)
  | S n' =>
      let '(x, d1) := distribute_task d agents r in
      let '(xs, d2) := distribute_n d1 agents r n' in
      (x :: xs, d2)
  end.

(** The values a [task_data] dictionary holds. *)
Inductive DataValue :=
| DNone
| DStr (s : string)
| DInt (z : Z)
| DNum (q : Q)
| DList (l : list string).

(** [TaskAssignment] *)
Record TaskAssignment := mkTaskAssignment {
  a_task_id : string;
  a_agent_id : string;
  assigned_time : Z;
  a_priority : DataValue;
  estimated_duration : DataValue;
  required_capabilities : DataValue;
  a_status : string
}.

(** [ExecutionCoordinator] *)
Record ExecutionCoordinator := mkCoordinator {
  agent_pool : AgentPool;
  distributor : TaskDistributor;
  assignments : gmap string TaskAssignment
}.

(** [ExecutionCoordinator.__init__] *)
Definition new_coordinator (p : AgentPool) (d : TaskDistributor)
  : ExecutionCoordinator :=
  mkCoordinator p d ∅.

(** [self.agent_pool.agents] as the ordered dictionary it is; [order] is
    the insertion order of its keys, which the map does not record. *)
Definition items_in (order : list string) (m : gmap string AgentInfo)
  : AgentDict :=
  omap (fun k => (fun a => (k, a)) <$> m !! k) order.

Definition set_agent (p : AgentPool) (agent_id : string) (a : AgentInfo)
  : AgentPool :=
  mkAgentPool (pool_name p) (max_agents p) (<[agent_id := a]> (agents p)).

(** [ExecutionCoordinator.coordinate_execution]; [now] is the reading of
    [datetime.now()], [r] the value of [random.uniform]. *)
Definition coordinate_execution (ec : ExecutionCoordinator) (task_id : string)
  (task_data : gmap string DataValue) (now : Z) (r : Q) (order : list string)
  : option string * ExecutionCoordinator :=
  let '(sel, d') :=
    distribute_task (distributor ec)
      (items_in order (agents (agent_pool ec))) r in
  match sel with
  | None => (None, mkCoordinator (agent_pool ec) d' (assignments ec))
  | Some agent_id =>
      if bool_decide (agent_id = "")
      then (None, mkCoordinator (agent_pool ec) d' (assignments ec))
      else
        let assignment :=
          mkTaskAssignment task_id agent_id now
            (default (DInt 0) (task_data !! "priority"))
            (default (DInt 0) (task_data !! "estimated_duration"))
            (default (DList []) (task_data !! "capabilities"))
            "pending" in
        let pool' :=
          match get_agent (agent_pool ec) agent_id with
          | Some a =>
              set_agent (agent_pool ec) agent_id
                (mkAgentInfo (id a) (capabilities a) "busy" (Some task_id)
                   (tasks_completed a) (registered_time a))
          | None => agent_pool ec
          end in
        (Some agent_id,
         mkCoordinator pool' d' (<[task_id := assignment]> (assignments ec)))
  end.

(** [ExecutionCoordinator.complete_task] *)
Definition complete_task (ec : ExecutionCoordinator) (task_id : string)
  : bool * ExecutionCoordinator :=
  match assignments ec !! task_id with
  | None => (false, ec)
  | Some assignment =>
      let pool' :=
        match get_agent (agent_pool ec) (a_agent_id assignment) with
        | Some a =>
            set_agent (agent_pool ec) (a_agent_id assignment)
              (mkAgentInfo (id a) (capabilities a) "idle" None
                 (tasks_completed a + 1) (registered_time a))
        | None => agent_pool ec
        end in
      (true,
       mkCoordinator pool' (distributor ec)
         (<[task_id :=
              mkTaskAssignment (a_task_id assignment) (a_agent_id assignment)
                (assigned_time assignment) (a_priority assignment)
                (estimated_duration assignment)
                (required_capabilities assignment) "completed"]>
            (assignments ec)))
  end.

(** [ResourceNegotiator]: the resources requested per agent. *)
Record ResourceNegotiator := mkNegotiator {
  resources : gmap string (gmap string DataValue)
}.

(** [ResourceNegotiator.__init__] *)
Definition new_negotiator : ResourceNegotiator := mkNegotiator ∅.

(** [ResourceNegotiator.request_resources] *)
Definition request_resources (n : ResourceNegotiator) (agent_id : string)
  (required : gmap string DataValue) : bool * ResourceNegotiator :=
  (true, mkNegotiator (<[agent_id := required]> (resources n))).

(** [ResourceNegotiator.release_resources] *)
Definition release_resources (n : ResourceNegotiator) (agent_id : string)
  : bool * ResourceNegotiator :=
  if bool_decide (agent_id ∈ dom (resources n))
  then (true, mkNegotiator (delete agent_id (resources n)))
  else (false, n).

(** Every record of the pool is filed under its own id, as [register_agent]
    files it. *)
Definition ids_consistent (p : AgentPool) : Prop :=
  ∀ k a, agents p !! k = Some a → id a = k.

(** ** Sample data *)

Definition two_agent_pool : AgentPool :=
  foldl apply_pool_op (new_pool "pool" 10)
    [OpRegister "a1" [] 0; OpRegister "a2" [] 1].

Definition sample_coordinator : ExecutionCoordinator :=
  new_coordinator two_agent_pool (new_distributor LEAST_LOADED).

End OrchestratorExt.

(* ===================================================================== *)
(** * fault_tolerance_manager.py: health, failover and backups *)
(* ===================================================================== *)

Module FaultToleranceExt.
Import Protocol.

(** One dictionary of [agent_health]; [last_heartbeat] is a [datetime],
    here a number of microseconds. *)
Record Health := mkHealth {
  last_heartbeat : Z;
  h_status : string;
  error_count : Z;
  success_count : Z
}.

(** [HealthMonitor]; [agent_health] is a dictionary in its insertion order,
    [heartbeat_timeout] a number of seconds, with Python floats idealised
    as exact rationals. *)
Record HealthMonitor := mkHealthMonitor {
  heartbeat_timeout : Q;
  agent_health : list (string * Health)
}.

(** [HealthMonitor.__init__] *)
Definition new_monitor (timeout : Q) : HealthMonitor :=
  mkHealthMonitor timeout [].

Definition set_health (hm : HealthMonitor) (agent_id : string) (h : Health)
  : HealthMonitor :=
  mkHealthMonitor (heartbeat_timeout hm)
    (Workflow.dict_set (agent_health hm) agent_id h).

(** [HealthMonitor.register_agent]; [now] is the reading of the clock. *)
Definition register_agent (hm : HealthMonitor) (agent_id : string) (now : Z)
  : HealthMonitor :=
  set_health hm agent_id (mkHealth now "healthy" 0 0).

(** [HealthMonitor.heartbeat] *)
Definition heartbeat (hm : HealthMonitor) (agent_id : string) (now : Z)
  : HealthMonitor :=
  match Workflow.dict_get (agent_health hm) agent_id with
  | Some h =>
      set_health hm agent_id
        (mkHealth now "healthy" (error_count h) (success_count h))
  | None => hm
  end.

(** [HealthMonitor.record_error] *)
Definition record_error (hm : HealthMonitor) (agent_id : string)
  : HealthMonitor :=
  match Workflow.dict_get (agent_health hm) agent_id with
  | Some h =>
      set_health hm agent_id
        (mkHealth (last_heartbeat h) "degraded" (error_count h + 1)
           (success_count h))
  | None => hm
  end.

(** [HealthMonitor.record_success] *)
Definition record_success (hm : HealthMonitor) (agent_id : string)
  : HealthMonitor :=
  match Workflow.dict_get (agent_health hm) agent_id with
  | Some h =>
      set_health hm agent_id
        (mkHealth (last_heartbeat h) (h_status h) (error_count h)
           (success_count h + 1))
  | None => hm
  end.

(** [(now - metrics["last_heartbeat"]).total_seconds() > heartbeat_timeout] *)
Definition expired (timeout : Q) (now : Z) (h : Health) : bool :=
  negb (Qle_bool (inject_Z (now - last_heartbeat h) / 1000000) timeout).

(** [HealthMonitor.check_health]: the failed agents, and the monitor with
    their status set. *)
Definition check_health (hm : HealthMonitor) (now : Z)
  : list string * HealthMonitor :=
  (map fst
     (filter (fun kv => expired (heartbeat_timeout hm) now kv.2)
        (agent_health hm)),
   mkHealthMonitor (heartbeat_timeout hm)
     (map (fun kv =>
             if expired (heartbeat_timeout hm) now kv.2
             then (kv.1,
                   mkHealth (last_heartbeat kv.2) "failed" (error_count kv.2)
                     (success_count kv.2))
             else kv)
        (agent_health hm))).

(** [FailoverManager] *)
Record FailoverManager := mkFailoverManager {
  agent_backup_map : gmap string (list string)
}.

(** [FailoverManager.__init__] *)
Definition new_failover : FailoverManager := mkFailoverManager ∅.

(** [FailoverManager.register_backup] *)
Definition register_backup (fm : FailoverManager) (primary_agent backup_agent : string)
  : FailoverManager :=
  mkFailoverManager
    (<[primary_agent :=
         default [] (agent_backup_map fm !! primary_agent) ++ [backup_agent]]>
       (agent_backup_map fm)).

(** [FailoverManager.get_backup] *)
Definition get_backup (fm : FailoverManager) (agent_id : string)
  : option string :=
  head (default [] (agent_backup_map fm !! agent_id)).

(** [FailoverManager.execute_failover]: an empty backup id is falsy. *)
Definition execute_failover (fm : FailoverManager) (failed_agent : string)
  : option string :=
  match get_backup fm failed_agent with
  | Some backup => if bool_decide (backup = "") then None else Some backup
  | None => None
  end.

(** A run of [register_backup] calls. *)
Definition register_backups (fm : FailoverManager)
  (calls : list (string * string)) : FailoverManager :=
  foldl (fun fm pb => register_backup fm pb.1 pb.2) fm calls.

(** [BackupCoordinator] *)
Record BackupCoordinator := mkBackupCoordinator {
  backup_configurations : gmap string (gmap string pyval)
}.

(** [BackupCoordinator.__init__] *)
Definition new_backup_coordinator : BackupCoordinator := mkBackupCoordinator ∅.

(** [BackupCoordinator.create_backup_configuration]: the two literal keys
    come after [**config] and override it. *)
Definition create_backup_configuration (bc : BackupCoordinator)
  (config_id : string) (config : gmap string pyval) (now : Z)
  : BackupCoordinator :=
  mkBackupCoordinator
    (<[config_id :=
         <["status" := PStr "active"]> (<["created_at" := PTime now]> config)]>
       (backup_configurations bc)).

(** [BackupCoordinator.get_backup_configuration] *)
Definition get_backup_configuration (bc : BackupCoordinator)
  (config_id : string) : option (gmap string pyval) :=
  backup_configurations bc !! config_id.

(** The dictionary of [validate_redundancy]. *)
Record Redundancy := mkRedundancy {
  total_backup_configs : Z;
  active_configs : Z;
  redundancy_level : string
}.

(** [c["status"] == "active"] *)
Definition is_active (c : gmap string pyval) : bool :=
  match c !! "status" with
  | Some (PStr s) => bool_decide (s = "active")
  | _ => false
  end.

(** [BackupCoordinator.validate_redundancy]; the float [0.8] is idealised
    as the rational 4/5. *)
Definition validate_redundancy (bc : BackupCoordinator) : Redundancy :=
  let total := Z.of_nat (size (backup_configurations bc)) in
  let active :=
    Z.of_nat (size (filter (fun kc => is_active kc.2)
                      (backup_configurations bc))) in
  mkRedundancy total active
    (if Qle_bool (inject_Z total * (4 # 5)) (inject_Z active)
     then "high" else "low").

(** A run of [create_backup_configuration] calls. *)
Definition create_configurations (bc : BackupCoordinator)
  (calls : list (string * gmap string pyval * Z)) : BackupCoordinator :=
  foldl (fun bc c => create_backup_configuration bc c.1.1 c.1.2 c.2) bc calls.

End FaultToleranceExt.

(* ===================================================================== *)
(** * communication_protocol.py: the protocol handler *)
(* ===================================================================== *)

Module ProtocolExt.
Import Protocol.

(** A message that has the four required fields, a valid type, a valid
    priority if it has one, and a dictionary as payload. *)
Definition well_formed (message : gmap string pyval) : Prop :=
  (∀ f, f ∈ REQUIRED_FIELDS → is_Some (message !! f))
  ∧ (∃ s, message !! "type" = Some (PStr s) ∧ s ∈ VALID_MESSAGE_TYPES)
  ∧ (message !! "priority" = None
     ∨ ∃ s, message !! "priority" = Some (PStr s) ∧ s ∈ VALID_PRIORITIES)
  ∧ ∃ d, message !! "payload" = Some (PDict d).

(** [ProtocolHandler]; the serializer and the validator have no state. *)
Record ProtocolHandler := mkProtocolHandler {
  rate_limiter : RateLimiter;
  processed_count : Z;
  error_count : Z
}.

(** [ProtocolHandler.__init__]; [now] is the reading of [time.time()]. *)
Definition new_handler (rate_limit : pynum) (burst_capacity : Z) (now : float)
  : ProtocolHandler :=
  mkProtocolHandler (new_limiter rate_limit burst_capacity now) 0 0.

Section Handler.

(** [json.dumps(message, default=str)] *)
Variable dumps : gmap string pyval → outcome string.

(** [MessageSerializer.serialize] *)
Definition serialize (message : gmap string pyval) : outcome string :=
  match dumps message with
  | Return s => Return s
  | Raise _ e => Raise "ValueError" ("Serialization failed: " +:+ e)
  end.

(** The [try] body of [process_message] with the limiter it leaves. *)
Definition process_body (h : ProtocolHandler) (message : gmap string pyval)
  (now : float) : outcome string * RateLimiter :=
  match validate_message message with
  | Raise k e => (Raise k e, rate_limiter h)
  | Return _ =>
      match allow_message (rate_limiter h) now with
      | (Raise k e, l') => (Raise k e, l')
      | (Return true, l') => (serialize message, l')
      | (Return false, l') => (Raise "RuntimeError" "Rate limit exceeded", l')
      end
  end.

(** [ProtocolHandler.process_message] *)
Definition process_message (h : ProtocolHandler) (message : gmap string pyval)
  (now : float) : outcome string * ProtocolHandler :=
  match process_body h message now with
  | (Return s, l') =>
      (Return s, mkProtocolHandler l' (processed_count h + 1) (error_count h))
  | (Raise _ e, l') =>
      (Raise "ValueError" ("Message processing failed: " +:+ e),
       mkProtocolHandler l' (processed_count h) (error_count h + 1))
  end.

End Handler.

End ProtocolExt.

(* ===================================================================== *)
(** * Properties of the state machine *)
(* ===================================================================== *)

Module StateManagerProps.
Import StateManager.

Section Facts.

Context {PyObj Callable : Type} (truthy_obj : PyObj -> bool).

Abbreviation Machine := (StateMachine PyObj Callable).
Abbreviation Edge := (StateTransition PyObj Callable).

Lemma edge_enabled_accepts (c : Context PyObj) (t : Edge) :
  edge_enabled truthy_obj c t = true →
  guard_accepts c t = true ∧ clauses_accept c t = true.
Proof.
  unfold edge_enabled, guard_accepts, clauses_accept.
  intros [Hg Hc]%andb_prop. split; [|done].
  destruct (condition t); [|done].
  by apply andb_prop in Hg as [_ ?].
Qed.

Lemma select_transition_Some (m : Machine) c t :
  select_transition truthy_obj m c = Some t →
  t ∈ outgoing m ∧ edge_enabled truthy_obj c t = true.
Proof.
  unfold select_transition. intros H.
  apply find_some in H as [Hin He]. split; [|done].
  by apply list_elem_of_In.
Qed.

Lemma select_transition_None (m : Machine) c :
  (∀ t, t ∈ outgoing m →
        ¬ (guard_accepts c t = true ∧ clauses_accept c t = true)) →
  select_transition truthy_obj m c = None.
Proof.
  intros Hno. destruct (select_transition truthy_obj m c) as [t|] eqn:E; [|done].
  apply select_transition_Some in E as [Hin He].
  destruct (Hno t Hin). by apply edge_enabled_accepts.
Qed.

(** C7: when no outgoing edge of the current state has its guard (if any)
    and all its guard clauses accepting the context, [transition] returns
    [False], appends exactly one failure entry whose message is
    "No valid transition found", runs no handler, action or callback, and
    leaves every other field of the machine, the current state included,
    as it was. *)
Theorem transition_without_enabled_edge (m : Machine) eid now trig c usr :
  (∀ t, t ∈ outgoing m →
        ¬ (guard_accepts c t = true ∧ clauses_accept c t = true)) →
  transition truthy_obj m eid now trig c usr
  = (false, append_audit m (failure_entry m eid now trig usr), []).
Proof.
  intros Hno. unfold transition.
  by rewrite (select_transition_None m c Hno).
Qed.

(** ** The invariant on stored edges *)

Lemma edges_declared_new (init : string) :
  edges_declared (new_machine init : Machine).
Proof. intros s ts t H. simpl in H. by rewrite lookup_empty in H. Qed.

Lemma transition_fields (m : Machine) eid now trig c usr :
  let m' := (transition truthy_obj m eid now trig c usr).1.2 in
  states m' = states m ∧ transitions m' = transitions m.
Proof.
  unfold transition. by destruct (select_transition truthy_obj m c).
Qed.

Lemma edges_declared_step (m : Machine) (o : Op PyObj Callable) :
  edges_declared m → edges_declared (apply_op truthy_obj m o).
Proof.
  intros Hm. destruct o as [s ty|t|s h|s h|eid now trig c usr]; simpl.
  - intros s' ts t Hts Hin. simpl in *.
    destruct (Hm s' ts t Hts Hin) as (? & ? & ?).
    rewrite dom_insert_L. set_solver.
  - unfold add_transition. case_bool_decide as Hd; [done|].
    assert (Hf : from_state t ∈ dom (states m))
      by (apply dec_stable; intros ?; apply Hd; by left).
    assert (Ht : to_state t ∈ dom (states m))
      by (apply dec_stable; intros ?; apply Hd; by right).
    intros s' ts t' Hts Hin. simpl in *.
    destruct (decide (from_state t = s')) as [<-|Hne].
    + rewrite lookup_insert_eq in Hts. injection Hts as <-.
      apply elem_of_app in Hin as [Hin|Hin].
      * destruct (transitions m !! from_state t) as [old|] eqn:E;
          simpl in Hin; [|by apply elem_of_nil in Hin].
        exact (Hm _ _ _ E Hin).
      * apply list_elem_of_singleton in Hin as ->. done.
    + rewrite lookup_insert_ne in Hts by done. exact (Hm _ _ _ Hts Hin).
  - exact Hm.
  - exact Hm.
  - destruct (transition_fields m eid now trig c usr) as [Hs Ht].
    intros s' ts t. rewrite Hs, Ht. apply Hm.
Qed.

Lemma edges_declared_run (ops : list (Op PyObj Callable)) (m : Machine) :
  edges_declared m → edges_declared (run_ops truthy_obj ops m).
Proof.
  revert m. induction ops as [|o ops IH]; intros m Hm; [done|].
  simpl. apply IH. by apply edges_declared_step.
Qed.

Lemma outgoing_declared (m : Machine) t :
  edges_declared m → t ∈ outgoing m →
  from_state t = current_state m ∧ from_state t ∈ dom (states m)
  ∧ to_state t ∈ dom (states m).
Proof.
  unfold outgoing. intros Hm Hin.
  destruct (transitions m !! current_state m) as [ts|] eqn:E; simpl in Hin.
  - exact (Hm _ _ _ E Hin).
  - by apply elem_of_nil in Hin.
Qed.

Lemma transition_success (m : Machine) eid now trig c usr :
  (transition truthy_obj m eid now trig c usr).1.1 = true →
  ∃ t, select_transition truthy_obj m c = Some t
       ∧ current_state (transition truthy_obj m eid now trig c usr).1.2
         = to_state t.
Proof.
  unfold transition.
  destruct (select_transition truthy_obj m c) as [t|]; [|done].
  intros _. by exists t.
Qed.

Lemma declared_step (m : Machine) (o : Op PyObj Callable) :
  edges_declared m → declared m → declared (apply_op truthy_obj m o).
Proof.
  unfold declared.
  intros Hm Hd. destruct o as [s ty|t|s h|s h|eid now trig c usr]; simpl.
  - rewrite dom_insert_L. set_solver.
  - unfold add_transition. by case_bool_decide.
  - done.
  - done.
  - destruct (transition_fields m eid now trig c usr) as [Hs _].
    simpl in Hs. rewrite Hs.
    unfold transition.
    destruct (select_transition truthy_obj m c) as [t|] eqn:E; simpl; [|done].
    apply select_transition_Some in E as [Hin _].
    by destruct (outgoing_declared m t Hm Hin) as (_ & _ & ?).
Qed.

Lemma declared_run (ops : list (Op PyObj Callable)) (m : Machine) :
  edges_declared m → declared m → declared (run_ops truthy_obj ops m).
Proof.
  revert m. induction ops as [|o ops IH]; intros m Hm Hd; [done|].
  simpl. apply IH; [by apply edges_declared_step | by apply declared_step].
Qed.

(** C8 (amended): the constructor does not declare the initial state; once
    the current state of a machine is a declared state it remains a declared
    state after every further sequence of [define_state], [add_transition],
    handler registrations and [transition] calls, and a [transition] call
    returns [True] only when the current state has a stored outgoing edge,
    joining declared states, whose guard (if any) and guard clauses all
    accept the context; that edge's target becomes the current state. *)
Theorem declared_state_preserved (init : string)
  (pre ops : list (Op PyObj Callable)) :
  let m0 := run_ops truthy_obj pre (new_machine init) in
  let m := run_ops truthy_obj ops m0 in
  declared m0 →
  declared m
  ∧ ∀ eid now trig c usr,
      (transition truthy_obj m eid now trig c usr).1.1 = true →
      ∃ t, t ∈ outgoing m
           ∧ from_state t = current_state m
           ∧ from_state t ∈ dom (states m) ∧ to_state t ∈ dom (states m)
           ∧ guard_accepts c t = true ∧ clauses_accept c t = true
           ∧ current_state (transition truthy_obj m eid now trig c usr).1.2
             = to_state t.
Proof.
  intros m0 m Hd.
  assert (Hm0 : edges_declared m0)
    by (apply edges_declared_run, edges_declared_new).
  assert (Hm : edges_declared m) by by apply edges_declared_run.
  split; [by apply declared_run|].
  intros eid now trig c usr Hok.
  apply transition_success in Hok as (t & Hsel & Hcur).
  apply select_transition_Some in Hsel as [Hin Hen].
  destruct (outgoing_declared m t Hm Hin) as (Hf & Hfd & Htd).
  destruct (edge_enabled_accepts c t Hen) as [Hg Hc].
  by exists t.
Qed.

(** C9: from one machine state, with the same context, actor, entry id and
    clock, two calls of [transition] that differ only in the trigger select
    the same edge, return the same boolean, run the same callables and reach
    the same machine up to the [trigger] field of the single audit entry each
    of them appends. *)
Theorem transition_ignores_trigger (m : Machine) eid now t1 t2 c usr :
  let r1 := transition truthy_obj m eid now t1 c usr in
  let r2 := transition truthy_obj m eid now t2 c usr in
  r1.1.1 = r2.1.1
  ∧ r1.2 = r2.2
  ∧ current_state r1.1.2 = current_state r2.1.2
  ∧ states r1.1.2 = states r2.1.2
  ∧ transitions r1.1.2 = transitions r2.1.2
  ∧ callbacks r1.1.2 = callbacks r2.1.2
  ∧ state_entry_handlers r1.1.2 = state_entry_handlers r2.1.2
  ∧ state_exit_handlers r1.1.2 = state_exit_handlers r2.1.2
  ∧ ∃ e, audit_trail r1.1.2 = audit_trail m ++ [with_trigger t1 e]
         ∧ audit_trail r2.1.2 = audit_trail m ++ [with_trigger t2 e].
Proof.
  unfold transition.
  destruct (select_transition truthy_obj m c) as [t|]; simpl;
    repeat split; try done.
  - by exists (mkAuditEntry eid now (current_state m) (to_state t) "" usr true
                 None ∅).
  - by exists (failure_entry m eid now "" usr).
Qed.

End Facts.

(** The first ["start"] succeeds and moves the machine to RUNNING. *)
Example first_start_succeeds :
  (transition no_truth three_state_machine "e1" 1 "start" None "system").1.1
    = true
  ∧ current_state after_first_start = "RUNNING"
  ∧ map StateManager.success (audit_trail after_first_start) = [true].
Proof. by vm_compute. Qed.

(** The second ["start"] finds no edge: the result is [False], the state
    stays RUNNING and the trail holds one success and one failure. *)
Lemma transition_without_enabled_edge_witness :
  transition no_truth after_first_start "e2" 2 "start" None "system"
  = (false,
     append_audit after_first_start
       (failure_entry after_first_start "e2" 2 "start" "system"),
     [])
  ∧ current_state after_first_start = "RUNNING"
  ∧ map StateManager.success
      (audit_trail
         (append_audit after_first_start
            (failure_entry after_first_start "e2" 2 "start" "system")))
    = [true; false].
Proof.
  split; [|by vm_compute].
  apply (transition_without_enabled_edge no_truth after_first_start
           "e2" 2 "start" None "system").
  assert (Hout : outgoing after_first_start = []) by (by vm_compute).
  intros t Ht. rewrite Hout in Ht. by apply elem_of_nil in Ht.
Defined.

(** A machine fresh from its constructor has a current state that was never
    declared. *)
Lemma fresh_machine_undeclared :
  ¬ declared (run_ops no_truth [] (new_machine "INITIAL")
              : StateMachine unit string).
Proof. unfold declared. simpl. rewrite dom_empty_L. set_solver. Qed.

Lemma declared_state_preserved_witness :
  declared
    (run_ops no_truth
       [OpTransition "e1" 1 "start" None "system";
        OpTransition "e2" 2 "start" None "system"]
       (run_ops no_truth three_state_ops (new_machine "INITIAL"))).
Proof.
  refine (proj1 (declared_state_preserved no_truth "INITIAL" three_state_ops
                   [OpTransition "e1" 1 "start" None "system";
                    OpTransition "e2" 2 "start" None "system"] _)).
  unfold declared. by apply (bool_decide_unpack _).
Defined.

End StateManagerProps.

(* ===================================================================== *)
(** * Properties of the agent pool *)
(* ===================================================================== *)

Module OrchestratorProps.
Import Orchestrator.

Lemma register_agent_accepts (p : AgentPool) a caps now :
  (Z.of_nat (size (agents p)) < max_agents p)%Z →
  (register_agent p a caps now).1 = true
  ∧ agents (register_agent p a caps now).2
    = <[a := mkAgentInfo a caps "idle" None 0 now]> (agents p).
Proof.
  intros H. unfold register_agent.
  destruct (Z.leb_spec (max_agents p) (Z.of_nat (size (agents p)))); [lia|done].
Qed.

(** C5 (amended): on a fresh pool with room for at least one agent, the first
    registration succeeds; registering the same id again leaves the pool
    size at 1, and the second call returns [True] exactly when
    [max_agents > 1]: the only test is the capacity test, an id that is
    already present is overwritten. *)
Theorem register_same_id_twice (pname : string) (max : Z) (a : string)
  (caps1 caps2 : list string) (now1 now2 : Z) :
  (0 < max)%Z →
  let r1 := register_agent (new_pool pname max) a caps1 now1 in
  let r2 := register_agent r1.2 a caps2 now2 in
  r1.1 = true
  ∧ get_pool_size r1.2 = 1%Z
  ∧ r2.1 = bool_decide (1 < max)%Z
  ∧ get_pool_size r2.2 = 1%Z.
Proof.
  intros Hmax r1 r2.
  assert (Hr1 : r1 = (true, mkAgentPool pname max
                             {[a := mkAgentInfo a caps1 "idle" None 0%Z now1]})).
  { subst r1. unfold register_agent, new_pool. simpl.
    rewrite map_size_empty.
    destruct (Z.leb_spec max (Z.of_nat 0)); [lia|]. by rewrite insert_empty. }
  subst r2. rewrite Hr1. unfold register_agent, get_pool_size. simpl.
  rewrite map_size_singleton.
  destruct (Z.leb_spec max (Z.of_nat 1)) as [Hle|Hlt]; simpl.
  - rewrite map_size_singleton. repeat split; try done.
    symmetry. apply bool_decide_eq_false. lia.
  - rewrite insert_singleton_eq, map_size_singleton. repeat split; try done.
    symmetry. apply bool_decide_eq_true. lia.
Qed.

Lemma register_same_id_twice_witness :
  (register_agent (new_pool "test_pool" 10) "agent1" ["capability1"] 0).1
  = true
  ∧ get_pool_size
      (register_agent (new_pool "test_pool" 10) "agent1" ["capability1"] 0).2
    = 1%Z
  ∧ (register_agent
       (register_agent (new_pool "test_pool" 10) "agent1" ["capability1"] 0).2
       "agent1" ["capability1"] 1).1
    = bool_decide (1 < 10)%Z
  ∧ get_pool_size
      (register_agent
         (register_agent (new_pool "test_pool" 10) "agent1" ["capability1"] 0).2
         "agent1" ["capability1"] 1).2
    = 1%Z.
Proof.
  apply (register_same_id_twice "test_pool" 10 "agent1"
           ["capability1"] ["capability1"] 0 1).
  lia.
Defined.

(** With the default capacity the second registration of ["agent1"] is
    accepted. *)
Lemma second_registration_accepted :
  ¬ ((register_agent
        (register_agent (new_pool "test_pool" 100) "agent1" ["capability1"] 0).2
        "agent1" ["capability1"] 1).1 = false
     ∧ get_pool_size
         (register_agent
            (register_agent (new_pool "test_pool" 100) "agent1"
               ["capability1"] 0).2
            "agent1" ["capability1"] 1).2 = 1%Z).
Proof. intros [H _]. by vm_compute in H. Qed.

End OrchestratorProps.

(* ===================================================================== *)
(** * Properties of error recovery *)
(* ===================================================================== *)

Module FaultToleranceProps.
Import FaultTolerance.

(** C6 (what the code does): [attempt_recovery] appends exactly one entry,
    with success flag [True], for RESTART, REASSIGN and FAILOVER, and returns
    [True]; for MANUAL it returns [False] and appends nothing. *)
Theorem attempt_recovery_log (er : ErrorRecovery) (agent : string)
  (s : RecoveryStrategy) (c : RecoveryContext) (now : Z) :
  let r := attempt_recovery er agent s c now in
  r.1 = negb (is_manual s)
  ∧ recovery_history r.2
    = recovery_history er
      ++ (if is_manual s then []
          else [mkRecoveryEntry agent (strategy_value s) true None now]).
Proof. destruct s; simpl; by rewrite ?app_nil_r. Qed.

(** The MANUAL attempt on a fresh recovery object leaves the history empty. *)
Example manual_attempt_not_logged :
  attempt_recovery new_recovery "agent1" MANUAL ∅ 0 = (false, new_recovery).
Proof. reflexivity. Qed.

End FaultToleranceProps.

(* ===================================================================== *)
(** * Properties of message validation and sending *)
(* ===================================================================== *)

Module BrokerProps.
Import Protocol Broker.

(** Every [Message] object, once rendered by [to_dict], passes
    [validate_message]: the schema cannot fail for a typed message. *)
Lemma validate_to_dict (m : Message) :
  validate_message (to_dict m) = Return true.
Proof.
  unfold validate_message.
  assert (Hdom : forallb (fun f => bool_decide (f ∈ dom (to_dict m)))
                   REQUIRED_FIELDS = true).
  { unfold to_dict, REQUIRED_FIELDS. simpl.
    rewrite !dom_insert_L.
    rewrite !andb_true_iff. repeat split; try done;
      apply bool_decide_eq_true; set_solver. }
  rewrite Hdom. simpl.
  unfold to_dict. simplify_map_eq. simpl.
  destruct (message_type m), (priority m); by vm_compute.
Qed.




Lemma get_or_create_queue_spec (b : MessageBroker) agent :
  let r := _get_or_create_queue b agent in
  r.1 = mailbox b agent
  ∧ message_queues r.2 = <[agent := mailbox b agent]> (message_queues b)
  ∧ dead_letter_queue r.2 = dead_letter_queue b
  ∧ message_history r.2 = message_history b
  ∧ max_history r.2 = max_history b
  ∧ max_queue_size r.2 = max_queue_size b.
Proof.
  unfold _get_or_create_queue, mailbox.
  destruct (message_queues b !! agent) as [q|] eqn:E; simpl; [|done].
  repeat split; try done. by rewrite insert_id.
Qed.



End BrokerProps.

(* ===================================================================== *)
(** * Properties of the workflow engine *)
(* ===================================================================== *)

Module WorkflowProps.
Import Workflow.

(** ** Dictionaries *)

Section DictFacts.
Context {V : Type}.
Implicit Types d : list (string * V).

Lemma dict_get_Some_elem d k v : dict_get d k = Some v → (k, v) ∈ d.
Proof.
  induction d as [|[k' v'] d IH]; simpl; [done|].
  case_bool_decide as E.
  - intros [= ->]. subst. by left.
  - intros Hg. right. by apply IH.
Qed.

Lemma dict_get_is_Some d k : is_Some (dict_get d k) ↔ k ∈ dict_keys d.
Proof.
  induction d as [|[k' v'] d IH]; simpl.
  - split; [by intros [? ?]|by intros ?%elem_of_nil].
  - case_bool_decide as E.
    + subst. split; [intros _; by left|by eauto].
    + rewrite IH. unfold dict_keys. simpl. rewrite elem_of_cons. naive_solver.
Qed.

Lemma dict_get_None d k : dict_get d k = None ↔ k ∉ dict_keys d.
Proof.
  rewrite <- dict_get_is_Some, eq_None_not_Some. done.
Qed.

Lemma dict_get_app d1 d2 k :
  dict_get (d1 ++ d2) k
  = match dict_get d1 k with Some v => Some v | None => dict_get d2 k end.
Proof.
  induction d1 as [|[k' v'] d1 IH]; simpl; [done|].
  by case_bool_decide.
Qed.

Lemma dict_set_absent d k v : dict_get d k = None → dict_set d k v = d ++ [(k, v)].
Proof.
  induction d as [|[k' v'] d IH]; simpl; [done|].
  case_bool_decide; [done|]. intros Hg. by rewrite IH.
Qed.

End DictFacts.

Section Facts.

Variable iter : gset string -> list string.
Hypothesis iter_spec : ∀ s x, x ∈ iter s ↔ x ∈ s.

(** ** The graph built by [build_graph] *)

Lemma graph_get_add g k x t :
  graph_get (graph_add g k x) t
  = if decide (k = t) then {[x]} ∪ graph_get g t else graph_get g t.
Proof.
  unfold graph_get, graph_add. case_decide as E.
  - subst. by rewrite lookup_insert_eq.
  - by rewrite lookup_insert_ne.
Qed.

Lemma add_edges_get r tid deps t d :
  d ∈ graph_get (dependency_graph (add_edges r tid deps)) t
  ↔ d ∈ graph_get (dependency_graph r) t ∨ (t = tid ∧ d ∈ deps).
Proof.
  unfold add_edges. revert r.
  induction deps as [|x deps IH]; intros r; simpl.
  - rewrite elem_of_nil. naive_solver.
  - rewrite IH. simpl. rewrite graph_get_add, elem_of_cons.
    case_decide; set_solver.
Qed.

Lemma fill_graphs_from r ts t d :
  d ∈ graph_get
        (dependency_graph
           (fold_left (fun r kv => add_edges r kv.1 (iter (dependencies kv.2)))
              ts r)) t
  ↔ d ∈ graph_get (dependency_graph r) t
    ∨ ∃ task, (t, task) ∈ ts ∧ d ∈ dependencies task.
Proof.
  revert r. induction ts as [|[k task] ts IH]; intros r; simpl.
  - setoid_rewrite elem_of_nil. naive_solver.
  - rewrite IH, add_edges_get. simpl. rewrite iter_spec.
    setoid_rewrite elem_of_cons. split.
    + intros [[?|[-> ?]]|(task' & ? & ?)]; [by left|right..].
      * exists task. by split; [left|].
      * exists task'. by split; [right|].
    + intros [?|(task' & [[= -> ->]|?] & ?)].
      * by left; left.
      * left. right. done.
      * right. by exists task'.
Qed.

(** The recorded dependencies are the declared ones. *)
Lemma fill_graphs_edge (w : Workflow) t d :
  gedge (dependency_graph (fill_graphs iter (tasks w))) t d ↔ edge w t d.
Proof.
  unfold gedge, fill_graphs, edge. rewrite fill_graphs_from.
  unfold new_resolver, graph_get. simpl. rewrite lookup_empty. simpl.
  set_solver.
Qed.

Lemma edge_source_is_task (w : Workflow) t d :
  edge w t d → t ∈ dict_keys (tasks w).
Proof.
  intros (task & Hin & _). unfold dict_keys.
  apply list_elem_of_fmap. by exists (t, task).
Qed.

Lemma gedge_in_nodes g t d : gedge g t d → d ∈ graph_nodes g.
Proof.
  unfold gedge, graph_get, graph_nodes. intros H.
  destruct (g !! t) as [ds|] eqn:E; simpl in H; [|set_solver].
  apply elem_of_union_r, elem_of_union_list. exists ds. split; [|done].
  apply list_elem_of_fmap. exists (t, ds). split; [done|].
  by apply elem_of_map_to_list.
Qed.

(** ** Ranks and cycles *)

Section Graph.

Variable g : gmap string (gset string).
Abbreviation E := (gedge g).
Abbreviation black_ranked := (Workflow.black_ranked g).
Abbreviation dfs_pre := (Workflow.dfs_pre g).
Abbreviation dfs_post := (Workflow.dfs_post g).

Lemma ranked_mono n m x : ranked g n x → n ≤ m → ranked g m x.
Proof.
  revert m x. induction n as [|n IH]; intros m x; simpl; [done|].
  intros Hx Hle. destruct m as [|m]; [lia|]. simpl.
  intros y Hy. apply (IH m y); [by apply Hx|lia].
Qed.

Lemma ranked_list (l : list string) :
  (∀ y, y ∈ l → ∃ n, ranked g n y) → ∃ n, ∀ y, y ∈ l → ranked g n y.
Proof.
  induction l as [|x l IH]; intros H.
  - exists 0. by intros y ?%elem_of_nil.
  - destruct (H x) as [n Hn]; [by left|].
    destruct IH as [m Hm]; [intros y Hy; apply H; by right|].
    exists (n `max` m). intros y [->|Hy]%elem_of_cons.
    + apply (ranked_mono n); [done|lia].
    + apply (ranked_mono m); [by apply Hm|lia].
Qed.

Lemma ranked_successors x :
  (∀ y, E x y → ∃ n, ranked g n y) → ∃ n, ranked g n x.
Proof.
  intros H.
  destruct (ranked_list (elements (graph_get g x))) as [n Hn].
  { intros y Hy. apply H. unfold gedge. by apply elem_of_elements. }
  exists (S n). simpl. intros y Hy. apply Hn. by apply elem_of_elements.
Qed.

Lemma ranked_tc n x y : ranked g n x → tc E x y → ∃ m, m < n ∧ ranked g m y.
Proof.
  intros Hr Htc. revert n Hr.
  induction Htc as [x y Hxy|x z y Hxz _ IH]; intros n Hr.
  - destruct n as [|n]; [done|]. exists n. split; [lia|]. by apply Hr.
  - destruct n as [|n]; [done|].
    destruct (IH n) as (m & Hm & Hy); [by apply Hr|].
    exists m. split; [lia|done].
Qed.

Lemma ranked_no_cycle n x : ranked g n x → ¬ tc E x x.
Proof.
  revert x. induction (lt_wf n) as [n _ IH]. intros x Hr Htc.
  destruct (ranked_tc n x x Hr Htc) as (m & Hm & Hx).
  exact (IH m Hm x Hx Htc).
Qed.

Lemma reaches_cycle_step x :
  reaches_cycle g x → ∃ y, E x y ∧ reaches_cycle g y.
Proof.
  intros (c & Hxc & Hc).
  destruct Hxc as [x|x y c Hxy Hyc].
  - inversion Hc as [? ? Hxy|? y ? Hxy Hyx]; subst.
    + exists x. split; [done|]. by exists x.
    + exists y. split; [done|]. exists x. split; [by apply tc_rtc|done].
  - exists y. split; [done|]. by exists c.
Qed.

(** ** The depth-first search of [_has_cycle] *)

Lemma dfs_loop_spec call node :
  (∀ nb st b st', call nb st = Some (b, st') → dfs_pre nb st →
                  dfs_post nb st b st') →
  ∀ nbrs st b st',
    dfs_loop call nbrs st = Some (b, st') →
    (∀ nb, nb ∈ nbrs → E node nb) →
    rec_stack st ⊆ visited st →
    (∀ r, r ∈ rec_stack st → rtc E r node) →
    black_ranked st →
    if b then (∃ x, tc E x x)
    else (visited st ⊆ visited st' ∧ rec_stack st' = rec_stack st
          ∧ (∀ nb, nb ∈ nbrs → nb ∈ visited st' ∧ nb ∉ rec_stack st')
          ∧ black_ranked st').
Proof.
  intros Hcall nbrs. induction nbrs as [|nb rest IH];
    intros st b st' Hrun Hnb Hsub Hreach Hblack; simpl in Hrun.
  - injection Hrun as <- <-. split; [done|]. split; [done|]. split; [|done].
    by intros nb ?%elem_of_nil.
  - assert (Hedge : E node nb) by (apply Hnb; by left).
    assert (Hrest : ∀ nb', nb' ∈ rest → E node nb')
      by (intros nb' ?; apply Hnb; by right).
    case_bool_decide as Hvis.
    + destruct (call nb st) as [[b1 st1]|] eqn:Ecall; [|done].
      assert (Hpost : dfs_post nb st b1 st1).
      { apply Hcall; [done|]. split; [done|]. split; [done|]. split; [|done].
        intros r Hr. eapply tc_rtc_l; [by apply Hreach|by apply tc_once]. }
      destruct b1.
      * injection Hrun as <- <-. exact Hpost.
      * destruct Hpost as (Hv1 & Hr1 & Hin1 & Hb1).
        specialize (IH st1 b st' Hrun Hrest).
        rewrite Hr1 in IH.
        destruct b.
        -- apply IH; [set_solver|done|done].
        -- destruct IH as (Hv & Hr & Hall & Hb); [set_solver|done|done|].
           split; [set_solver|]. split; [done|]. split; [|done].
           intros nb' [->|Hin]%elem_of_cons; [|by apply Hall].
           split; [set_solver|]. rewrite Hr. set_solver.
    + case_bool_decide as Hstack.
      * injection Hrun as <- <-. exists nb.
        eapply tc_rtc_l; [by apply Hreach|by apply tc_once].
      * specialize (IH st b st' Hrun Hrest Hsub Hreach Hblack).
        destruct b; [done|].
        destruct IH as (Hv & Hr & Hall & Hb).
        split; [done|]. split; [done|]. split; [|done].
        intros nb' [->|Hin]%elem_of_cons; [|by apply Hall].
        split; [set_solver|]. by rewrite Hr.
Qed.

Lemma dfs_spec fuel node st b st' :
  dfs iter g fuel node st = Some (b, st') → dfs_pre node st →
  dfs_post node st b st'.
Proof.
  revert node st b st'. induction fuel as [|fuel IH];
    intros node st b st' Hrun (Hfresh & Hsub & Hreach & Hblack); [done|].
  simpl in Hrun.
  set (st1 := mkDfs ({[node]} ∪ visited st) ({[node]} ∪ rec_stack st)) in *.
  destruct (dfs_loop (dfs iter g fuel) (iter (graph_get g node)) st1)
    as [[b2 st2]|] eqn:Eloop; [|done].
  assert (Hfresh' : node ∉ rec_stack st) by set_solver.
  assert (Hloop :
    if b2 then (∃ x, tc E x x)
    else (visited st1 ⊆ visited st2 ∧ rec_stack st2 = rec_stack st1
          ∧ (∀ nb, nb ∈ iter (graph_get g node) →
                   nb ∈ visited st2 ∧ nb ∉ rec_stack st2)
          ∧ black_ranked st2)).
  { apply (dfs_loop_spec (dfs iter g fuel) node IH _ st1 b2 st2 Eloop).
    - intros nb Hnb. by apply iter_spec in Hnb.
    - subst st1. simpl. set_solver.
    - subst st1. simpl. intros r [->%elem_of_singleton|Hr]%elem_of_union.
      + apply rtc_refl.
      + by apply tc_rtc, Hreach.
    - intros x Hx Hnx. apply Hblack; subst st1; simpl in *; set_solver. }
  destruct b2.
  - injection Hrun as <- <-. exact Hloop.
  - injection Hrun as <- <-.
    destruct Hloop as (Hv & Hr & Hall & Hb). subst st1. simpl in *.
    split; [set_solver|]. split; [rewrite Hr; set_solver|].
    split; [set_solver|].
    intros x Hx Hnx. simpl in *.
    destruct (decide (x = node)) as [->|Hne].
    + apply ranked_successors. intros y Hy.
      destruct (Hall y) as [Hyv Hyr]; [by apply iter_spec|].
      by apply Hb.
    + apply Hb; [done|]. rewrite Hr. set_solver.
Qed.

(** The recursion of [dfs] returns when it is given one level per string
    that is not yet visited. *)
Lemma dfs_total (U : gset string) :
  (∀ t d, E t d → d ∈ U) →
  ∀ fuel node st,
    node ∈ U → node ∉ visited st → size (U ∖ visited st) ≤ fuel →
    ∃ b st', dfs iter g fuel node st = Some (b, st')
             ∧ visited st ⊆ visited st'.
Proof.
  intros HU fuel. induction fuel as [|fuel IH]; intros node st Hin Hfresh Hsz.
  - assert (size (U ∖ visited st) ≠ 0); [|lia].
    apply size_non_empty_iff. intros Hem. set_solver.
  - simpl.
    set (st1 := mkDfs ({[node]} ∪ visited st) ({[node]} ∪ rec_stack st)).
    assert (Hsz1 : size (U ∖ visited st1) ≤ fuel).
    { assert (size (U ∖ visited st1) < size (U ∖ visited st)); [|lia].
      apply subset_size. subst st1. simpl. set_solver. }
    assert (Hloop : ∀ nbrs st0,
      (∀ nb, nb ∈ nbrs → nb ∈ U) → size (U ∖ visited st0) ≤ fuel →
      ∃ b st', dfs_loop (dfs iter g fuel) nbrs st0 = Some (b, st')
               ∧ visited st0 ⊆ visited st').
    { induction nbrs as [|nb rest IHl]; intros st0 Hnbrs Hsz0; simpl.
      - by exists false, st0.
      - case_bool_decide as Hvis.
        + destruct (IH nb st0) as (b1 & st1' & -> & Hsub1);
            [apply Hnbrs; by left|done|done|].
          destruct b1; [by exists true, st1'|].
          destruct (IHl st1') as (b & st' & -> & Hsub');
            [intros ? ?; apply Hnbrs; by right| |].
          * etrans; [|exact Hsz0]. apply subseteq_size. set_solver.
          * exists b, st'. split; [done|set_solver].
        + case_bool_decide; [by exists true, st0|].
          apply IHl; [intros ? ?; apply Hnbrs; by right|done]. }
    destruct (Hloop (iter (graph_get g node)) st1) as (b & st' & -> & Hsub);
      [|done|].
    { intros nb Hnb. apply (HU node). by apply iter_spec in Hnb. }
    destruct b.
    + exists true, st'. split; [done|]. subst st1. simpl in *. set_solver.
    + eexists false, _. split; [done|]. subst st1. simpl in *. set_solver.
Qed.

(** ** [_has_cycle] *)

Lemma has_cycle_loop_spec fuel ids st r :
  has_cycle_loop iter g fuel ids st = Some r →
  rec_stack st = ∅ → black_ranked st →
  if r then (∃ x, tc E x x)
  else (∀ t, t ∈ ids → ∃ n, ranked g n t).
Proof.
  revert st. induction ids as [|tid rest IH]; intros st Hrun Hst Hblack;
    simpl in Hrun.
  - injection Hrun as <-. by intros t ?%elem_of_nil.
  - case_bool_decide as Hvis.
    + destruct (dfs iter g fuel tid st) as [[b st']|] eqn:Edfs; [|done].
      assert (Hpost : dfs_post tid st b st').
      { apply (dfs_spec fuel); [done|].
        split; [done|]. rewrite Hst. split; [set_solver|].
        split; [set_solver|done]. }
      destruct b.
      * injection Hrun as <-. exact Hpost.
      * destruct Hpost as (Hv & Hr & Hin & Hb).
        specialize (IH st' Hrun). rewrite Hr in IH.
        specialize (IH Hst Hb). destruct r; [done|].
        intros t [->|Ht]%elem_of_cons; [|by apply IH].
        apply Hb; [done|]. rewrite Hr, Hst. set_solver.
    + specialize (IH st Hrun Hst Hblack). destruct r; [done|].
      intros t [->|Ht]%elem_of_cons; [|by apply IH].
      apply Hblack; [done|]. rewrite Hst. set_solver.
Qed.

Lemma has_cycle_loop_total (U : gset string) ids st :
  (∀ t d, E t d → d ∈ U) → (∀ t, t ∈ ids → t ∈ U) →
  ∃ r, has_cycle_loop iter g (S (size U)) ids st = Some r.
Proof.
  intros HU. revert st. induction ids as [|tid rest IH]; intros st Hids.
  - by exists false.
  - cbn [has_cycle_loop]. case_bool_decide as Hvis.
    + destruct (dfs_total U HU (S (size U)) tid st) as (b & st' & -> & _);
        [apply Hids; by left|done| |].
      * assert (size (U ∖ visited st) ≤ size U)
          by (apply subseteq_size; set_solver).
        lia.
      * destruct b; [by exists true|].
        apply IH. intros ? ?. apply Hids. by right.
    + apply IH. intros ? ?. apply Hids. by right.
Qed.

End Graph.

(** ** Validation *)

Lemma tc_edge_gedge (w : Workflow) x y :
  tc (edge w) x y
  ↔ tc (gedge (dependency_graph (fill_graphs iter (tasks w)))) x y.
Proof.
  split; apply (tc_congruence id); intros ? ?; apply fill_graphs_edge.
Qed.

(** On the graph it has just built, [_has_cycle] returns, and it returns
    [False] exactly for acyclic workflows; then every task has a rank. *)
Lemma has_cycle_correct (w : Workflow) :
  let g := dependency_graph (fill_graphs iter (tasks w)) in
  ∃ b, _has_cycle iter (fill_graphs iter (tasks w)) w = Some b
       ∧ (b = false ↔ acyclic w)
       ∧ (b = false → ∀ t, t ∈ dict_keys (tasks w) → ∃ n, ranked g n t).
Proof.
  intros g. unfold _has_cycle. fold g.
  set (ids := dict_keys (tasks w)).
  set (U := graph_nodes g ∪ list_to_set ids).
  destruct (has_cycle_loop_total g U ids (mkDfs ∅ ∅)) as [b Hb].
  { intros t d Htd. apply elem_of_union_l. by eapply gedge_in_nodes. }
  { intros t Ht. apply elem_of_union_r. by apply elem_of_list_to_set. }
  exists b. split; [done|].
  pose proof (has_cycle_loop_spec g _ ids (mkDfs ∅ ∅) b Hb eq_refl) as Hspec.
  assert (Hblack : black_ranked g (mkDfs ∅ ∅))
    by (intros x Hx; simpl in Hx; set_solver).
  specialize (Hspec Hblack). destruct b.
  - split; [|done]. split; [done|]. intros Hac.
    destruct Hspec as [x Hx]. destruct (Hac x). by apply tc_edge_gedge.
  - split; [|done]. split; [|done]. intros _ t Ht.
    assert (Hin : t ∈ ids).
    { inversion Ht as [? ? Htd|? y ? Htd _]; subst;
        by apply (edge_source_is_task w t _ Htd). }
    destruct (Hspec t Hin) as [n Hn].
    apply (ranked_no_cycle g n t Hn). by apply tc_edge_gedge.
Qed.

Lemma deps_exist_closed (w : Workflow) :
  deps_exist iter (tasks w) = true ↔ deps_closed w.
Proof.
  unfold deps_exist, deps_closed, edge. rewrite forallb_forall. split.
  - intros H t d (task & Hin & Hd).
    apply list_elem_of_In in Hin. specialize (H _ Hin). simpl in H.
    rewrite forallb_forall in H.
    apply iter_spec, list_elem_of_In in Hd.
    specialize (H d Hd). by apply bool_decide_eq_true in H.
  - intros H [t task] Hin. simpl. apply forallb_forall. intros d Hd.
    apply bool_decide_eq_true. apply (H t d). exists task.
    split; [by apply list_elem_of_In|]. by apply iter_spec, list_elem_of_In.
Qed.

(** C3: [validate_workflow] returns, and returns [True] exactly when the
    workflow has at least one task, its dependency relation is acyclic and
    every referenced dependency id is the id of one of its tasks; when it
    returns [False], [get_execution_plan] yields no plan and leaves every
    task as it was (nothing is scheduled). *)
Theorem validate_workflow_correct (r : DependencyResolver) (w : Workflow) :
  ∃ b, (validate_workflow iter r w).1 = Some b
       ∧ (b = true ↔ tasks w ≠ [] ∧ acyclic w ∧ deps_closed w)
       ∧ (b = false →
          get_execution_plan iter r w
          = (Some None, (validate_workflow iter r w).2, w)).
Proof.
  unfold get_execution_plan, validate_workflow.
  destruct (tasks w) as [|kv ts] eqn:Ets.
  - exists false. split; [done|]. split; [|done]. split; [done|].
    by intros [? _].
  - rewrite <- Ets. unfold build_graph.
    destruct (has_cycle_correct w) as (c & -> & Hac & _). simpl.
    destruct c; simpl.
    + exists false. split; [done|]. split; [|done]. split; [done|].
      intros (_ & Ha & _). by apply Hac in Ha.
    + exists (deps_exist iter (tasks w)). split; [done|]. split.
      * rewrite deps_exist_closed. split.
        -- intros Hd. split; [by rewrite Ets|]. split; [by apply Hac|done].
        -- by intros (_ & _ & ?).
      * by intros ->.
Qed.

(** ** The memoised recursion [calculate_length] *)

Lemma max_list_with_ge {A} (f : A → nat) (l : list A) x :
  x ∈ l → f x ≤ max_list_with f l.
Proof.
  induction l as [|y l IH]; [by intros ?%elem_of_nil|].
  intros [->|Hx]%elem_of_cons; simpl; [lia|]. specialize (IH Hx). lia.
Qed.

Lemma max_list_with_le {A} (f : A → nat) (l : list A) m :
  (∀ x, x ∈ l → f x ≤ m) → max_list_with f l ≤ m.
Proof.
  induction l as [|y l IH]; intros H; simpl; [lia|].
  assert (f y ≤ m) by (apply H; by left).
  assert (max_list_with f l ≤ m) by (apply IH; intros ? ?; apply H; by right).
  lia.
Qed.

Lemma max_list_with_attained {A} (f : A → nat) (l : list A) :
  l ≠ [] → ∃ x, x ∈ l ∧ f x = max_list_with f l.
Proof.
  induction l as [|y l IH]; [done|]. intros _. simpl.
  destruct l as [|z l].
  - exists y. split; [by left|]. simpl. lia.
  - destruct IH as (x & Hx & Hfx); [done|].
    destruct (Nat.max_spec (f y) (max_list_with f (z :: l))) as [[? ->]|[? ->]].
    + exists x. split; [by right|done].
    + exists y. split; [by left|done].
Qed.

Lemma max_list_with_same {A} (f f' : A → nat) (l l' : list A) :
  (∀ x, x ∈ l ↔ x ∈ l') → (∀ x, x ∈ l → f x = f' x) →
  max_list_with f l = max_list_with f' l'.
Proof.
  intros Hl Hf. apply Nat.le_antisymm; apply max_list_with_le; intros x Hx.
  - rewrite Hf by done. apply max_list_with_ge. by apply Hl.
  - apply Hl in Hx as Hx'. rewrite <- Hf by done. by apply max_list_with_ge.
Qed.

Section Lengths.

Variable g : gmap string (gset string).
Abbreviation E := (gedge g).
Abbreviation consistent := (Workflow.consistent g).
Abbreviation calc_post := (Workflow.calc_post g).
Abbreviation memo := (list (string * nat)).

Lemma calculate_length_total fuel t pl :
  ranked g fuel t → ∃ n pl', calculate_length iter g fuel t pl = Some (n, pl').
Proof.
  revert t pl. induction fuel as [|fuel IH]; intros t pl Hr; [done|].
  simpl. destruct (dict_get pl t) as [n|]; [by eauto|].
  assert (Hloop : ∀ l acc pl0, (∀ d, d ∈ l → E t d) →
    ∃ mx pl', max_dep_loop (calculate_length iter g fuel) l acc pl0
              = Some (mx, pl')).
  { induction l as [|d l IHl]; intros acc pl0 Hl; simpl; [by eauto|].
    destruct (IH d pl0) as (n & pl1 & ->); [apply Hr, Hl; by left|].
    apply IHl. intros ? ?. apply Hl. by right. }
  destruct (Hloop (iter (graph_get g t)) 0 pl) as (mx & pl' & ->); [|by eauto].
  intros d Hd. by apply iter_spec in Hd.
Qed.

Lemma lengths_loop_total fuel ids pl :
  (∀ t, t ∈ ids → ranked g fuel t) →
  ∃ pl', lengths_loop iter g fuel ids pl = Some pl'.
Proof.
  revert pl. induction ids as [|t ids IH]; intros pl Hids; simpl; [by eauto|].
  destruct (calculate_length_total fuel t pl) as (n & pl1 & ->);
    [apply Hids; by left|].
  apply IH. intros ? ?. apply Hids. by right.
Qed.

Lemma recorded_app pl ext d :
  d ∈ dict_keys pl → recorded (pl ++ ext) d = recorded pl d.
Proof.
  intros Hd. unfold recorded. rewrite dict_get_app.
  apply dict_get_is_Some in Hd as [v ->]. done.
Qed.

Lemma dict_keys_app (pl ext : memo) :
  dict_keys (pl ++ ext) = dict_keys pl ++ dict_keys ext.
Proof. unfold dict_keys. by rewrite map_app. Qed.

Lemma consistent_app pl ext t n :
  consistent pl → dict_get pl t = Some n →
  (∀ d, E t d → d ∈ dict_keys (pl ++ ext))
  ∧ n = S (max_over (pl ++ ext) (graph_get g t)).
Proof.
  intros Hc Ht. destruct (Hc t n Ht) as [Hdeps ->]. split.
  - intros d Hd. rewrite dict_keys_app. apply elem_of_app. left. by apply Hdeps.
  - f_equal. unfold max_over. apply max_list_with_same; [done|].
    intros d Hd. symmetry. apply recorded_app, Hdeps.
    unfold gedge. by apply elem_of_elements.
Qed.

Hypothesis no_cycle : ∀ x, ¬ tc E x x.

Lemma max_dep_loop_spec call t :
  (∀ d pl n pl', call d pl = Some (n, pl') → consistent pl →
                 calc_post d pl n pl') →
  ∀ l acc pl mx pl',
    max_dep_loop call l acc pl = Some (mx, pl') →
    consistent pl → (∀ d, d ∈ l → E t d) →
    ∃ ext, pl' = pl ++ ext ∧ consistent pl'
           ∧ (∀ d, d ∈ l → d ∈ dict_keys pl')
           ∧ mx = acc `max` max_list_with (recorded pl') l
           ∧ ∀ x, x ∈ dict_keys ext → tc E t x ∧ x ∉ dict_keys pl.
Proof.
  intros Hcall l. induction l as [|d l IH]; intros acc pl mx pl' Hrun Hc Hl;
    simpl in Hrun.
  - injection Hrun as <- <-. exists []. rewrite app_nil_r.
    split; [done|]. split; [done|]. split; [by intros ? ?%elem_of_nil|].
    split; [simpl; lia|]. by intros ? ?%elem_of_nil.
  - destruct (call d pl) as [[n pl1]|] eqn:Ecall; [|done].
    destruct (Hcall d pl n pl1 Ecall Hc) as (ext1 & -> & Hc1 & Hd & Hnew1).
    destruct (IH _ _ _ _ Hrun Hc1) as (ext2 & -> & Hc2 & Hin & -> & Hnew2).
    { intros ? ?. apply Hl. by right. }
    assert (Hdk : d ∈ dict_keys (pl ++ ext1))
      by (apply dict_get_is_Some; by eexists).
    exists (ext1 ++ ext2). split; [by rewrite app_assoc|].
    split; [done|]. split; [|split].
    + intros d' [->|Hd']%elem_of_cons; [|by apply Hin].
      rewrite dict_keys_app. apply elem_of_app. by left.
    + simpl. rewrite (recorded_app _ ext2 d Hdk). unfold recorded at 2.
      rewrite Hd. simpl. lia.
    + intros x. rewrite dict_keys_app, elem_of_app. intros [Hx|Hx].
      * destruct (Hnew1 x Hx) as [Hreach Hfresh]. split; [|done].
        eapply tc_rtc_r; [apply tc_once, Hl; by left|done].
      * destruct (Hnew2 x Hx) as [Hreach Hfresh]. split; [done|].
        rewrite dict_keys_app, elem_of_app in Hfresh. naive_solver.
Qed.

Lemma calculate_length_spec fuel t pl n pl' :
  calculate_length iter g fuel t pl = Some (n, pl') → consistent pl →
  calc_post t pl n pl'.
Proof.
  revert t pl n pl'. induction fuel as [|fuel IH]; intros t pl n pl' Hrun Hc;
    [done|].
  simpl in Hrun. destruct (dict_get pl t) as [n0|] eqn:Eget.
  - injection Hrun as <- <-. exists []. rewrite app_nil_r.
    split; [done|]. split; [done|]. split; [done|]. by intros ? ?%elem_of_nil.
  - destruct (max_dep_loop (calculate_length iter g fuel)
                (iter (graph_get g t)) 0 pl) as [[mx pl1]|] eqn:Eloop; [|done].
    injection Hrun as <- <-.
    destruct (max_dep_loop_spec _ t IH _ _ _ _ _ Eloop Hc)
      as (ext & -> & Hc1 & Hin & Hmx & Hnew).
    { intros d Hd. by apply iter_spec in Hd. }
    assert (Habs : dict_get (pl ++ ext) t = None).
    { apply dict_get_None. rewrite dict_keys_app, elem_of_app.
      intros [Ht|Ht].
      - by apply dict_get_None in Eget.
      - destruct (Hnew t Ht) as [Hcyc _]. by apply no_cycle in Hcyc. }
    rewrite (dict_set_absent _ _ _ Habs), <- app_assoc.
    exists (ext ++ [(t, mx + 1)]). split; [done|].
    assert (Hget : dict_get (pl ++ ext ++ [(t, mx + 1)]) t = Some (mx + 1)).
    { rewrite app_assoc, dict_get_app, Habs. simpl.
      by rewrite bool_decide_eq_true_2. }
    split; [|split; [done|]].
    + intros t' n'. rewrite app_assoc. rewrite dict_get_app.
      destruct (dict_get (pl ++ ext) t') as [n0|] eqn:Eold.
      * intros [= <-]. by apply consistent_app.
      * simpl. case_bool_decide as Et; [|done]. intros [= <-]. subst t'.
        split.
        -- intros d Hd. rewrite dict_keys_app. apply elem_of_app. left.
           apply Hin. by apply iter_spec.
        -- rewrite Nat.add_1_r. f_equal. rewrite Hmx. simpl.
           unfold max_over. apply max_list_with_same.
           ++ intros x. by rewrite iter_spec, elem_of_elements.
           ++ intros d Hd. symmetry. by apply recorded_app, Hin.
    + intros x. rewrite dict_keys_app, elem_of_app. intros [Hx|Hx].
      * destruct (Hnew x Hx) as [Hreach Hfresh]. split; [by apply tc_rtc|done].
      * unfold dict_keys in Hx. simpl in Hx.
        apply list_elem_of_singleton in Hx as ->. split; [apply rtc_refl|].
        by apply dict_get_None in Eget.
Qed.

Lemma lengths_loop_spec fuel ids pl pl' :
  lengths_loop iter g fuel ids pl = Some pl' → consistent pl →
  consistent pl' ∧ (∀ t, t ∈ ids → t ∈ dict_keys pl')
  ∧ ∃ ext, pl' = pl ++ ext.
Proof.
  revert pl. induction ids as [|t ids IH]; intros pl Hrun Hc; simpl in Hrun.
  - injection Hrun as <-. split; [done|]. split; [by intros ? ?%elem_of_nil|].
    exists []. by rewrite app_nil_r.
  - destruct (calculate_length iter g fuel t pl) as [[n pl1]|] eqn:Ecalc;
      [|done].
    destruct (calculate_length_spec _ _ _ _ _ Ecalc Hc)
      as (ext1 & -> & Hc1 & Hget & _).
    destruct (IH _ Hrun Hc1) as (Hc' & Hin & ext2 & ->).
    split; [done|]. split.
    + intros t' [->|Ht']%elem_of_cons; [|by apply Hin].
      rewrite dict_keys_app. apply elem_of_app. left.
      apply dict_get_is_Some. by eexists.
    + exists (ext1 ++ ext2). by rewrite app_assoc.
Qed.

Lemma level_exists pl t n :
  consistent pl → dict_get pl t = Some n →
  ∀ len, 1 ≤ len ≤ n → ∃ t', dict_get pl t' = Some len.
Proof.
  intros Hc. revert t. induction (lt_wf n) as [n _ IH]. intros t Ht len Hlen.
  destruct (decide (len = n)) as [->|Hne]; [by eauto|].
  destruct (Hc t n Ht) as [Hdeps Hn].
  unfold max_over in Hn.
  change (fun d => default 0 (dict_get pl d)) with (recorded pl) in Hn.
  destruct (max_list_with_attained (recorded pl) (elements (graph_get g t)))
    as (d & Hd & Hmax).
  { intros Hnil. rewrite Hnil in Hn. simpl in Hn. lia. }
  rewrite <- Hmax in Hn.
  assert (Hdk : d ∈ dict_keys pl) by (apply Hdeps; by apply elem_of_elements).
  apply dict_get_is_Some in Hdk as [m Hm].
  unfold recorded in Hn. rewrite Hm in Hn. simpl in Hn.
  apply (IH m) with (t := d); [lia|done|lia].
Qed.

Lemma consistent_positive pl t n : consistent pl → dict_get pl t = Some n → 1 ≤ n.
Proof. intros Hc Ht. destruct (Hc t n Ht) as [_ ->]. lia. Qed.

End Lengths.

(** [calculate_length] never returns on a task from which a cycle can be
    reached: it has no cycle guard. *)
Lemma calculate_length_cycle g fuel t pl n pl' :
  calculate_length iter g fuel t pl = Some (n, pl') →
  (∀ k, k ∈ dict_keys pl → ¬ reaches_cycle g k) →
  (∀ k, k ∈ dict_keys pl' → ¬ reaches_cycle g k) ∧ ¬ reaches_cycle g t.
Proof.
  revert t pl n pl'. induction fuel as [|fuel IH]; intros t pl n pl' Hrun Hgood;
    [done|].
  simpl in Hrun. destruct (dict_get pl t) as [n0|] eqn:Eget.
  - injection Hrun as <- <-. split; [done|]. apply Hgood.
    apply dict_get_is_Some. by eexists.
  - assert (Hloop : ∀ l acc pl0 mx pl1,
      max_dep_loop (calculate_length iter g fuel) l acc pl0 = Some (mx, pl1) →
      (∀ k, k ∈ dict_keys pl0 → ¬ reaches_cycle g k) →
      (∀ k, k ∈ dict_keys pl1 → ¬ reaches_cycle g k)
      ∧ ∀ d, d ∈ l → ¬ reaches_cycle g d).
    { induction l as [|d l IHl]; intros acc pl0 mx pl1 Hl Hg0; simpl in Hl.
      - injection Hl as <- <-. split; [done|]. by intros ? ?%elem_of_nil.
      - destruct (calculate_length iter g fuel d pl0) as [[nd pld]|] eqn:Ed;
          [|done].
        destruct (IH _ _ _ _ Ed Hg0) as [Hgd Hd].
        destruct (IHl _ _ _ _ Hl Hgd) as [Hg1 Hrest].
        split; [done|]. intros d' [->|Hd']%elem_of_cons; [done|by apply Hrest]. }
    destruct (max_dep_loop (calculate_length iter g fuel)
                (iter (graph_get g t)) 0 pl) as [[mx pl1]|] eqn:Eloop; [|done].
    injection Hrun as <- <-.
    destruct (Hloop _ _ _ _ _ Eloop Hgood) as [Hg1 Hdeps].
    assert (Ht : ¬ reaches_cycle g t).
    { intros (y & Hy & Hbad)%reaches_cycle_step.
      apply (Hdeps y); [by apply iter_spec|done]. }
    split; [|done]. intros k Hk.
    destruct (decide (k = t)) as [->|Hne]; [done|]. apply Hg1.
    clear -Hk Hne. induction pl1 as [|[k' v'] pl1 IHp]; simpl in *.
    + unfold dict_keys in Hk. simpl in Hk. set_solver.
    + unfold dict_keys in *. simpl in *. case_bool_decide; simpl in *.
      * set_solver.
      * apply elem_of_cons in Hk as [->|Hk]; [by left|right; by apply IHp].
Qed.

Lemma lengths_loop_cycle g fuel ids pl pl' :
  lengths_loop iter g fuel ids pl = Some pl' →
  (∀ k, k ∈ dict_keys pl → ¬ reaches_cycle g k) →
  ∀ t, t ∈ ids → ¬ reaches_cycle g t.
Proof.
  revert pl. induction ids as [|t ids IH]; intros pl Hrun Hgood; simpl in Hrun;
    [by intros ? ?%elem_of_nil|].
  destruct (calculate_length iter g fuel t pl) as [[n pl1]|] eqn:Ecalc; [|done].
  destruct (calculate_length_cycle _ _ _ _ _ _ Ecalc Hgood) as [Hg1 Ht].
  intros t' [->|Ht']%elem_of_cons; [done|]. by apply (IH pl1).
Qed.

(** ** Keys stay distinct *)

Lemma dict_set_keys (pl : list (string * nat)) k v :
  dict_keys (dict_set pl k v)
  = if bool_decide (k ∈ dict_keys pl) then dict_keys pl else dict_keys pl ++ [k].
Proof.
  unfold dict_keys. induction pl as [|[k' v'] pl IH]; simpl.
  - done.
  - destruct (decide (k' = k)) as [->|Hne].
    + rewrite bool_decide_eq_true_2 by done. simpl.
      rewrite bool_decide_eq_true_2; [done|by left].
    + rewrite bool_decide_eq_false_2 by done. simpl. rewrite IH.
      destruct (decide (k ∈ map fst pl)) as [Hin|Hnin].
      * rewrite !bool_decide_eq_true_2; [done|by right|done].
      * rewrite !bool_decide_eq_false_2; [done| |done].
        intros [->|?]%elem_of_cons; done.
Qed.

Lemma calculate_length_NoDup g fuel t pl n pl' :
  calculate_length iter g fuel t pl = Some (n, pl') →
  NoDup (dict_keys pl) → NoDup (dict_keys pl').
Proof.
  revert t pl n pl'. induction fuel as [|fuel IH]; intros t pl n pl' Hrun Hnd;
    [done|].
  simpl in Hrun. destruct (dict_get pl t) as [n0|].
  - by injection Hrun as <- <-.
  - assert (Hloop : ∀ l acc pl0 mx pl1,
      max_dep_loop (calculate_length iter g fuel) l acc pl0 = Some (mx, pl1) →
      NoDup (dict_keys pl0) → NoDup (dict_keys pl1)).
    { induction l as [|d l IHl]; intros acc pl0 mx pl1 Hl Hnd0; simpl in Hl.
      - by injection Hl as <- <-.
      - destruct (calculate_length iter g fuel d pl0) as [[nd pld]|] eqn:Ed;
          [|done].
        eapply IHl; [done|]. by eapply IH. }
    destruct (max_dep_loop (calculate_length iter g fuel)
                (iter (graph_get g t)) 0 pl) as [[mx pl1]|] eqn:Eloop; [|done].
    injection Hrun as <- <-. rewrite dict_set_keys.
    pose proof (Hloop _ _ _ _ _ Eloop Hnd) as Hnd1.
    case_bool_decide as Hin; [done|].
    apply NoDup_app. split; [done|]. split; [|apply NoDup_singleton].
    intros x Hx ->%list_elem_of_singleton. done.
Qed.

Lemma lengths_loop_NoDup g fuel ids pl pl' :
  lengths_loop iter g fuel ids pl = Some pl' →
  NoDup (dict_keys pl) → NoDup (dict_keys pl').
Proof.
  revert pl. induction ids as [|t ids IH]; intros pl Hrun Hnd; simpl in Hrun.
  - by injection Hrun as <-.
  - destruct (calculate_length iter g fuel t pl) as [[n pl1]|] eqn:Ecalc;
      [|done].
    eapply IH; [done|]. by eapply calculate_length_NoDup.
Qed.

(** ** Sorting the memo table and collecting the path *)

Lemma find_insert_desc len x l :
  find (fun kv : string * nat => kv.2 =? len) (insert_desc x l)
  = if x.2 =? len then Some x
    else find (fun kv : string * nat => kv.2 =? len) l.
Proof.
  induction l as [|y l IH]; simpl; [done|].
  destruct (x.2 <? y.2) eqn:Elt; simpl; [|done].
  rewrite IH. apply Nat.ltb_lt in Elt.
  destruct (y.2 =? len) eqn:Ey; [|done].
  apply Nat.eqb_eq in Ey.
  destruct (x.2 =? len) eqn:Ex; [|done].
  apply Nat.eqb_eq in Ex. lia.
Qed.

Lemma first_with_sorted pl len :
  first_with (sorted_desc pl) len = first_with pl len.
Proof.
  unfold first_with. f_equal.
  induction pl as [|x pl IH]; simpl; [done|].
  by rewrite find_insert_desc, IH.
Qed.

Lemma insert_desc_elem x l y : y ∈ insert_desc x l ↔ y = x ∨ y ∈ l.
Proof.
  induction l as [|z l IH]; simpl.
  - rewrite list_elem_of_singleton. split; [by left|].
    by intros [?|?%elem_of_nil].
  - destruct (x.2 <? z.2); rewrite !elem_of_cons; [rewrite IH|]; naive_solver.
Qed.

Lemma sorted_desc_elem l y : y ∈ sorted_desc l ↔ y ∈ l.
Proof.
  induction l as [|x l IH]; simpl; [done|].
  by rewrite insert_desc_elem, IH, elem_of_cons.
Qed.

Lemma insert_desc_sorted x l :
  StronglySorted desc l → StronglySorted desc (insert_desc x l).
Proof.
  induction 1 as [|y l Hs IH Hall]; simpl.
  - by repeat constructor.
  - destruct (x.2 <? y.2) eqn:Elt.
    + apply Nat.ltb_lt in Elt. constructor; [done|].
      apply Forall_forall. intros z [->|Hz]%insert_desc_elem.
      * unfold desc. lia.
      * by eapply Forall_forall in Hall.
    + apply Nat.ltb_ge in Elt. constructor; [by constructor|].
      constructor; [done|].
      apply Forall_forall. intros z Hz. eapply Forall_forall in Hall; [|done].
      unfold desc in *. lia.
Qed.

Lemma sorted_desc_sorted l : StronglySorted desc (sorted_desc l).
Proof.
  induction l as [|x l IH]; simpl; [constructor|by apply insert_desc_sorted].
Qed.

Lemma first_with_skip k v rest len :
  v ≠ len → first_with ((k, v) :: rest) len = first_with rest len.
Proof.
  intros Hne. unfold first_with. simpl.
  by destruct (Nat.eqb_spec v len).
Qed.

Lemma levels_skip k v rest c :
  c < v → levels ((k, v) :: rest) c = levels rest c.
Proof.
  induction c as [|c IH]; intros Hlt; simpl; [done|].
  rewrite first_with_skip by lia. rewrite IH by lia. done.
Qed.

Lemma first_with_None l len :
  (∀ kv, kv ∈ l → kv.2 ≠ len) → first_with l len = None.
Proof.
  intros H. unfold first_with.
  destruct (find _ l) as [kv|] eqn:E; [|done].
  apply find_some in E as [Hin Heq]. apply Nat.eqb_eq in Heq.
  apply list_elem_of_In in Hin. by destruct (H kv Hin).
Qed.

Lemma first_with_Some l k len :
  (k, len) ∈ l → is_Some (first_with l len).
Proof.
  intros Hin. unfold first_with.
  destruct (find _ l) as [kv|] eqn:E; [by eexists|].
  apply list_elem_of_In in Hin.
  pose proof (find_none _ _ E _ Hin) as Hf. simpl in Hf.
  by rewrite Nat.eqb_refl in Hf.
Qed.

(** On a table sorted by descending length the final loop picks, for each
    length from the starting value downwards, the first entry of that
    length. *)
Lemma collect_levels l c :
  StronglySorted desc l → Forall (fun kv => 1 ≤ kv.2) l →
  collect_path l (Z.of_nat c) = levels l c.
Proof.
  intros Hs. revert c. induction Hs as [|[k v] l Hs IH Hall]; intros c Hpos.
  - by destruct c.
  - apply Forall_cons in Hpos as [Hv Hpos]. simpl in Hv. simpl.
    destruct (Z.eqb_spec (Z.of_nat v) (Z.of_nat c)) as [Heq|Hne].
    + apply Nat2Z.inj in Heq. subst c. destruct v as [|v]; [lia|].
      replace (Z.of_nat (S v) - 1)%Z with (Z.of_nat v) by lia.
      rewrite IH by done. simpl levels. unfold first_with at 1. simpl.
      rewrite Nat.eqb_refl. simpl. f_equal.
      symmetry. apply levels_skip. lia.
    + rewrite IH by done.
      destruct (decide (c < v)) as [Hlt|Hge].
      * symmetry. by apply levels_skip.
      * assert (v < c) by lia.
        destruct c as [|c]; [done|]. simpl.
        rewrite first_with_skip by lia.
        rewrite first_with_None; [done|].
        intros kv Hkv. eapply Forall_forall in Hall; [|done].
        unfold desc in Hall. simpl in Hall. lia.
Qed.

Lemma levels_ext l l' c :
  (∀ len, first_with l len = first_with l' len) → levels l c = levels l' c.
Proof.
  intros H. induction c as [|c IH]; simpl; [done|]. by rewrite H, IH.
Qed.

Lemma levels_full pl c :
  (∀ len, 1 ≤ len ≤ c → is_Some (first_with pl len)) →
  length (levels pl c) = c
  ∧ ∀ i, i < c → levels pl c !! i = first_with pl (c - i).
Proof.
  induction c as [|c IH]; intros H; [split; [done|lia]|].
  destruct IH as [Hlen Hnth]; [intros len ?; apply H; lia|].
  destruct (H (S c)) as [k Hk]; [lia|]. simpl levels. rewrite Hk. simpl.
  split; [by rewrite Hlen|].
  intros [|i] Hi.
  - by rewrite Nat.sub_0_r.
  - simpl. apply Hnth. lia.
Qed.

Lemma max_length_attained (pl : list (string * nat)) :
  1 ≤ max_length pl → ∃ t, (t, max_length pl) ∈ pl.
Proof.
  unfold max_length. induction pl as [|[k v] pl IH]; simpl; [lia|].
  intros Hpos.
  destruct (Nat.max_spec v (foldr Nat.max 0 (map snd pl))) as [[Hlt ->]|[Hge ->]].
  - destruct IH as [t Ht]; [lia|]. exists t. by right.
  - exists k. by left.
Qed.

Lemma max_length_ge (pl : list (string * nat)) k v :
  (k, v) ∈ pl → v ≤ max_length pl.
Proof.
  unfold max_length. induction pl as [|[k' v'] pl IH]; simpl.
  - by intros ?%elem_of_nil.
  - intros [[= -> ->]|Hin]%elem_of_cons; [lia|]. specialize (IH Hin). lia.
Qed.

Lemma dict_get_NoDup {V} (d : list (string * V)) k v :
  NoDup (dict_keys d) → (k, v) ∈ d → dict_get d k = Some v.
Proof.
  unfold dict_keys. induction d as [|[k' v'] d IH]; simpl.
  - by intros _ ?%elem_of_nil.
  - intros [Hnin Hnd]%NoDup_cons [[= -> ->]|Hin]%elem_of_cons.
    + by rewrite bool_decide_eq_true_2.
    + rewrite bool_decide_eq_false_2; [by apply IH|].
      intros ->. apply Hnin. apply list_elem_of_fmap. by exists (k, v).
Qed.

(** ** The critical path *)

Lemma build_graph_resolver (w : Workflow) :
  (build_graph iter w).2 = fill_graphs iter (tasks w).
Proof. done. Qed.

Lemma acyclic_no_cycle (w : Workflow) :
  acyclic w →
  ∀ x, ¬ tc (gedge (dependency_graph (fill_graphs iter (tasks w)))) x x.
Proof. intros Hac x Hx. apply (Hac x). by apply tc_edge_gedge. Qed.

Lemma acyclic_fuel (w : Workflow) :
  acyclic w →
  ∃ fuel0, ∀ fuel t, fuel0 ≤ fuel → t ∈ dict_keys (tasks w) →
    ranked (dependency_graph (fill_graphs iter (tasks w))) fuel t.
Proof.
  intros Hac. destruct (has_cycle_correct w) as (b & _ & Hb & Hrank).
  apply Hb in Hac. specialize (Hrank Hac).
  destruct (ranked_list _ _ Hrank) as [n Hn].
  exists n. intros fuel t Hle Ht. eapply ranked_mono; [by apply Hn|done].
Qed.

Lemma consistent_nil g : consistent g [].
Proof. by intros t n. Qed.

(** On an acyclic workflow the memo table is filled, and filled
    consistently, once the recursion is given enough levels. *)
Lemma path_lengths_acyclic (w : Workflow) :
  acyclic w →
  let r := fill_graphs iter (tasks w) in
  ∃ fuel0, ∀ fuel, fuel0 ≤ fuel →
    ∃ pl, path_lengths iter r w fuel = Some pl
          ∧ consistent (dependency_graph r) pl
          ∧ NoDup (dict_keys pl)
          ∧ ∀ t, t ∈ dict_keys (tasks w) → t ∈ dict_keys pl.
Proof.
  intros Hac r. subst r.
  set (g := dependency_graph (fill_graphs iter (tasks w))).
  destruct (acyclic_fuel w Hac) as [fuel0 Hfuel]. fold g in Hfuel.
  exists fuel0. intros fuel Hle. unfold path_lengths. fold g.
  destruct (lengths_loop_total g fuel (dict_keys (tasks w)) []) as [pl Hpl].
  { intros t Ht. by apply Hfuel. }
  destruct (lengths_loop_spec g (acyclic_no_cycle w Hac) _ _ _ _ Hpl
              (consistent_nil g)) as (Hc & Hall & _).
  exists pl. split; [done|]. split; [done|]. split; [|done].
  eapply lengths_loop_NoDup; [done|]. apply NoDup_nil_2.
Qed.

(** On a consistent memo table the sort and the final loop yield one key
    per length value, from the maximum down to one. *)
Lemma collect_path_consistent g (pl : list (string * nat)) :
  consistent g pl → NoDup (dict_keys pl) →
  let path := collect_path (sorted_desc pl) (Z.of_nat (max_length pl)) in
  length path = max_length pl
  ∧ ∀ i, i < max_length pl →
         is_Some (path !! i)
         ∧ path !! i = first_with pl (max_length pl - i).
Proof.
  intros Hc Hnd.
  assert (Hpos : ∀ kv : string * nat, kv ∈ pl → 1 ≤ kv.2).
  { intros [k v] Hkv. simpl.
    eapply consistent_positive; [done|]. by apply dict_get_NoDup. }
  assert (Hlev : ∀ len, 1 ≤ len ≤ max_length pl → is_Some (first_with pl len)).
  { intros len Hlen.
    destruct (max_length_attained pl) as [t Ht]; [lia|].
    apply (dict_get_NoDup _ _ _ Hnd) in Ht.
    destruct (level_exists g pl t _ Hc Ht len Hlen) as [t' Ht'].
    apply (first_with_Some _ t'). by apply dict_get_Some_elem. }
  destruct (levels_full pl (max_length pl) Hlev) as [Hlen Hnth].
  simpl. rewrite collect_levels.
  2: { apply sorted_desc_sorted. }
  2: { apply Forall_forall. intros kv Hkv.
       apply (proj1 (sorted_desc_elem _ _)) in Hkv. by apply Hpos. }
  rewrite (levels_ext _ pl) by apply first_with_sorted.
  split; [done|]. intros i Hi. rewrite Hnth by done.
  split; [|done]. apply Hlev. lia.
Qed.

(** C10: after [build_graph], [get_critical_path] returns (for every
    sufficiently deep recursion) when the dependency relation is acyclic,
    and when it is not acyclic the recursion of [calculate_length] never
    bottoms out, however many levels it is given. *)
Theorem critical_path_terminates (w : Workflow) :
  let r := (build_graph iter w).2 in
  (acyclic w →
   ∃ fuel0, ∀ fuel, fuel0 ≤ fuel → is_Some (get_critical_path iter r w fuel))
  ∧ (¬ acyclic w → ∀ fuel, get_critical_path iter r w fuel = None)
  ∧ ((∃ fuel, is_Some (get_critical_path iter r w fuel)) → acyclic w).
Proof.
  intros r.
  assert (Hnec : (∃ fuel, is_Some (get_critical_path iter r w fuel)) →
                 acyclic w).
  { intros [fuel [path Hpath]] t Ht.
    subst r. rewrite build_graph_resolver in Hpath.
    unfold get_critical_path, path_lengths in Hpath.
    set (g := dependency_graph (fill_graphs iter (tasks w))) in *.
    destruct (lengths_loop iter g fuel (dict_keys (tasks w)) []) as [pl|] eqn:E;
      [|done].
    assert (Hin : t ∈ dict_keys (tasks w)).
    { inversion Ht as [? ? Htd|? y ? Htd _]; subst;
        by apply (edge_source_is_task w t _ Htd). }
    apply (lengths_loop_cycle g _ _ _ _ E) with (t := t); [|done|].
    - by intros k ?%elem_of_nil.
    - exists t. split; [apply rtc_refl|]. by apply tc_edge_gedge. }
  split; [|split; [|done]].
  - intros Hac. subst r. rewrite build_graph_resolver.
    destruct (path_lengths_acyclic w Hac) as [fuel0 H].
    exists fuel0. intros fuel Hle.
    destruct (H fuel Hle) as (pl & Hpl & _).
    unfold get_critical_path. rewrite Hpl. by eexists.
  - intros Hcyc fuel.
    destruct (get_critical_path iter r w fuel) as [path|] eqn:E; [|done].
    destruct Hcyc. apply Hnec. exists fuel. by rewrite E.
Qed.

End Facts.

Lemma elements_iter (s : gset string) (x : string) : x ∈ elements s ↔ x ∈ s.
Proof. apply elem_of_elements. Qed.

Example cyclic_workflow_rejected :
  (validate_workflow elements new_resolver cyclic_workflow).1 = Some false
  ∧ (get_execution_plan elements new_resolver cyclic_workflow).1.1 = Some None.
Proof. by vm_compute. Qed.

Example diamond_workflow_accepted :
  (validate_workflow elements new_resolver diamond_workflow).1 = Some true.
Proof. by vm_compute. Qed.

Example diamond_critical_path :
  get_critical_path elements (build_graph elements diamond_workflow).2
    diamond_workflow 4 = Some ["D"; "B"; "A"].
Proof. by vm_compute. Qed.

Lemma diamond_acyclic : acyclic diamond_workflow.
Proof.
  destruct (has_cycle_correct elements elements_iter diamond_workflow)
    as (b & Hb & Hiff & _).
  apply Hiff. vm_compute in Hb. by injection Hb as <-.
Qed.

Lemma cyclic_not_acyclic : ¬ acyclic cyclic_workflow.
Proof.
  destruct (has_cycle_correct elements elements_iter cyclic_workflow)
    as (b & Hb & Hiff & _).
  intros Hac. apply Hiff in Hac. subst b. by vm_compute in Hb.
Qed.

Lemma diamond_edge t d :
  edge diamond_workflow t d
  ↔ (t = "B" ∧ d = "A") ∨ (t = "C" ∧ d = "A")
    ∨ (t = "D" ∧ (d = "B" ∨ d = "C")).
Proof.
  unfold edge.
  change (tasks diamond_workflow)
    with [("A", mk_task "A" ∅); ("B", mk_task "B" {["A"]});
          ("C", mk_task "C" {["A"]}); ("D", mk_task "D" {["B"; "C"]})].
  split.
  - intros (task & Hin & Hd).
    repeat (apply elem_of_cons in Hin as [[= -> ->]|Hin]); simpl in Hd;
      [set_solver..|by apply elem_of_nil in Hin].
  - intros [[-> ->]|[[-> ->]|[-> Hd]]].
    + exists (mk_task "B" {["A"]}). split; [set_solver|]. simpl. set_solver.
    + exists (mk_task "C" {["A"]}). split; [set_solver|]. simpl. set_solver.
    + exists (mk_task "D" {["B"; "C"]}). split; [set_solver|]. simpl. set_solver.
Qed.

(** Whatever the order in which sets are iterated, the critical path of the
    diamond has three elements. *)
Lemma diamond_path_length (iter : gset string → list string) :
  (∀ s x, x ∈ iter s ↔ x ∈ s) →
  ∃ fuel0, ∀ fuel, fuel0 ≤ fuel →
    ∃ path,
      get_critical_path iter (build_graph iter diamond_workflow).2
        diamond_workflow fuel = Some path
      ∧ length path = 3.
Proof.
  intros Hiter.
  destruct (path_lengths_acyclic iter Hiter diamond_workflow diamond_acyclic)
    as [fuel0 H].
  exists fuel0. intros fuel Hle.
  destruct (H fuel Hle) as (pl & Hpl & Hc & Hnd & Hall).
  destruct (collect_path_consistent iter Hiter _ pl Hc Hnd) as [Hlen _].
  rewrite build_graph_resolver. unfold get_critical_path. rewrite Hpl.
  eexists. split; [done|]. rewrite Hlen.
  set (g := dependency_graph (fill_graphs iter (tasks diamond_workflow))) in *.
  assert (Hedge : ∀ t d, d ∈ elements (graph_get g t) ↔ edge diamond_workflow t d).
  { intros t d. rewrite elem_of_elements. apply (fill_graphs_edge iter Hiter). }
  assert (Hval : ∀ t n, dict_get pl t = Some n →
            n = if decide (t = "D") then 3
                else if decide (t = "B" ∨ t = "C") then 2 else 1).
  { assert (Hone : ∀ t n, dict_get pl t = Some n →
                     t ≠ "B" → t ≠ "C" → t ≠ "D" → n = 1).
    { intros t n Ht ? ? ?. destruct (Hc t n Ht) as [_ ->]. f_equal.
      apply Nat.le_0_r, max_list_with_le. intros d Hd%Hedge%diamond_edge.
      naive_solver. }
    assert (Htwo : ∀ t n, dict_get pl t = Some n → t = "B" ∨ t = "C" → n = 2).
    { intros t n Ht Hbc. destruct (Hc t n Ht) as [Hdeps ->]. f_equal.
      assert (HA : "A" ∈ elements (graph_get g t))
        by (apply Hedge, diamond_edge; naive_solver).
      assert (Hrec : recorded pl "A" = 1).
      { assert (HAk : "A" ∈ dict_keys pl)
          by (apply Hdeps; by apply elem_of_elements in HA).
        apply dict_get_is_Some in HAk as [v Hv].
        unfold recorded. rewrite Hv. simpl. by apply (Hone "A"). }
      apply Nat.le_antisymm.
      - apply max_list_with_le. intros d Hd%Hedge%diamond_edge.
        assert (d = "A") as -> by naive_solver.
        change (recorded pl "A" ≤ 1). lia.
      - rewrite <- Hrec. by apply (max_list_with_ge (recorded pl)). }
    intros t n Ht. repeat case_decide; subst.
    - destruct (Hc "D" n Ht) as [Hdeps ->]. f_equal.
      assert (HB : "B" ∈ elements (graph_get g "D"))
        by (apply Hedge, diamond_edge; naive_solver).
      assert (Hrec : ∀ d, d = "B" ∨ d = "C" → recorded pl d = 2).
      { intros d Hd.
        assert (Hdk : d ∈ dict_keys pl).
        { apply Hdeps, elem_of_elements, Hedge, diamond_edge. naive_solver. }
        apply dict_get_is_Some in Hdk as [v Hv].
        unfold recorded. rewrite Hv. simpl. by apply (Htwo d). }
      apply Nat.le_antisymm.
      + apply max_list_with_le. intros d Hd%Hedge%diamond_edge.
        change (recorded pl d ≤ 2). rewrite Hrec; [done|naive_solver].
      + rewrite <- (Hrec "B") by by left.
        by apply (max_list_with_ge (recorded pl)).
    - by apply (Htwo t).
    - apply (Hone t); naive_solver. }
  apply Nat.le_antisymm.
  - destruct (decide (1 ≤ max_length pl)) as [Hpos|]; [|lia].
    destruct (max_length_attained pl Hpos) as [t Ht].
    apply (dict_get_NoDup _ _ _ Hnd), Hval in Ht.
    repeat case_decide; lia.
  - assert (HD : "D" ∈ dict_keys pl) by (apply Hall; by vm_compute; set_solver).
    apply dict_get_is_Some in HD as [n Hn].
    pose proof (Hval _ _ Hn) as Hn3. simpl in Hn3. subst n.
    apply (max_length_ge pl "D"). by apply dict_get_Some_elem.
Qed.

Lemma validate_workflow_correct_witness :
  diamond_workflow.(tasks) ≠ [] ∧ acyclic diamond_workflow
  ∧ deps_closed diamond_workflow.
Proof.
  destruct (validate_workflow_correct elements elements_iter new_resolver
              diamond_workflow) as (b & Hb & Hiff & _).
  apply Hiff. rewrite diamond_workflow_accepted in Hb. by injection Hb.
Defined.

Lemma critical_path_terminates_witness :
  get_critical_path elements (build_graph elements cyclic_workflow).2
    cyclic_workflow 1000 = None.
Proof.
  apply (critical_path_terminates elements elements_iter cyclic_workflow).
  apply cyclic_not_acyclic.
Defined.

End WorkflowProps.

(* ===================================================================== *)
(** * Properties of the binary heap *)
(* ===================================================================== *)

Module HeapqProps.
Import Heapq.

Section Perm.
Context {A : Type}.
Implicit Types l : list A.

Lemma insert_cons_perm l j x y :
  l !! j = Some y → y :: <[j:=x]> l ≡ₚ x :: l.
Proof.
  revert j. induction l as [|a l IH]; intros [|j] Hj; simplify_eq/=.
  - apply perm_swap.
  - rewrite perm_swap. rewrite (IH j Hj). apply perm_swap.
Qed.

(** Moving [y] from slot [j] to slot [i] and putting [x] in slot [j]
    permutes the array in which [x] sits in slot [i]. *)
Lemma insert_swap_perm l i j x y :
  i ≠ j → i < length l → l !! j = Some y →
  <[j:=x]> (<[i:=y]> l) ≡ₚ <[i:=x]> l.
Proof.
  intros Hne Hi Hj.
  destruct (lookup_lt_is_Some_2 l i Hi) as [z Hz].
  assert (Hj' : <[i:=y]> l !! j = Some y) by by rewrite list_lookup_insert_ne.
  pose proof (insert_cons_perm _ j x y Hj') as HB.
  pose proof (insert_cons_perm l i x z Hz) as HA.
  pose proof (insert_cons_perm l i y z Hz) as HC.
  apply (inj (cons z)), (inj (cons y)).
  rewrite (perm_swap z y), HB, (perm_swap x z), HC, HA.
  apply perm_swap.
Qed.

End Perm.

Section HeapLaws.

Context {A : Type} (lt : A → A → bool).
Hypothesis lt_asym : ∀ a b, lt a b = true → lt b a = false.
Hypothesis le_trans :
  ∀ a b c, heap_le lt a b → heap_le lt b c → heap_le lt a c.

Abbreviation le := (heap_le lt).
Abbreviation sd_pre := (Heapq.sd_pre lt).
Abbreviation su_inv := (Heapq.su_inv lt).
Abbreviation smaller_child := (Heapq.smaller_child lt).

Lemma le_refl a : le a a.
Proof.
  unfold heap_le. destruct (lt a a) eqn:E; [|done].
  by rewrite (lt_asym a a E) in E.
Qed.

Lemma lt_le a b : lt a b = true → le a b.
Proof. apply lt_asym. Qed.

Lemma parent_spec i : 0 < i → i = 2 * parent i + 1 ∨ i = 2 * parent i + 2.
Proof.
  intros Hi. unfold parent. pose proof (Nat.div2_odd (i - 1)) as H.
  destruct (Nat.odd (i - 1)); simpl in H; lia.
Qed.

Lemma parent_lt i : 0 < i → parent i < i.
Proof. intros Hi. destruct (parent_spec i Hi); lia. Qed.

Lemma parent_child p c : 0 < c → parent c = p ↔ c = 2 * p + 1 ∨ c = 2 * p + 2.
Proof. intros Hc. destruct (parent_spec c Hc); lia. Qed.

(** ** [_siftdown] *)

Lemma sd_final heap newitem pos :
  sd_pre heap newitem pos →
  (0 < pos → ∀ y, heap !! parent pos = Some y → le y newitem) →
  is_heap lt (<[pos:=newitem]> heap).
Proof.
  intros (Hlen & Ha & Hb & _) Hpar i x y Hi Hx Hy.
  destruct (decide (i = pos)) as [->|Hne].
  - rewrite list_lookup_insert_eq in Hx by done. injection Hx as <-.
    pose proof (parent_lt pos Hi).
    rewrite list_lookup_insert_ne in Hy by lia. by apply Hpar.
  - rewrite list_lookup_insert_ne in Hx by done.
    destruct (decide (parent i = pos)) as [Hp|Hp].
    + rewrite Hp, list_lookup_insert_eq in Hy by done. injection Hy as <-.
      by apply (Hb i).
    + rewrite list_lookup_insert_ne in Hy by done. by apply (Ha i).
Qed.

Lemma sd_step heap newitem pos par :
  sd_pre heap newitem pos → 0 < pos →
  heap !! parent pos = Some par → lt newitem par = true →
  sd_pre (<[pos:=par]> heap) newitem (parent pos).
Proof.
  intros (Hlen & Ha & Hb & Hc) Hpos Hpar Hlt.
  pose proof (parent_lt pos Hpos) as Hpl.
  split; [rewrite length_insert; lia|]. split; [|split].
  - intros i x y Hi Hne Hx Hy.
    destruct (decide (i = pos)) as [->|Hip].
    + rewrite list_lookup_insert_eq in Hx by done. injection Hx as <-.
      rewrite list_lookup_insert_ne in Hy by lia.
      rewrite Hpar in Hy. injection Hy as <-. apply le_refl.
    + rewrite list_lookup_insert_ne in Hx by done.
      destruct (decide (parent i = pos)) as [Hp|Hp].
      * rewrite Hp, list_lookup_insert_eq in Hy by done. injection Hy as <-.
        by apply (Hc i).
      * rewrite list_lookup_insert_ne in Hy by done. by apply (Ha i).
  - intros c x Hc0 Hcp Hx.
    destruct (decide (c = pos)) as [->|Hcpos].
    + rewrite list_lookup_insert_eq in Hx by done. injection Hx as <-.
      by apply lt_le.
    + rewrite list_lookup_insert_ne in Hx by done.
      apply (le_trans _ par); [by apply lt_le|].
      apply (Ha c); [done|done|done|by rewrite Hcp].
  - intros c x y Hc0 Hcp Hp0 Hx Hy.
    pose proof (parent_lt _ Hp0).
    rewrite list_lookup_insert_ne in Hy by lia.
    assert (Hyp : le y par) by (apply (Ha (parent pos)); [done|lia|done|done]).
    destruct (decide (c = pos)) as [->|Hcpos].
    + rewrite list_lookup_insert_eq in Hx by done. by injection Hx as <-.
    + rewrite list_lookup_insert_ne in Hx by done.
      apply (le_trans _ par); [done|].
      apply (Ha c); [done|done|done|by rewrite Hcp].
Qed.

Lemma siftdown_loop_spec fuel heap newitem pos :
  pos ≤ fuel → sd_pre heap newitem pos →
  is_heap lt (siftdown_loop lt fuel heap newitem 0 pos)
  ∧ siftdown_loop lt fuel heap newitem 0 pos ≡ₚ <[pos:=newitem]> heap.
Proof.
  revert heap pos. induction fuel as [|fuel IH]; intros heap pos Hfuel Hpre.
  - simpl. split; [|done]. apply sd_final; [done|lia].
  - simpl. case_bool_decide as Hpos.
    + fold (parent pos).
      pose proof (parent_lt pos Hpos) as Hpl.
      destruct Hpre as (Hlen & Hrest).
      destruct (lookup_lt_is_Some_2 heap (parent pos)) as [par Hpar]; [lia|].
      rewrite Hpar. destruct (lt newitem par) eqn:Hlt.
      * destruct (IH (<[pos:=par]> heap) (parent pos)) as [Hh Hp]; [lia| |].
        { by apply sd_step. }
        split; [done|]. rewrite Hp.
        apply insert_swap_perm; [lia|done|done].
      * split; [|done]. apply sd_final; [done|].
        intros _ y Hy. rewrite Hpar in Hy. by injection Hy as <-.
    + split; [|done]. apply sd_final; [done|lia].
Qed.

Lemma siftdown_spec heap newitem pos :
  heap !! pos = Some newitem → sd_pre heap newitem pos →
  is_heap lt (_siftdown lt heap 0 pos) ∧ _siftdown lt heap 0 pos ≡ₚ heap.
Proof.
  intros Hpos Hpre. unfold _siftdown. rewrite Hpos.
  destruct (siftdown_loop_spec pos heap newitem pos) as [Hh Hp]; [done|done|].
  split; [done|]. by rewrite Hp, list_insert_id.
Qed.

(** ** [heappush] *)

Lemma heappush_spec heap item :
  is_heap lt heap →
  is_heap lt (heappush lt heap item) ∧ heappush lt heap item ≡ₚ item :: heap.
Proof.
  intros Hh. unfold heappush.
  destruct (siftdown_spec (heap ++ [item]) item (length heap)) as [H1 H2].
  - by rewrite lookup_app_r, Nat.sub_diag.
  - split; [rewrite length_app; simpl; lia|]. split; [|split].
    + intros i x y Hi Hne Hx Hy.
      assert (i < length heap).
      { apply lookup_lt_Some in Hx. rewrite length_app in Hx. simpl in Hx. lia. }
      pose proof (parent_lt i Hi).
      rewrite lookup_app_l in Hx, Hy by lia. by apply (Hh i).
    + intros c x Hc Hp Hx. apply lookup_lt_Some in Hx.
      rewrite length_app in Hx. simpl in Hx.
      apply parent_child in Hp; [lia|done].
    + intros c x y Hc Hp _ Hx _. apply lookup_lt_Some in Hx.
      rewrite length_app in Hx. simpl in Hx.
      apply parent_child in Hp; [lia|done].
  - split; [done|]. rewrite H2. by rewrite Permutation_app_comm.
Qed.

(** ** [_siftup] *)

Lemma smaller_child_spec heap pos :
  2 * pos + 1 < length heap →
  ∃ c, heap !! smaller_child heap pos = Some c
       ∧ parent (smaller_child heap pos) = pos
       ∧ pos < smaller_child heap pos
       ∧ ∀ s sv, 0 < s → parent s = pos → heap !! s = Some sv → le c sv.
Proof.
  intros Hlen. unfold smaller_child.
  destruct (lookup_lt_is_Some_2 heap (2 * pos + 1) Hlen) as [l Hl].
  rewrite Hl.
  destruct (heap !! (2 * pos + 1 + 1)) as [r|] eqn:Hr.
  - destruct (lt l r) eqn:Hlt; simpl.
    + exists l. split; [done|]. split; [apply parent_child; lia|].
      split; [lia|]. intros s sv Hs Hp Hsv.
      apply parent_child in Hp; [|done]. destruct Hp as [->| ->].
      * rewrite Hl in Hsv. injection Hsv as <-. apply le_refl.
      * replace (2 * pos + 2) with (2 * pos + 1 + 1) in Hsv by lia.
        rewrite Hr in Hsv. injection Hsv as <-. by apply lt_le.
    + exists r. split; [done|]. split; [apply parent_child; lia|].
      split; [lia|]. intros s sv Hs Hp Hsv.
      apply parent_child in Hp; [|done]. destruct Hp as [->| ->].
      * rewrite Hl in Hsv. by injection Hsv as <-.
      * replace (2 * pos + 2) with (2 * pos + 1 + 1) in Hsv by lia.
        rewrite Hr in Hsv. injection Hsv as <-. apply le_refl.
  - exists l. split; [done|]. split; [apply parent_child; lia|].
    split; [lia|]. intros s sv Hs Hp Hsv.
    apply parent_child in Hp; [|done]. destruct Hp as [->| ->].
    + rewrite Hl in Hsv. injection Hsv as <-. apply le_refl.
    + replace (2 * pos + 2) with (2 * pos + 1 + 1) in Hsv by lia.
      by rewrite Hr in Hsv.
Qed.

Lemma su_step heap pos c :
  pos < length heap → su_inv heap pos →
  heap !! smaller_child heap pos = Some c →
  parent (smaller_child heap pos) = pos → pos < smaller_child heap pos →
  (∀ s sv, 0 < s → parent s = pos → heap !! s = Some sv → le c sv) →
  su_inv (<[pos:=c]> heap) (smaller_child heap pos).
Proof.
  intros Hlen Hinv Hc Hpar Hlt Hmin i x y Hi _ Hx Hy.
  set (cp := smaller_child heap pos) in *.
  destruct (decide (i = pos)) as [->|Hne].
  - rewrite list_lookup_insert_eq in Hx by done. injection Hx as <-.
    pose proof (parent_lt pos Hi).
    rewrite list_lookup_insert_ne in Hy by lia.
    destruct (lookup_lt_is_Some_2 heap pos Hlen) as [v Hv].
    apply (le_trans _ v).
    + apply (Hinv pos); [done|lia|done|done].
    + apply (Hinv cp); [lia|lia|done|by rewrite Hpar].
  - rewrite list_lookup_insert_ne in Hx by done.
    destruct (decide (parent i = pos)) as [Hp|Hp].
    + rewrite Hp, list_lookup_insert_eq in Hy by done. injection Hy as <-.
      by apply (Hmin i).
    + rewrite list_lookup_insert_ne in Hy by done.
      apply (Hinv i); [done| |done|done]. intros ->. done.
Qed.

Lemma siftup_loop_spec newitem fuel heap pos heap' leaf :
  length heap ≤ fuel + pos → pos < length heap → su_inv heap pos →
  siftup_loop lt fuel heap pos = (heap', leaf) →
  length heap' = length heap ∧ leaf < length heap
  ∧ length heap ≤ 2 * leaf + 1
  ∧ su_inv heap' leaf
  ∧ <[leaf:=newitem]> heap' ≡ₚ <[pos:=newitem]> heap.
Proof.
  revert heap pos. induction fuel as [|fuel IH]; intros heap pos Hfuel Hpos Hinv;
    [lia|].
  cbn [siftup_loop]. case_bool_decide as Hchild.
  - fold (smaller_child heap pos).
    destruct (smaller_child_spec heap pos Hchild) as (c & Hc & Hpar & Hlt & Hmin).
    rewrite Hc. intros Hrun.
    assert (Hcl : smaller_child heap pos < length heap)
      by by eapply lookup_lt_Some.
    destruct (IH (<[pos:=c]> heap) (smaller_child heap pos))
      as (Hl & Hleaf & Hend & Hinv' & Hperm); try done.
    + rewrite length_insert. lia.
    + by rewrite length_insert.
    + by apply su_step.
    + rewrite length_insert in *. split; [done|]. split; [done|].
      split; [done|]. split; [done|]. rewrite Hperm.
      apply insert_swap_perm; [lia|done|done].
  - intros [= <- <-]. split; [done|]. split; [done|]. split; [lia|done].
Qed.

Lemma siftup_spec heap newitem :
  heap !! 0 = Some newitem → su_inv heap 0 →
  is_heap lt (_siftup lt heap 0) ∧ _siftup lt heap 0 ≡ₚ heap.
Proof.
  intros H0 Hinv. unfold _siftup. rewrite H0.
  assert (Hlen : 0 < length heap) by by eapply lookup_lt_Some.
  destruct (siftup_loop lt (length heap) heap 0) as [heap' leaf] eqn:Hloop.
  destruct (siftup_loop_spec newitem (length heap) heap 0 heap' leaf)
    as (Hl & Hleaf & Hend & Hinv' & Hperm); [lia|done|done|done|].
  destruct (siftdown_spec (<[leaf:=newitem]> heap') newitem leaf) as [Hh Hp].
  - rewrite list_lookup_insert_eq; [done|lia].
  - split; [rewrite length_insert; lia|]. split; [|split].
    + intros i x y Hi Hne Hx Hy.
      assert (Hil : i < length heap').
      { apply lookup_lt_Some in Hx. by rewrite length_insert in Hx. }
      assert (Hpl : parent i ≠ leaf).
      { intros Hp. apply parent_child in Hp; [lia|done]. }
      rewrite list_lookup_insert_ne in Hx by done.
      rewrite list_lookup_insert_ne in Hy by done.
      apply (Hinv' i); [done| |done|done]. intros ->. done.
    + intros c x Hc Hp Hx. apply lookup_lt_Some in Hx.
      rewrite length_insert in Hx. apply parent_child in Hp; [lia|done].
    + intros c x y Hc Hp _ Hx _. apply lookup_lt_Some in Hx.
      rewrite length_insert in Hx. apply parent_child in Hp; [lia|done].
  - split; [done|]. rewrite Hp, Hperm. by rewrite list_insert_id.
Qed.

(** ** [heappop] *)

Lemma is_heap_app heap k : is_heap lt (heap ++ k) → is_heap lt heap.
Proof.
  intros Hh i x y Hi Hx Hy. apply (Hh i); [done| |].
  - by apply lookup_app_l_Some.
  - by apply lookup_app_l_Some.
Qed.

Lemma heap_root_min heap r :
  is_heap lt heap → heap !! 0 = Some r → ∀ y, y ∈ heap → le r y.
Proof.
  intros Hh Hr y [i Hi]%list_elem_of_lookup. revert y Hi.
  induction (lt_wf i) as [i _ IH]. intros y Hi.
  destruct (decide (i = 0)) as [->|Hne].
  - rewrite Hr in Hi. injection Hi as <-. apply le_refl.
  - assert (Hpos : 0 < i) by lia. pose proof (parent_lt i Hpos) as Hlt.
    destruct (lookup_lt_is_Some_2 heap (parent i)) as [p Hp].
    { apply lookup_lt_Some in Hi. lia. }
    apply (le_trans _ p); [by apply (IH (parent i))|by apply (Hh i)].
Qed.

Lemma heappop_nil : heappop lt [] = None.
Proof. done. Qed.

Lemma heappop_spec heap :
  is_heap lt heap → heap ≠ [] →
  ∃ x rest, heappop lt heap = Some (x, rest)
            ∧ is_heap lt rest ∧ x :: rest ≡ₚ heap
            ∧ ∀ y, y ∈ heap → le x y.
Proof.
  intros Hh Hne. unfold heappop.
  destruct (last heap) as [lastelt|] eqn:Hlast; [|by apply last_None in Hlast].
  apply last_Some in Hlast as [h' ->].
  rewrite length_app. simpl. rewrite Nat.add_sub, take_app_length.
  destruct (h' !! 0) as [ret|] eqn:H0.
  - assert (Hlen : 0 < length h') by by eapply lookup_lt_Some.
    destruct (siftup_spec (<[0:=lastelt]> h') lastelt) as [Hh2 Hp2].
    + by rewrite list_lookup_insert_eq.
    + intros i x y Hi Hroot Hx Hy. specialize (Hroot eq_refl).
      rewrite list_lookup_insert_ne in Hx by lia.
      rewrite list_lookup_insert_ne in Hy by lia.
      apply (is_heap_app h' [lastelt] Hh i); done.
    + eexists ret, _. split; [done|]. split; [done|]. split.
      * rewrite Hp2, (insert_cons_perm h' 0 lastelt ret H0).
        by rewrite Permutation_app_comm.
      * apply heap_root_min; [done|]. by apply lookup_app_l_Some.
  - destruct h' as [|a h']; [|done].
    exists lastelt, []. split; [done|]. split; [|split; [done|]].
    + intros i x y _ Hx. by destruct i.
    + intros y ->%list_elem_of_singleton. apply le_refl.
Qed.

(** ** Emptying a heap *)

Lemma popall_spec n heap :
  length heap ≤ n → is_heap lt heap →
  StronglySorted le (popall lt n heap) ∧ popall lt n heap ≡ₚ heap.
Proof.
  revert heap. induction n as [|n IH]; intros heap Hlen Hh.
  - destruct heap; [|simpl in Hlen; lia]. split; [constructor|done].
  - simpl. destruct heap as [|a heap].
    + rewrite heappop_nil. split; [constructor|done].
    + destruct (heappop_spec (a :: heap) Hh) as (x & rest & -> & Hr & Hp & Hmin);
        [done|].
      assert (Hlr : length rest ≤ n).
      { apply Permutation_length in Hp. simpl in *. lia. }
      destruct (IH rest Hlr Hr) as [Hs Hpp]. split.
      * constructor; [done|]. apply Forall_forall. intros y Hy.
        apply Hmin. rewrite <- Hp. right. by rewrite <- Hpp.
      * by rewrite Hpp.
Qed.

Lemma popall_length n heap :
  length heap ≤ n → is_heap lt heap → length (popall lt n heap) = length heap.
Proof.
  intros Hlen Hh. apply Permutation_length. by apply popall_spec.
Qed.

Lemma is_heap_nil : is_heap lt [].
Proof. intros i x y _ Hx. by destruct i. Qed.

Lemma pushall_spec (items : list A) heap :
  is_heap lt heap →
  is_heap lt (foldl (heappush lt) heap items)
  ∧ foldl (heappush lt) heap items ≡ₚ items ++ heap.
Proof.
  revert heap. induction items as [|x items IH]; intros heap Hh; simpl.
  - done.
  - destruct (heappush_spec heap x Hh) as [Hh1 Hp1].
    destruct (IH _ Hh1) as [Hh2 Hp2]. split; [done|].
    rewrite Hp2, Hp1. by rewrite Permutation_middle.
Qed.

End HeapLaws.
End HeapqProps.

(* ===================================================================== *)
(** * The order in which a mailbox is emptied *)
(* ===================================================================== *)

Module MailboxProps.
Import Protocol Broker.

Lemma Message_lt_spec a b :
  Message_lt a b = true
  ↔ (priority_value (priority a) < priority_value (priority b)
     ∨ (priority_value (priority a) = priority_value (priority b)
        ∧ timestamp a < timestamp b))%Z.
Proof.
  unfold Message_lt.
  destruct (Z.eqb_spec (priority_value (priority a))
              (priority_value (priority b))); simpl.
  - rewrite Z.ltb_lt. lia.
  - rewrite Z.ltb_lt. lia.
Qed.

Lemma key_le_spec a b :
  key_le a b
  ↔ (priority_value (priority a) < priority_value (priority b)
     ∨ (priority_value (priority a) = priority_value (priority b)
        ∧ timestamp a ≤ timestamp b))%Z.
Proof.
  unfold key_le. rewrite <- not_true_iff_false, Message_lt_spec. lia.
Qed.

Lemma Message_lt_asym a b : Message_lt a b = true → Message_lt b a = false.
Proof.
  intros H%Message_lt_spec. apply not_true_iff_false.
  intros H'%Message_lt_spec. lia.
Qed.

Lemma key_le_trans a b c :
  Heapq.heap_le Message_lt a b → Heapq.heap_le Message_lt b c →
  Heapq.heap_le Message_lt a c.
Proof.
  change (key_le a b → key_le b c → key_le a c).
  rewrite !key_le_spec. lia.
Qed.

(** ** One send, one receive *)

(** Whatever [send_message] returns, the recipient's mailbox is the one
    [put] leaves, and [True] is only returned when there was room. *)
Lemma send_message_mailbox (b : MessageBroker) (m : Message) (now : Z) :
  let q := mailbox b (recipient m) in
  let r := send_message b m now in
  message_queues r.2 !! recipient m = Some (put q m).2
  ∧ max_queue_size r.2 = max_queue_size b
  ∧ (r.1 = Return true → queue_full q = false).
Proof.
  intros q r. subst r. unfold send_message, _get_or_create_queue.
  fold (mailbox b (recipient m)). fold q.
  assert (Hq : (match message_queues b !! recipient m with
                | Some q0 => (q0, b)
                | None => (new_queue (max_queue_size b),
                           set_queues b (<[recipient m:=new_queue (max_queue_size b)]>
                                           (message_queues b)))
                end).1 = q).
  { subst q. unfold mailbox. by destruct (message_queues b !! recipient m). }
  destruct (match message_queues b !! recipient m with
            | Some q0 => (q0, b)
            | None => _
            end) as [q0 b1] eqn:E.
  assert (Hsz : max_queue_size b1 = max_queue_size b).
  { destruct (message_queues b !! recipient m); by injection E as <- <-. }
  simpl in Hq. subst q0.
  destruct (put q m) as [ok q'] eqn:Eput. simpl.
  assert (Hok : ok = true → queue_full q = false).
  { unfold put in Eput. destruct (queue_full q); [|done].
    injection Eput as <- <-. done. }
  destruct ok.
  - destruct (_record_message _ m) as [b3|k e] eqn:Erec.
    + unfold _record_message in Erec.
      destruct (_ <=? _)%Z; [destruct (pop0 _)|]; simplify_eq/=;
        rewrite lookup_insert_eq; auto.
    + simpl. destruct (add_message _ m e now); simpl;
        rewrite lookup_insert_eq; split; auto; split; auto; done.
  - destruct (add_message _ m "Queue full" now) as [d|k e]; simpl.
    + rewrite lookup_insert_eq. split; [done|]. split; [done|done].
    + destruct (add_message _ m e now); simpl;
        rewrite lookup_insert_eq; split; auto; split; auto; done.
Qed.

Lemma send_all_mailbox agent now (ms : list Message) (b : MessageBroker) :
  Forall (fun m => recipient m = agent) ms →
  (send_all b ms now).1 = (fun _ => Return true) <$> ms →
  queue (mailbox (send_all b ms now).2 agent)
  = foldl (Heapq.heappush Message_lt) (queue (mailbox b agent)) ms.
Proof.
  revert b. induction ms as [|m ms IH]; intros b Hrec Hok; [done|].
  apply Forall_cons in Hrec as [Hm Hrec]. simpl in *.
  destruct (send_message_mailbox b m now) as (Hq & Hsz & Hroom).
  destruct (send_message b m now) as [r b1] eqn:Es. simpl in *.
  destruct (send_all b1 ms now) as [rs b2] eqn:Ea. simpl in *.
  injection Hok as -> Hrs.
  specialize (IH b1 Hrec). rewrite Ea in IH. simpl in IH.
  rewrite (IH Hrs). f_equal.
  unfold mailbox at 1. rewrite <- Hm, Hq. unfold put.
  rewrite (Hroom eq_refl). simpl. by rewrite Hm.
Qed.

Lemma receive_message_spec (b : MessageBroker) agent timeout :
  Qle_bool 0 timeout = true →
  let q := mailbox b agent in
  let r := receive_message b agent timeout in
  match Heapq.heappop Message_lt (queue q) with
  | Some (m, rest) => r.1 = Some m ∧ queue (mailbox r.2 agent) = rest
  | None => r.1 = None ∧ queue (mailbox r.2 agent) = queue q
  end.
Proof.
  intros Ht q r. subst r. unfold receive_message, _get_or_create_queue.
  fold (mailbox b agent).
  assert (Hq : (match message_queues b !! agent with
                | Some q0 => (q0, b)
                | None => (new_queue (max_queue_size b),
                           set_queues b (<[agent:=new_queue (max_queue_size b)]>
                                           (message_queues b)))
                end).1 = q).
  { subst q. unfold mailbox. by destruct (message_queues b !! agent). }
  destruct (match message_queues b !! agent with
            | Some q0 => (q0, b)
            | None => _
            end) as [q0 b1]. simpl in Hq. subst q0.
  unfold get. rewrite Ht. simpl.
  destruct (Heapq.heappop Message_lt (queue q)) as [[m rest]|]; simpl;
    unfold mailbox; simpl; by rewrite lookup_insert_eq.
Qed.

Lemma receive_n_popall agent timeout n (b : MessageBroker) :
  Qle_bool 0 timeout = true →
  Heapq.is_heap Message_lt (queue (mailbox b agent)) →
  length (queue (mailbox b agent)) = n →
  (receive_n b agent timeout n).1
  = Some <$> Heapq.popall Message_lt n (queue (mailbox b agent)).
Proof.
  intros Ht. revert b. induction n as [|n IH]; intros b Hh Hlen; [done|].
  simpl. pose proof (receive_message_spec b agent timeout Ht) as Hr.
  simpl in Hr.
  destruct (HeapqProps.heappop_spec Message_lt Message_lt_asym key_le_trans
              (queue (mailbox b agent)) Hh)
    as (x & rest & Hpop & Hrest & Hperm & _).
  { intros Hnil. by rewrite Hnil in Hlen. }
  rewrite Hpop in Hr. rewrite Hpop.
  destruct (receive_message b agent timeout) as [r b1]. simpl in Hr.
  destruct Hr as [-> Hq].
  specialize (IH b1). rewrite Hq in IH.
  destruct (receive_n b1 agent timeout n) as [rs b2]. simpl in *.
  rewrite IH; [done|done|].
  apply Permutation_length in Hperm. simpl in Hperm. lia.
Qed.

(** ** The stated order, when timestamps follow the send order *)

Lemma insert_fifo_elem m l x : x ∈ insert_fifo m l ↔ x = m ∨ x ∈ l.
Proof.
  induction l as [|y l IH]; simpl.
  - rewrite list_elem_of_singleton. split; [by left|].
    by intros [?|?%elem_of_nil].
  - destruct (_ <=? _)%Z; rewrite !elem_of_cons; [rewrite IH|]; naive_solver.
Qed.

Lemma insert_fifo_perm m l : insert_fifo m l ≡ₚ m :: l.
Proof.
  induction l as [|y l IH]; simpl; [done|].
  destruct (_ <=? _)%Z; [|done]. rewrite IH. apply perm_swap.
Qed.

Lemma insert_fifo_sorted m l :
  StronglySorted key_le l → Forall (fun y => ts_lt y m) l →
  StronglySorted key_le (insert_fifo m l).
Proof.
  induction 1 as [|y l Hs IH Hall]; intros Hts; simpl.
  - by repeat constructor.
  - apply Forall_cons in Hts as [Hy Hts]. unfold ts_lt in Hy.
    destruct (Z.leb_spec (priority_value (priority y))
                (priority_value (priority m))) as [Hle|Hgt].
    + constructor; [by apply IH|].
      apply Forall_forall. intros z [->|Hz]%insert_fifo_elem.
      * apply key_le_spec. lia.
      * rewrite Forall_forall in Hall. by apply Hall.
    + constructor; [by constructor|].
      assert (Hmy : key_le m y) by (apply key_le_spec; lia).
      constructor; [done|].
      apply Forall_forall. intros z Hz. rewrite Forall_forall in Hall.
      specialize (Hall z Hz). apply key_le_spec in Hall.
      apply key_le_spec. lia.
Qed.

Lemma priority_fifo_from acc ms :
  StronglySorted key_le acc →
  StronglySorted ts_lt ms →
  (∀ y m, y ∈ acc → m ∈ ms → ts_lt y m) →
  StronglySorted key_le (foldl (fun acc m => insert_fifo m acc) acc ms)
  ∧ foldl (fun acc m => insert_fifo m acc) acc ms ≡ₚ ms ++ acc.
Proof.
  revert acc. induction ms as [|m ms IH]; intros acc Hacc Hms Hlt; simpl.
  - done.
  - apply StronglySorted_inv in Hms as [Hms Hm].
    destruct (IH (insert_fifo m acc)) as [Hs Hp].
    + apply insert_fifo_sorted; [done|].
      apply Forall_forall. intros y Hy. apply Hlt; [done|by left].
    + done.
    + intros y m' [->|Hy]%insert_fifo_elem Hm'.
      * rewrite Forall_forall in Hm. by apply Hm.
      * apply Hlt; [done|by right].
    + split; [done|]. rewrite Hp, insert_fifo_perm.
      by rewrite Permutation_middle.
Qed.

Lemma ts_lt_sorted_eq (ms : list Message) x y :
  StronglySorted ts_lt ms → x ∈ ms → y ∈ ms →
  timestamp x = timestamp y → x = y.
Proof.
  induction 1 as [|m ms Hs IH Hall]; [by intros ?%elem_of_nil|].
  rewrite Forall_forall in Hall. unfold ts_lt in Hall.
  intros [->|Hx]%elem_of_cons [->|Hy]%elem_of_cons Heq; [done| | |by apply IH].
  - specialize (Hall y Hy). lia.
  - specialize (Hall x Hx). lia.
Qed.

(** The order the mailbox does keep: after a run of successful sends into
    one agent's empty mailbox, as many [receive_message] calls (with a
    non-negative timeout) return all the messages sent, ordered by priority
    value (critical first) and, among equal priorities, by ascending
    message timestamp.  When the timestamps strictly increase in send order
    this is the stated order: by priority, first sent first among equal
    priorities. *)
Lemma receive_order (b : MessageBroker) (agent : string)
  (ms : list Message) (now : Z) (timeout : Q) :
  queue (mailbox b agent) = [] →
  Forall (fun m => recipient m = agent) ms →
  (send_all b ms now).1 = (fun _ => Return true) <$> ms →
  Qle_bool 0 timeout = true →
  ∃ out,
    (receive_n (send_all b ms now).2 agent timeout (length ms)).1 = Some <$> out
    ∧ out ≡ₚ ms
    ∧ StronglySorted key_le out
    ∧ (StronglySorted ts_lt ms → out = priority_fifo ms).
Proof.
  intros Hempty Hrec Hok Ht.
  pose proof (send_all_mailbox agent now ms b Hrec Hok) as Hq.
  rewrite Hempty in Hq.
  destruct (HeapqProps.pushall_spec Message_lt Message_lt_asym key_le_trans
              ms [] (HeapqProps.is_heap_nil Message_lt)) as [Hheap Hperm].
  rewrite app_nil_r in Hperm. rewrite <- Hq in Hheap, Hperm.
  set (heap := queue (mailbox (send_all b ms now).2 agent)) in *.
  assert (Hlen : length heap = length ms) by by apply Permutation_length.
  destruct (HeapqProps.popall_spec Message_lt Message_lt_asym key_le_trans
              (length ms) heap) as [Hsorted Hout]; [lia|done|].
  exists (Heapq.popall Message_lt (length ms) heap).
  split; [by apply receive_n_popall|]. split; [by rewrite Hout|].
  split; [done|]. intros Hts.
  destruct (priority_fifo_from [] ms) as [Hfs Hfp];
    [constructor|done|by intros ? ? ?%elem_of_nil|].
  rewrite app_nil_r in Hfp.
  apply (StronglySorted_unique_strong key_le); [|done|done|].
  - intros x y Hx Hy Hxy Hyx.
    apply key_le_spec in Hxy. apply key_le_spec in Hyx.
    apply (ts_lt_sorted_eq ms); [done| | |lia].
    + by rewrite <- Hperm, <- Hout.
    + unfold priority_fifo in Hy. by rewrite Hfp in Hy.
  - unfold priority_fifo. by rewrite Hout, Hperm, Hfp.
Qed.

(** ** The examples *)

Example receive_abc :
  (receive_n (send_all (new_broker 1000) abc 10).2 "agent2" 1 3).1
  = [Some (msg HIGH "b" 2); Some (msg NORMAL "a" 1); Some (msg LOW "c" 3)].
Proof. by vm_compute. Qed.

Lemma receive_order_witness :
  ∃ out,
    (receive_n (send_all (new_broker 1000) abc 10).2 "agent2" 1 3).1
    = Some <$> out
    ∧ out ≡ₚ abc ∧ StronglySorted key_le out
    ∧ (StronglySorted ts_lt abc → out = priority_fifo abc).
Proof.
  apply (receive_order (new_broker 1000) "agent2" abc 10 1).
  - done.
  - by repeat constructor.
  - by vm_compute.
  - done.
Defined.

(** C2 (what the code does): the mailbox is not first-in-first-out among
    equal priorities.  Two NORMAL messages are sent to the empty mailbox of
    "agent2": first "x", then "y", which was created before "x".  Both
    sends succeed, and the two [receive_message] calls that follow return
    "y" and then "x", whereas priority order with a first-in-first-out
    fallback is "x" and then "y". *)
Theorem receive_not_fifo :
  (send_all (new_broker 1000) late_first 10).1 = [Return true; Return true]
  ∧ (receive_n (send_all (new_broker 1000) late_first 10).2 "agent2" 1 2).1
    = [Some (msg NORMAL "y" 1); Some (msg NORMAL "x" 2)]
  ∧ priority_fifo late_first = [msg NORMAL "x" 2; msg NORMAL "y" 1]
  ∧ (receive_n (send_all (new_broker 1000) late_first 10).2 "agent2" 1 2).1
    ≠ Some <$> priority_fifo late_first.
Proof. repeat split; by vm_compute. Qed.

(** Nor does the send order decide among messages created at the same
    instant: the heap returns four such messages as 1, 3, 2, 4. *)
Example receive_same_instant :
  (receive_n (send_all (new_broker 1000) same_instant 10).2 "agent2" 1 4).1
  = [Some (msg NORMAL "1" 0); Some (msg NORMAL "3" 0);
     Some (msg NORMAL "2" 0); Some (msg NORMAL "4" 0)].
Proof. by vm_compute. Qed.

End MailboxProps.

(* ===================================================================== *)
(** * Properties of list slices *)
(* ===================================================================== *)

Module SliceProps.

Lemma last_slice_suffix {A} (l : list A) limit :
  ∃ skipped, l = skipped ++ last_slice l limit.
Proof.
  unfold last_slice. destruct (limit =? 0)%Z; [by exists []|].
  destruct (0 <? limit)%Z; eexists; symmetry; apply take_drop.
Qed.

Lemma last_slice_length {A} (l : list A) limit :
  length (last_slice l limit)
  = if (limit =? 0)%Z then length l
    else if (0 <? limit)%Z then length l `min` Z.to_nat limit
    else length l - Z.to_nat (- limit).
Proof.
  unfold last_slice. destruct (limit =? 0)%Z; [done|].
  destruct (0 <? limit)%Z; rewrite length_drop; lia.
Qed.

Lemma last_slice_all {A} (l : list A) (max : Z) :
  (0 < max)%Z → (Z.of_nat (length l) ≤ max)%Z → last_slice l max = l.
Proof.
  intros Hm Hl. unfold last_slice.
  destruct (Z.eqb_spec max 0); [lia|].
  destruct (Z.ltb_spec 0 max); [|lia].
  by replace (length l - Z.to_nat max) with 0 by lia.
Qed.

Lemma last_slice_app {A} (l r : list A) (max : Z) :
  (0 < max)%Z →
  last_slice (last_slice l max ++ r) max = last_slice (l ++ r) max.
Proof.
  intros Hm. unfold last_slice.
  destruct (Z.eqb_spec max 0); [lia|].
  destruct (Z.ltb_spec 0 max); [|lia].
  destruct (decide (length l ≤ Z.to_nat max)) as [Hle|Hgt].
  - by replace (length l - Z.to_nat max) with 0 by lia.
  - rewrite !length_app, length_drop.
    replace (length l - (length l - Z.to_nat max) + length r - Z.to_nat max)
      with (length r) by lia.
    replace (length l + length r - Z.to_nat max)
      with ((length l - Z.to_nat max) + length r) by lia.
    rewrite <- drop_drop. f_equal. rewrite drop_app_le by lia. done.
Qed.


End SliceProps.

(* ===================================================================== *)
(** * Properties of the broker's queries, broadcast and event bus *)
(* ===================================================================== *)

Module BrokerExtProps.
Import Protocol Broker BrokerExt SliceProps.

Lemma ring_push_length {A} max (l : list A) x :
  (0 < max)%Z → (Z.of_nat (length l) ≤ max)%Z →
  (Z.of_nat (length (ring_push max l x)) ≤ max)%Z.
Proof.
  intros Hm Hl. unfold ring_push. rewrite length_app. simpl.
  destruct (Z.leb_spec max (Z.of_nat (length l))).
  - destruct l; simpl in *; lia.
  - lia.
Qed.

Lemma ring_push_slice {A} max (l : list A) x :
  (0 < max)%Z → (Z.of_nat (length l) ≤ max)%Z →
  ring_push max l x = last_slice (l ++ [x]) max.
Proof.
  intros Hm Hl. unfold ring_push, last_slice.
  destruct (Z.eqb_spec max 0); [lia|].
  destruct (Z.ltb_spec 0 max); [|lia].
  rewrite length_app. simpl.
  destruct (Z.leb_spec max (Z.of_nat (length l))).
  - assert (length l = Z.to_nat max) as Hlen by lia.
    replace (length l + 1 - Z.to_nat max) with 1 by lia.
    destruct l; [simpl in *; lia|done].
  - replace (length l + 1 - Z.to_nat max) with 0 by lia. done.
Qed.

Lemma add_message_push (d : DeadLetterQueue) m reason now :
  (0 < max_messages d)%Z →
  add_message d m reason now
  = Return (mkDeadLetterQueue
              (ring_push (max_messages d) (messages d)
                 (mkDLQEntry (to_dict m) reason now))
              (max_messages d)).
Proof.
  intros Hmax. unfold add_message, ring_push.
  destruct (Z.leb_spec (max_messages d) (Z.of_nat (length (messages d)))).
  - destruct (messages d) as [|e l] eqn:E; simpl in *; [lia|done].
  - done.
Qed.

Lemma record_message_push (b : MessageBroker) m :
  (0 < max_history b)%Z →
  _record_message b m
  = Return (set_history b
              (ring_push (max_history b) (message_history b) (to_dict m))).
Proof.
  intros Hmax. unfold _record_message, ring_push.
  destruct (Z.leb_spec (max_history b) (Z.of_nat (length (message_history b)))).
  - destruct (message_history b) as [|e l] eqn:E; simpl in *; [lia|done].
  - done.
Qed.

(** The whole effect of one [send_message] on a broker with positive
    capacities. *)
Lemma send_message_state (b : MessageBroker) (m : Message) (now : Z) :
  (0 < max_history b)%Z →
  (0 < max_messages (dead_letter_queue b))%Z →
  let q := mailbox b (recipient m) in
  send_message b m now
  = (Return (negb (queue_full q)),
     mkMessageBroker
       (<[recipient m := (put q m).2]> (message_queues b))
       (if queue_full q
        then mkDeadLetterQueue
               (ring_push (max_messages (dead_letter_queue b))
                  (messages (dead_letter_queue b))
                  (mkDLQEntry (to_dict m) "Queue full" now))
               (max_messages (dead_letter_queue b))
        else dead_letter_queue b)
       (max_queue_size b)
       (if queue_full q then message_history b
        else ring_push (max_history b) (message_history b) (to_dict m))
       (max_history b)).
Proof.
  intros Hh Hd q. unfold send_message.
  destruct (BrokerProps.get_or_create_queue_spec b (recipient m))
    as (Hq & Hqs & Hdl & Hhi & Hmh & Hmq).
  destruct (_get_or_create_queue b (recipient m)) as [q0 b1]. simpl in *.
  subst q0. fold q. unfold put.
  destruct (queue_full q) eqn:Hfull.
  - rewrite add_message_push by by rewrite Hdl. simpl.
    unfold set_dlq, set_queues. simpl.
    rewrite Hqs, Hdl, Hhi, Hmh, Hmq. by rewrite insert_insert_eq.
  - simpl. rewrite record_message_push by (simpl; by rewrite Hmh). simpl.
    unfold set_history, set_queues. simpl.
    rewrite Hqs, Hdl, Hhi, Hmh, Hmq. by rewrite insert_insert_eq.
Qed.

Lemma receive_message_state (b : MessageBroker) agent timeout :
  let q := mailbox b agent in
  receive_message b agent timeout
  = ((get q timeout).1,
     mkMessageBroker (<[agent := (get q timeout).2]> (message_queues b))
       (dead_letter_queue b) (max_queue_size b) (message_history b)
       (max_history b)).
Proof.
  intros q. unfold receive_message.
  destruct (BrokerProps.get_or_create_queue_spec b agent)
    as (Hq & Hqs & Hdl & Hhi & Hmh & Hmq).
  destruct (_get_or_create_queue b agent) as [q0 b1]. simpl in *.
  subst q0. fold q. destruct (get q timeout) as [r q']. simpl.
  unfold set_queues. rewrite Hqs, Hdl, Hhi, Hmh, Hmq.
  by rewrite insert_insert_eq.
Qed.

(** ** Capacities *)

Lemma send_message_bounded b m now :
  bounded b → bounded (send_message b m now).2.
Proof.
  intros (Hh & Hd & Hlh & Hld).
  rewrite (send_message_state b m now Hh Hd). unfold bounded. simpl.
  destruct (queue_full _); simpl; repeat split; try done.
  - by apply ring_push_length.
  - by apply ring_push_length.
Qed.


Lemma clear_dlq_bounded b : bounded b → bounded (clear_dlq b).
Proof.
  intros (Hh & Hd & Hlh & Hld). unfold bounded, clear_dlq. simpl.
  repeat split; try done. lia.
Qed.

Section Runs.
Variable keys : gmap string MessageQueue → list string.

(** Whatever [send_message] preserves, [broadcast_message] preserves. *)
Lemma broadcast_loop_preserves (P : MessageBroker → Prop) :
  (∀ b m now, P b → P (send_message b m now).2) →
  ∀ agents b m ex stamp dstamp n,
    P b → P (broadcast_loop b m ex stamp dstamp agents n).2.
Proof.
  intros Hsend agents.
  induction agents as [|a agents IH]; intros b m ex stamp dstamp n HP; [done|].
  simpl. case_bool_decide; [|by apply IH].
  specialize (Hsend b (make_copy m a (stamp a)) (dstamp a) HP).
  destruct (send_message b _ _) as [[[]|k e] b']; simpl in *; auto.
Qed.

Lemma run_ops_preserves (P : MessageBroker → Prop) :
  (∀ b m now, P b → P (send_message b m now).2) →
  (∀ b a t, P b → P (receive_message b a t).2) →
  (∀ b, P b → P (clear_dlq b)) →
  ∀ ops b, P b → P (run_ops keys b ops).
Proof.
  intros Hs Hr Hc ops.
  induction ops as [|op ops IH]; intros b HP; [done|].
  simpl. apply IH. destruct op; simpl; auto.
  unfold broadcast_message. by apply broadcast_loop_preserves.
Qed.

(** X1: the capacities of the history and of the dead-letter queue are never
    exceeded.  Whatever sequence of [send_message], [receive_message],
    [broadcast_message] and [clear_dlq] calls a broker has served since its
    construction, [message_history] holds at most 1000 entries and the
    dead-letter queue at most 500. *)
Theorem history_and_dlq_bounded (max_queue : Z) (ops : list BrokerOp) :
  length (message_history (run_ops keys (new_broker max_queue) ops)) ≤ 1000
  ∧ length
      (messages (dead_letter_queue (run_ops keys (new_broker max_queue) ops)))
    ≤ 500.
Proof.
  assert (H : bounded (run_ops keys (new_broker max_queue) ops)
              ∧ max_history (run_ops keys (new_broker max_queue) ops) = 1000%Z
              ∧ max_messages
                  (dead_letter_queue (run_ops keys (new_broker max_queue) ops))
                = 500%Z).
  { apply (run_ops_preserves
             (fun b => bounded b ∧ max_history b = 1000%Z
                       ∧ max_messages (dead_letter_queue b) = 500%Z)).
    - intros b m now (Hb & Hh & Hd). split; [by apply send_message_bounded|].
      destruct Hb as (H1 & H2 & _).
      rewrite (send_message_state b m now H1 H2). simpl.
      split; [done|]. by destruct (queue_full _).
    - intros b a t (Hb & Hh & Hd). by rewrite receive_message_state.
    - intros b (Hb & Hh & Hd). split; [by apply clear_dlq_bounded|done].
    - unfold bounded. simpl. lia. }
  destruct H as ((_ & _ & H1 & H2) & Hh & Hd). rewrite Hh in H1.
  rewrite Hd in H2. lia.
Qed.

(** ** Mailboxes *)









(** ** Broadcast *)





End Runs.

(** ** The dead-letter queue and the history as bounded logs *)

(** X4: the dead-letter queue keeps the most recent entries.  On a queue
    with a positive capacity that holds no more than its capacity, any run
    of [add_message] calls succeeds, and afterwards the queue holds the
    last [max_messages] entries of the old content followed by the new
    entries, in that order. *)
Theorem dlq_keeps_latest (d : DeadLetterQueue)
  (calls : list (Message * string * Z)) :
  (0 < max_messages d)%Z →
  (Z.of_nat (length (messages d)) ≤ max_messages d)%Z →
  add_messages d calls
  = Return (mkDeadLetterQueue
              (last_slice (messages d ++ (entry_of <$> calls))
                 (max_messages d))
              (max_messages d)).
Proof.
  revert d. induction calls as [|[[m reason] now] calls IH]; intros d Hm Hl.
  - simpl. rewrite app_nil_r, last_slice_all by done. by destruct d.
  - simpl. rewrite add_message_push by done.
    rewrite IH; simpl; [|done|by apply ring_push_length].
    rewrite ring_push_slice by done.
    rewrite last_slice_app by done. by rewrite <- app_assoc.
Qed.

(** What the [limit] of [get_messages] selects.  The result is always a
    suffix of the stored entries.  A positive limit selects the last
    [limit] entries (all of them when fewer are stored); the limit [0]
    selects every entry, not none; a negative limit [-k] drops the oldest
    [k] entries. *)
Lemma get_messages_limit (d : DeadLetterQueue) (limit : Z) :
  (∃ older, messages d = older ++ get_messages d limit)
  ∧ length (get_messages d limit)
    = if (limit =? 0)%Z then length (messages d)
      else if (0 <? limit)%Z then length (messages d) `min` Z.to_nat limit
      else length (messages d) - Z.to_nat (- limit).
Proof.
  unfold get_messages. split;
    [apply last_slice_suffix|apply last_slice_length].
Qed.


(** ** The event bus *)

Section BusFacts.
Context {Callable : Type} `{EqDecision Callable}.
Implicit Types bus : EventBus Callable.

Lemma list_remove_spec (x : Callable) (l : list Callable) :
  if decide (x ∈ l)
  then ∃ l1 l2, l = l1 ++ x :: l2 ∧ (x ∉ l1)
                ∧ list_remove x l = Return (l1 ++ l2)
  else list_remove x l = Raise "ValueError" "list.remove(x): x not in list".
Proof.
  induction l as [|y l IH].
  - rewrite decide_False; [done|]. apply not_elem_of_nil.
  - cbn [list_remove]. destruct (decide (y = x)) as [->|Hne].
    + rewrite decide_True by left. exists [], l. split; [done|].
      split; [apply not_elem_of_nil|done].
    + destruct (decide (x ∈ l)) as [Hin|Hnin].
      * rewrite decide_True by by right.
        destruct IH as (l1 & l2 & -> & Hx & ->).
        exists (y :: l1), l2. split; [done|]. split; [|done].
        apply not_elem_of_cons. split; [done|done].
      * rewrite decide_False.
        -- by rewrite IH.
        -- apply not_elem_of_cons. split; [done|done].
Qed.

(** When [unsubscribe] fails.  The call raises [ValueError] exactly when
    the event type has had a subscriber and the callback is not subscribed
    to it at the time of the call; for an event type that never had a
    subscriber it does nothing.  Otherwise it removes the earliest
    subscription of the callback and leaves the other subscriptions, and
    their order, as they were. *)
Lemma unsubscribe_spec bus (et : string) (callback : Callable) :
  match subscribers bus !! et with
  | None => unsubscribe bus et callback = Return bus
  | Some l =>
      if decide (callback ∈ l)
      then ∃ l1 l2, l = l1 ++ callback :: l2 ∧ (callback ∉ l1)
                    ∧ unsubscribe bus et callback
                      = Return (mkEventBus (<[et := l1 ++ l2]> (subscribers bus)))
      else unsubscribe bus et callback
           = Raise "ValueError" "list.remove(x): x not in list"
  end.
Proof.
  unfold unsubscribe. destruct (subscribers bus !! et) as [l|]; [|done].
  pose proof (list_remove_spec callback l) as H.
  destruct (decide (callback ∈ l)).
  - destruct H as (l1 & l2 & Hl & Hx & ->). by exists l1, l2.
  - by rewrite H.
Qed.

(** X6: a second [unsubscribe] fails, the first restores the subscribers.
    After [subscribe(et, c)] for a callback [c] that was not subscribed to
    [et], [unsubscribe(et, c)] succeeds and leaves the subscribers of [et]
    as they were before; unsubscribing [c] once more raises [ValueError],
    because the event type stays registered. *)
Theorem subscribe_unsubscribe bus (et : string) (callback : Callable) :
  callback ∉ default [] (subscribers bus !! et) →
  ∃ bus',
    unsubscribe (subscribe bus et callback) et callback = Return bus'
    ∧ default [] (subscribers bus' !! et) = default [] (subscribers bus !! et)
    ∧ (∀ et', et' ≠ et → subscribers bus' !! et' = subscribers bus !! et')
    ∧ unsubscribe bus' et callback
      = Raise "ValueError" "list.remove(x): x not in list".
Proof.
  intros Hnin. set (l := default [] (subscribers bus !! et)) in *.
  pose proof (unsubscribe_spec (subscribe bus et callback) et callback) as H.
  simpl in H. rewrite lookup_insert_eq in H. fold l in H.
  rewrite decide_True in H by (apply elem_of_app; right; left).
  destruct H as (l1 & l2 & Hl & Hx & Hun).
  assert (l1 = l ∧ l2 = []) as [-> ->].
  { assert (Hlen : ¬ length l1 < length l).
    { intros Hlt. apply Hnin.
      assert (Hk : (l ++ [callback]) !! length l1 = Some callback).
      { rewrite Hl. by rewrite list_lookup_middle. }
      rewrite lookup_app_l in Hk by done.
      by eapply list_elem_of_lookup_2. }
    assert (Hlen' : ¬ length l < length l1).
    { intros Hlt. apply Hx.
      assert (Hk : (l1 ++ callback :: l2) !! length l = Some callback).
      { rewrite <- Hl. by rewrite list_lookup_middle. }
      rewrite lookup_app_l in Hk by done.
      by eapply list_elem_of_lookup_2. }
    assert (Heq : length l1 = length l) by lia.
    apply app_inj_1 in Hl as [H1 H2]; [|done].
    split; [done|]. by injection H2. }
  rewrite app_nil_r in Hun. eexists. split; [exact Hun|]. simpl.
  rewrite lookup_insert_eq. split; [done|]. split.
  - intros et' Hne. by rewrite !lookup_insert_ne.
  - pose proof (unsubscribe_spec
                  (mkEventBus (<[et:=l]> (subscribers (subscribe bus et callback))))
                  et callback) as H.
    simpl in H. rewrite lookup_insert_eq in H.
    by rewrite decide_False in H.
Qed.

Lemma calls_app (e1 e2 : list (BusEvent (Callable := Callable))) :
  calls (e1 ++ e2) = calls e1 ++ calls e2.
Proof. unfold calls. apply omap_app. Qed.

Lemma calls_publish_list raises ev (l : list Callable) :
  calls
    (flat_map
       (fun callback =>
          Called callback ev ::
          match raises callback ev with
          | Some e => [Printed ("Error in event callback: " +:+ e)]
          | None => []
          end) l)
  = l.
Proof.
  induction l as [|c l IH]; [done|]. simpl.
  rewrite calls_app, IH. by destruct (raises c ev).
Qed.

(** [publish] calls every subscriber, also after a failure.  Whatever
    the callbacks do (return or raise), publishing an event calls exactly
    the callbacks subscribed to its type, once per subscription and in the
    order of subscription; callbacks subscribed to other types are not
    called. *)
Lemma publish_calls_all bus raises (ev : EventData) :
  calls (publish bus raises ev)
  = default [] (subscribers bus !! event_type ev).
Proof. unfold publish. apply calls_publish_list. Qed.

End BusFacts.

Lemma subscribe_unsubscribe_witness :
  ∃ bus',
    unsubscribe (subscribe (new_bus : EventBus string) "evt" "cb") "evt" "cb"
    = Return bus'
    ∧ unsubscribe bus' "evt" "cb"
      = Raise "ValueError" "list.remove(x): x not in list".
Proof.
  destruct (subscribe_unsubscribe (new_bus : EventBus string) "evt" "cb")
    as (bus' & H1 & _ & _ & H2).
  - cbn. apply not_elem_of_nil.
  - by exists bus'.
Defined.



Lemma dlq_keeps_latest_witness :
  add_messages (mkDeadLetterQueue [] 2)
    [(msg NORMAL "a" 1, "r1", 10%Z); (msg NORMAL "b" 2, "r2", 20%Z);
     (msg NORMAL "c" 3, "r3", 30%Z)]
  = Return (mkDeadLetterQueue
              [mkDLQEntry (to_dict (msg NORMAL "b" 2)) "r2" 20;
               mkDLQEntry (to_dict (msg NORMAL "c" 3)) "r3" 30] 2).
Proof.
  rewrite dlq_keeps_latest; [reflexivity|reflexivity|by vm_compute].
Defined.


End BrokerExtProps.

(* ===================================================================== *)
(** * Properties of the task table, the scheduler and the graphs *)
(* ===================================================================== *)

Module WorkflowExtProps.
Import Workflow WorkflowExt.

(** ** The task table *)

Lemma dict_get_set {V} (d : list (string * V)) k v k' :
  dict_get (dict_set d k v) k'
  = if decide (k' = k) then Some v else dict_get d k'.
Proof.
  induction d as [|[k0 v0] d IH]; simpl.
  - case_bool_decide; case_decide; congruence.
  - destruct (decide (k0 = k)) as [->|Hne].
    + rewrite bool_decide_eq_true_2 by done. simpl.
      case_bool_decide; case_decide; congruence.
    + rewrite bool_decide_eq_false_2 by done. simpl. rewrite IH.
      case_bool_decide; case_decide; congruence.
Qed.

Lemma dict_get_del {V} (d : list (string * V)) k k' :
  dict_get (dict_del d k) k'
  = if decide (k' = k) then None else dict_get d k'.
Proof.
  unfold dict_del. induction d as [|[k0 v0] d IH]; simpl.
  - by case_decide.
  - rewrite filter_cons. simpl. destruct (decide (k0 ≠ k)) as [Hne|Heq].
    + simpl. rewrite IH. case_bool_decide; case_decide; congruence.
    + assert (k0 = k) as -> by (by apply dec_stable). rewrite IH.
      case_bool_decide; case_decide; congruence.
Qed.

Lemma dict_keys_set {V} (d : list (string * V)) k v :
  dict_keys (dict_set d k v)
  = if decide (k ∈ dict_keys d) then dict_keys d else dict_keys d ++ [k].
Proof.
  unfold dict_keys. induction d as [|[k0 v0] d IH].
  - rewrite decide_False; [done|]. apply not_elem_of_nil.
  - cbn [dict_set]. destruct (decide (k0 = k)) as [->|Hne].
    + rewrite bool_decide_eq_true_2 by done.
      rewrite decide_True; [done|]. simpl. left.
    + rewrite bool_decide_eq_false_2 by done. cbn [map fst]. rewrite IH.
      destruct (decide (k ∈ map fst d)) as [Hin|Hnin].
      * rewrite decide_True; [done|]. by right.
      * rewrite decide_False; [done|]. apply not_elem_of_cons. by split.
Qed.

Lemma dict_keys_del {V} (d : list (string * V)) k :
  dict_keys (dict_del d k) = filter (fun k' => k' ≠ k) (dict_keys d).
Proof.
  unfold dict_keys, dict_del. induction d as [|[k0 v0] d IH]; [done|].
  simpl. rewrite !filter_cons. simpl.
  destruct (decide (k0 ≠ k)); simpl; by rewrite IH.
Qed.

(** X7: the task table behaves as a dictionary.  [get_task] after
    [add_task] returns the added task for its id and what it returned
    before for every other id; a task added under an existing id replaces
    the old one in its position, a new id goes to the end; [remove_task]
    returns [True] exactly when the id is present, and afterwards
    [get_task] returns [None] for that id and is unchanged for the
    others. *)
Theorem task_table_laws (w : Workflow) (t : Task) (tid tid' : string) :
  get_task (add_task w t) tid
  = (if decide (tid = task_id t) then Some t else get_task w tid)
  ∧ dict_keys (tasks (add_task w t))
    = (if decide (task_id t ∈ dict_keys (tasks w)) then dict_keys (tasks w)
       else dict_keys (tasks w) ++ [task_id t])
  ∧ (remove_task w tid).1 = bool_decide (is_Some (get_task w tid))
  ∧ get_task (remove_task w tid).2 tid'
    = (if decide (tid' = tid) then None else get_task w tid').
Proof.
  split; [apply dict_get_set|]. split; [apply dict_keys_set|].
  unfold remove_task, get_task.
  pose proof (WorkflowProps.dict_get_is_Some (tasks w) tid) as Hk.
  case_bool_decide as Hin.
  - split; [symmetry; apply bool_decide_eq_true; by apply Hk|].
    apply dict_get_del.
  - split; [symmetry; apply bool_decide_eq_false; by rewrite Hk|].
    simpl. case_decide as E; [|done]. subst tid'.
    by apply WorkflowProps.dict_get_None.
Qed.

(** X8: task ids stay unique.  Whatever tasks are added to and removed from
    a workflow that starts without tasks, no id occurs twice in the task
    table, and [get_task] finds a task exactly under the id it was added
    with. *)
Theorem task_ids_unique (wid nm : string) (st : WorkflowStrategy)
  (ops : list TableOp) :
  NoDup (dict_keys (tasks (foldl apply_table_op (mkWorkflow wid nm [] st) ops)))
  ∧ ∀ tid t,
      get_task (foldl apply_table_op (mkWorkflow wid nm [] st) ops) tid
      = Some t → task_id t = tid.
Proof.
  assert (H : ∀ w,
    NoDup (dict_keys (tasks w))
    ∧ (∀ tid t, get_task w tid = Some t → task_id t = tid) →
    NoDup (dict_keys (tasks (foldl apply_table_op w ops)))
    ∧ (∀ tid t, get_task (foldl apply_table_op w ops) tid = Some t →
                task_id t = tid)).
  { induction ops as [|op ops IH]; intros w Hw; [done|].
    simpl. apply IH. destruct Hw as [Hnd Hid]. destruct op as [t|k]; simpl.
    - split.
      + rewrite dict_keys_set. case_decide; [done|].
        apply NoDup_app. split; [done|]. split; [|apply NoDup_singleton].
        intros x Hx ->%list_elem_of_singleton. done.
      + intros tid t'. unfold get_task. simpl. rewrite dict_get_set.
        case_decide as E; [|apply Hid]. by intros [= <-].
    - unfold remove_task. case_bool_decide; simpl; [|done]. split.
      + rewrite dict_keys_del. by apply NoDup_filter.
      + intros tid t'. unfold get_task. simpl. rewrite dict_get_del.
        case_decide; [done|apply Hid]. }
  apply H. split; [apply NoDup_nil_2|]. by intros tid t.
Qed.

(** ** The scheduler *)

Lemma insert_prio_perm x l : insert_prio x l ≡ₚ x :: l.
Proof.
  induction l as [|y l IH]; [done|]. simpl.
  destruct (priority y <? priority x)%Z; [|done].
  by rewrite IH, perm_swap.
Qed.

Lemma sorted_prio_perm l : sorted_prio l ≡ₚ l.
Proof.
  induction l as [|x l IH]; [done|]. simpl.
  by rewrite insert_prio_perm, IH.
Qed.

Lemma insert_prio_sorted x l :
  StronglySorted prio_le l → StronglySorted prio_le (insert_prio x l).
Proof.
  induction 1 as [|y l Hs IH Hall]; simpl.
  - constructor; [constructor|done].
  - destruct (Z.ltb_spec (priority y) (priority x)).
    + constructor; [done|]. rewrite insert_prio_perm.
      constructor; [unfold prio_le; lia|done].
    + constructor; [by constructor|]. constructor; [done|].
      eapply Forall_impl; [exact Hall|]. unfold prio_le. simpl. lia.
Qed.

Lemma sorted_prio_sorted l : StronglySorted prio_le (sorted_prio l).
Proof.
  induction l as [|x l IH]; [constructor|]. simpl. by apply insert_prio_sorted.
Qed.

Lemma insert_prio_stable p x l :
  filter (fun t => priority t = p) (insert_prio x l)
  = filter (fun t => priority t = p) (x :: l).
Proof.
  induction l as [|y l IH]; [done|]. simpl.
  destruct (Z.ltb_spec (priority y) (priority x)); [|done].
  rewrite filter_cons, IH, !filter_cons.
  destruct (decide (priority y = p)), (decide (priority x = p)); try done.
  lia.
Qed.

Lemma sorted_prio_stable p l :
  filter (fun t => priority t = p) (sorted_prio l)
  = filter (fun t => priority t = p) l.
Proof.
  induction l as [|x l IH]; [done|]. simpl.
  by rewrite insert_prio_stable, !filter_cons, IH.
Qed.

Lemma StronglySorted_filter {A} (R : A → A → Prop) (P : A → Prop)
  `{!∀ x, Decision (P x)} (l : list A) :
  StronglySorted R l → StronglySorted R (filter P l).
Proof.
  induction 1 as [|x l Hs IH Hall]; [constructor|].
  rewrite filter_cons. destruct (decide (P x)); [|done].
  constructor; [done|]. apply Forall_forall. intros y Hy.
  apply list_elem_of_filter in Hy as [_ Hy].
  by eapply Forall_forall in Hall.
Qed.

Lemma filter_filter_comm {A} (P Q : A → Prop) `{!∀ x, Decision (P x)}
  `{!∀ x, Decision (Q x)} (l : list A) :
  filter P (filter Q l) = filter Q (filter P l).
Proof.
  induction l as [|x l IH]; [done|]. rewrite !filter_cons.
  destruct (decide (Q x)), (decide (P x)); rewrite ?filter_cons;
    repeat (rewrite decide_True by done); repeat (rewrite decide_False by done);
    by rewrite IH.
Qed.

(** X9: [schedule] orders the pending tasks by priority, stably.  The
    returned ids are those of the tasks that were [PENDING], each once, in
    ascending order of [priority]; tasks of equal priority keep the order
    in which they were added to the workflow.  Dependencies play no part
    in the order. *)
Theorem schedule_order (w : Workflow) :
  ∃ todo : list Task,
    (schedule w).1 = map task_id todo
    ∧ todo ≡ₚ filter (fun t => is_pending (status t)) (map snd (tasks w))
    ∧ StronglySorted prio_le todo
    ∧ ∀ p, filter (fun t => priority t = p) todo
           = filter (fun t => priority t = p)
               (filter (fun t => is_pending (status t)) (map snd (tasks w))).
Proof.
  eexists. split; [done|]. split; [|split].
  - by rewrite sorted_prio_perm.
  - apply StronglySorted_filter, sorted_prio_sorted.
  - intros p.
    rewrite !(filter_filter_comm (fun t => priority t = p)).
    by rewrite sorted_prio_stable.
Qed.

(** X10: [schedule] leaves nothing to schedule.  After the call no task of
    the workflow is [PENDING], the task ids and their order are unchanged,
    and scheduling the same workflow again returns the empty list. *)
Theorem schedule_twice (w : Workflow) :
  (∀ kv, kv ∈ tasks (schedule w).2 → status kv.2 ≠ PENDING)
  ∧ dict_keys (tasks (schedule w).2) = dict_keys (tasks w)
  ∧ (schedule (schedule w).2).1 = [].
Proof.
  assert (Hnp : ∀ kv, kv ∈ tasks (schedule w).2 → status kv.2 ≠ PENDING).
  { intros kv Hkv. simpl in Hkv.
    apply list_elem_of_fmap in Hkv as ([k t] & -> & _). simpl.
    by destruct (status t) eqn:E; simpl; rewrite ?E. }
  split; [done|]. split.
  - simpl. unfold dict_keys. rewrite map_map. apply map_ext.
    intros [k t]. simpl. by destruct (status t).
  - unfold schedule at 1. cbn [fst].
    replace (filter (fun t => is_pending (status t))
               (sorted_prio (map snd (tasks (schedule w).2)))) with (@nil Task);
      [done|].
    symmetry. apply Permutation_nil_r. rewrite sorted_prio_perm.
    apply Permutation_nil_r.
    revert Hnp. generalize (tasks (schedule w).2). intros l Hnp.
    induction l as [|kv l IH]; [done|].
    simpl. rewrite filter_cons.
    assert (status kv.2 ≠ PENDING) by (apply Hnp; left).
    destruct (decide (is_pending (status kv.2))) as [Hp|_].
    { exfalso. by destruct (status kv.2). }
    apply IH. intros kv' Hkv'. apply Hnp. by right.
Qed.

Lemma next_tasks_drain (q : list string) ts eo :
  (next_tasks (mkTaskScheduler q ts eo) (length q + 1)).1
  = (Some <$> q) ++ [None].
Proof.
  induction q as [|x q IH]; [done|]. simpl.
  destruct (next_tasks (mkTaskScheduler q ts eo) (length q + 1)) as [rs s2].
  simpl in *. by rewrite IH.
Qed.

(** The ready queue hands out the scheduled tasks in order.  After
    [schedule], successive [get_next_task] calls return the ids that were
    still queued before the call, then the ids of the new execution order,
    in that order, and then [None]; [execution_order] holds the new order
    only; and [task_status] holds, for every task, the status it had before
    the call, so a task just marked [READY] is recorded as [PENDING]. *)
Lemma ready_queue_fifo (s : TaskScheduler) (w : Workflow) :
  (next_tasks (schedule_on s w).1.2
     (length (ready_queue s ++ (schedule w).1) + 1)).1
  = (Some <$> (ready_queue s ++ (schedule w).1)) ++ [None]
  ∧ execution_order (schedule_on s w).1.2 = (schedule w).1
  ∧ ∀ tid, dict_get (task_status (schedule_on s w).1.2) tid
           = status <$> get_task w tid.
Proof.
  unfold schedule_on. destruct (schedule w) as [order w'] eqn:E. cbn [fst snd].
  split; [apply next_tasks_drain|]. split; [done|].
  intros tid. simpl. unfold get_task.
  induction (tasks w) as [|[k t] l IH]; [done|]. simpl.
  by case_bool_decide.
Qed.

(** ** The graphs of the resolver *)

Section GraphFacts.

Variable iter : gset string -> list string.
Hypothesis iter_spec : ∀ s x, x ∈ iter s ↔ x ∈ s.

Lemma add_edges_rev r tid deps t d :
  t ∈ graph_get (reverse_graph (add_edges r tid deps)) d
  ↔ t ∈ graph_get (reverse_graph r) d ∨ (t = tid ∧ d ∈ deps).
Proof.
  unfold add_edges. revert r.
  induction deps as [|x deps IH]; intros r; simpl.
  - rewrite elem_of_nil. naive_solver.
  - rewrite IH. simpl. rewrite WorkflowProps.graph_get_add, elem_of_cons.
    case_decide; set_solver.
Qed.

Lemma fill_graphs_rev_from r ts t d :
  t ∈ graph_get
        (reverse_graph
           (fold_left (fun r kv => add_edges r kv.1 (iter (dependencies kv.2)))
              ts r)) d
  ↔ t ∈ graph_get (reverse_graph r) d
    ∨ ∃ task, (t, task) ∈ ts ∧ d ∈ dependencies task.
Proof.
  revert r. induction ts as [|[k task] ts IH]; intros r; simpl.
  - setoid_rewrite elem_of_nil. naive_solver.
  - rewrite IH, add_edges_rev. simpl. rewrite iter_spec.
    setoid_rewrite elem_of_cons. split.
    + intros [[?|[-> ?]]|(task' & ? & ?)]; [by left|right..].
      * exists task. by split; [left|].
      * exists task'. by split; [right|].
    + intros [?|(task' & [[= -> ->]|?] & ?)].
      * by left; left.
      * left. right. done.
      * right. by exists task'.
Qed.

(** X11: what [build_graph] builds and returns.  The call returns, and it
    returns [True] exactly when no task depends on itself through a chain
    of dependencies.  Whatever it returns, afterwards
    [get_dependencies(t)] holds exactly the dependencies declared by the
    task [t], and [get_dependents(d)] exactly the tasks that declare [d]:
    the reverse graph is the converse of the dependency graph. *)
Theorem build_graph_spec (w : Workflow) :
  (∃ b, (build_graph iter w).1 = Some b ∧ (b = true ↔ acyclic w))
  ∧ (∀ t d, d ∈ get_dependencies (build_graph iter w).2 t ↔ edge w t d)
  ∧ (∀ t d, t ∈ get_dependents (build_graph iter w).2 d
            ↔ d ∈ get_dependencies (build_graph iter w).2 t).
Proof.
  assert (Hdep : ∀ t d,
            d ∈ get_dependencies (build_graph iter w).2 t ↔ edge w t d).
  { intros t d. apply (WorkflowProps.fill_graphs_edge iter iter_spec w). }
  split; [|split; [done|]].
  - unfold build_graph.
    destruct (WorkflowProps.has_cycle_correct iter iter_spec w)
      as (c & Hc & Hac & _).
    cbn [fst]. rewrite Hc. exists (negb c). split; [done|].
    rewrite <- Hac. by destruct c.
  - intros t d. rewrite Hdep. unfold get_dependents, build_graph. cbn [snd].
    unfold fill_graphs. rewrite fill_graphs_rev_from.
    unfold new_resolver, graph_get, edge. simpl. rewrite lookup_empty. simpl.
    set_solver.
Qed.

(** A valid workflow gets the scheduler's plan.  For a workflow with at
    least one task, an acyclic dependency relation and no dependency on a
    missing task, [get_execution_plan] returns the list that [schedule]
    returns, leaves the workflow as [schedule] leaves it, and leaves the
    resolver with the graphs of this workflow. *)
Lemma execution_plan_valid (r : DependencyResolver) (w : Workflow) :
  tasks w ≠ [] → acyclic w → deps_closed w →
  get_execution_plan iter r w
  = (Some (Some (schedule w).1), (build_graph iter w).2, (schedule w).2).
Proof.
  intros Hne Hac Hdc. unfold get_execution_plan, validate_workflow.
  destruct (tasks w) as [|kv ts] eqn:Ets; [done|]. rewrite <- Ets.
  unfold build_graph.
  destruct (WorkflowProps.has_cycle_correct iter iter_spec w)
    as (c & -> & Hiff & _).
  apply Hiff in Hac. subst c. cbn [fmap option_fmap option_map negb].
  apply (WorkflowProps.deps_exist_closed iter iter_spec) in Hdc.
  rewrite Hdc. by destruct (schedule w).
Qed.

(** ** The length of the critical path *)

Section Chains.
Variable w : Workflow.
Abbreviation g := (dependency_graph (fill_graphs iter (tasks w))).

Lemma chain_bound pl :
  consistent g pl →
  ∀ c x n, head c = Some x → follows_edges w c → dict_get pl x = Some n →
           length c ≤ n.
Proof.
  intros Hc c. induction c as [|x c IH]; intros x0 n Hhd Hf Hn; [done|].
  injection Hhd as ->. destruct c as [|y c].
  - simpl. by eapply WorkflowProps.consistent_positive.
  - destruct Hf as [Hxy Hf].
    apply (WorkflowProps.fill_graphs_edge iter iter_spec) in Hxy.
    destruct (Hc x0 n Hn) as [Hdeps ->].
    pose proof (Hdeps y Hxy) as Hy.
    apply WorkflowProps.dict_get_is_Some in Hy as [m Hm].
    specialize (IH y m eq_refl Hf Hm).
    assert (m ≤ max_over pl (graph_get g x0)); [|simpl in *; lia].
    unfold max_over.
    pose proof (WorkflowProps.max_list_with_ge
                  (fun d => default 0 (dict_get pl d))
                  (elements (graph_get g x0)) y) as Hge.
    simpl in Hge. rewrite Hm in Hge. apply Hge. by apply elem_of_elements.
Qed.

Lemma chain_exists pl :
  consistent g pl →
  ∀ n x, dict_get pl x = Some n →
         ∃ c, head c = Some x ∧ follows_edges w c ∧ length c = n.
Proof.
  intros Hc n. induction (lt_wf n) as [n _ IH]. intros x Hn.
  destruct (Hc x n Hn) as [Hdeps Hval]. unfold max_over in Hval.
  destruct (elements (graph_get g x)) as [|d0 l] eqn:El.
  - exists [x]. by subst n.
  - destruct (WorkflowProps.max_list_with_attained
                (fun d => default 0 (dict_get pl d)) (d0 :: l))
      as (d & Hd & Hmax); [done|].
    rewrite <- El in Hd. apply elem_of_elements in Hd.
    pose proof (Hdeps d Hd) as Hk.
    apply WorkflowProps.dict_get_is_Some in Hk as [m Hm].
    simpl in Hmax. rewrite Hm in Hmax. simpl in Hmax. simpl in Hval.
    destruct (IH m) with (x := d) as (c & Hhd & Hf & Hlen); [lia|done|].
    exists (x :: c). split; [done|]. split; [|simpl; lia].
    destruct c as [|y c]; [done|]. injection Hhd as ->.
    split; [|done]. by apply (WorkflowProps.fill_graphs_edge iter iter_spec).
Qed.

Lemma recorded_mono pl :
  consistent g pl →
  ∀ t x, rtc (gedge g) t x →
         ∀ n, dict_get pl t = Some n → ∃ m, dict_get pl x = Some m ∧ m ≤ n.
Proof.
  intros Hc t x Hrtc. induction Hrtc as [t|t y x Hty _ IH]; intros n Hn.
  - by exists n.
  - destruct (Hc t n Hn) as [Hdeps ->].
    pose proof (Hdeps y Hty) as Hy.
    apply WorkflowProps.dict_get_is_Some in Hy as [k Hk].
    destruct (IH k Hk) as (m & Hm & Hle). exists m. split; [done|].
    assert (k ≤ max_over pl (graph_get g t)); [|lia].
    unfold max_over.
    pose proof (WorkflowProps.max_list_with_ge
                  (fun d => default 0 (dict_get pl d))
                  (elements (graph_get g t)) y) as Hge.
    simpl in Hge. rewrite Hk in Hge. apply Hge. by apply elem_of_elements.
Qed.

Lemma lengths_loop_reach fuel ids pl pl' :
  (∀ x, ¬ tc (gedge g) x x) →
  lengths_loop iter g fuel ids pl = Some pl' → consistent g pl →
  ∀ x, x ∈ dict_keys pl' →
       x ∈ dict_keys pl ∨ ∃ t, t ∈ ids ∧ rtc (gedge g) t x.
Proof.
  intros Hnc. revert pl.
  induction ids as [|t ids IH]; intros pl Hrun Hc x Hx; simpl in Hrun.
  - injection Hrun as <-. by left.
  - destruct (calculate_length iter g fuel t pl) as [[n pl1]|] eqn:Ecalc;
      [|done].
    destruct (WorkflowProps.calculate_length_spec iter iter_spec g Hnc
                _ _ _ _ _ Ecalc Hc) as (ext1 & -> & Hc1 & Hget & Hext).
    destruct (IH _ Hrun Hc1 x Hx) as [Hin|(t' & Ht' & Hr)].
    + unfold dict_keys in Hin. rewrite map_app in Hin.
      apply elem_of_app in Hin as [Hin|Hin]; [by left|].
      right. exists t. split; [left|]. by apply Hext.
    + right. exists t'. split; [by right|done].
Qed.

(** X12: the critical path is as long as the longest dependency chain.
    After [build_graph] on an acyclic workflow, [get_critical_path] returns
    (once the recursion is given enough levels) a list with as many
    entries as the longest chain that starts at a task of the workflow and
    goes from each element to one of its declared dependencies: no such
    chain is longer, and unless the workflow is empty one is exactly as
    long. *)
Theorem critical_path_length :
  acyclic w →
  ∃ fuel0, ∀ fuel, fuel0 ≤ fuel →
    ∃ path,
      get_critical_path iter (build_graph iter w).2 w fuel = Some path
      ∧ (∀ c, dep_chain w c → length c ≤ length path)
      ∧ (tasks w ≠ [] → ∃ c, dep_chain w c ∧ length c = length path).
Proof.
  intros Hac.
  pose proof (WorkflowProps.acyclic_no_cycle iter iter_spec w Hac) as Hnc.
  destruct (WorkflowProps.acyclic_fuel iter iter_spec w Hac) as [fuel0 Hfuel].
  exists fuel0. intros fuel Hle.
  destruct (WorkflowProps.lengths_loop_total iter iter_spec g fuel
              (dict_keys (tasks w)) []) as [pl Hpl].
  { intros t Ht. by apply Hfuel. }
  destruct (WorkflowProps.lengths_loop_spec iter iter_spec g Hnc _ _ _ _ Hpl
              (WorkflowProps.consistent_nil g)) as (Hc & Hall & _).
  assert (Hnd : NoDup (dict_keys pl)).
  { eapply WorkflowProps.lengths_loop_NoDup; [done|]. apply NoDup_nil_2. }
  destruct (WorkflowProps.collect_path_consistent iter iter_spec g pl Hc Hnd)
    as [Hlen _].
  unfold get_critical_path, path_lengths, build_graph. cbn [snd].
  rewrite Hpl. eexists. split; [done|]. rewrite Hlen. split.
  - intros c [(x & Hhd & Hx) Hf].
    apply Hall, WorkflowProps.dict_get_is_Some in Hx as [n Hn].
    etrans; [by eapply chain_bound|].
    eapply WorkflowProps.max_length_ge.
    by apply WorkflowProps.dict_get_Some_elem.
  - intros Hne.
    assert (Hpos : 1 ≤ max_length pl).
    { assert (∃ k, k ∈ dict_keys (tasks w)) as [k Hk0].
      { clear -Hne. revert Hne. destruct (tasks w) as [|[k t] ts]; [done|].
        intros _. exists k. left. }
      assert (Hk : k ∈ dict_keys pl) by (by apply Hall).
      apply WorkflowProps.dict_get_is_Some in Hk as [n Hn].
      pose proof (WorkflowProps.consistent_positive g pl k n Hc Hn).
      pose proof (WorkflowProps.max_length_ge pl k n
                    (WorkflowProps.dict_get_Some_elem _ _ _ Hn)).
      lia. }
    destruct (WorkflowProps.max_length_attained pl Hpos) as [x Hx].
    assert (Hxk : x ∈ dict_keys pl).
    { unfold dict_keys. apply list_elem_of_fmap. by exists (x, max_length pl). }
    apply (WorkflowProps.dict_get_NoDup _ _ _ Hnd) in Hx.
    destruct (lengths_loop_reach _ _ _ _ Hnc Hpl (WorkflowProps.consistent_nil g)
                x Hxk) as [Hin|(t & Ht & Hreach)].
    { by apply elem_of_nil in Hin. }
    pose proof (Hall t Ht) as Htk.
    apply WorkflowProps.dict_get_is_Some in Htk as [n Hn].
    destruct (recorded_mono pl Hc t x Hreach n Hn) as (m & Hm & Hmn).
    rewrite Hx in Hm. injection Hm as <-.
    pose proof (WorkflowProps.max_length_ge pl t n
                  (WorkflowProps.dict_get_Some_elem _ _ _ Hn)) as Hmax.
    assert (n = max_length pl) as -> by lia.
    destruct (chain_exists pl Hc _ t Hn) as (c & Hhd & Hf & Hlc).
    exists c. split; [|done]. split; [|done]. by exists t.
Qed.

End Chains.

(** ** The critical path without a graph *)

Lemma iter_empty : iter ∅ = [].
Proof.
  destruct (iter ∅) as [|x l] eqn:E; [done|].
  assert (x ∈ iter ∅) as Hx by (rewrite E; left).
  apply iter_spec in Hx. set_solver.
Qed.

Lemma lengths_loop_no_graph fuel ids pl :
  Forall (fun kv => kv.2 = 1) pl →
  ∃ pl', lengths_loop iter ∅ (S fuel) ids pl = Some pl'
         ∧ Forall (fun kv => kv.2 = 1) pl'
         ∧ head (dict_keys pl')
           = match pl with [] => head ids | kv :: _ => Some kv.1 end.
Proof.
  revert pl. induction ids as [|t ids IH]; intros pl Hone.
  - exists pl. split; [done|]. split; [done|]. by destruct pl.
  - cbn [lengths_loop calculate_length].
    destruct (dict_get pl t) as [n|] eqn:Eg.
    + destruct (IH pl Hone) as (pl' & Hrun & Hone' & Hhd).
      exists pl'. split; [done|]. split; [done|].
      rewrite Hhd. destruct pl; [done|done].
    + unfold graph_get. rewrite lookup_empty. cbn [default].
      rewrite iter_empty. cbn [max_dep_loop].
      rewrite WorkflowProps.dict_set_absent by done.
      destruct (IH (pl ++ [(t, 0 + 1)])) as (pl' & Hrun & Hone' & Hhd).
      { apply Forall_app. split; [done|]. by constructor. }
      exists pl'. split; [done|]. split; [done|].
      rewrite Hhd. by destruct pl.
Qed.

Lemma sorted_desc_ones pl :
  Forall (fun kv : string * nat => kv.2 = 1) pl → sorted_desc pl = pl.
Proof.
  induction 1 as [|[k v] pl Hv Hone IH]; [done|]. simpl in *. subst v.
  rewrite IH. destruct pl as [|[k' v'] pl]; [done|].
  apply Forall_cons in Hone as [Hv' _]. simpl in *. by subst v'.
Qed.

Lemma collect_path_below pl :
  Forall (fun kv : string * nat => kv.2 = 1) pl → collect_path pl 0 = [].
Proof.
  induction 1 as [|[k v] pl Hv Hone IH]; [done|]. simpl in *. by subst v.
Qed.

(** X13: without [build_graph] the critical path is the first task.  On a
    resolver whose graphs are empty, as after construction,
    [get_critical_path] returns (given at least one level of recursion)
    the list that holds the first task id of the workflow and nothing
    else, and the empty list for a workflow without tasks, whatever
    dependencies the tasks declare. *)
Theorem critical_path_without_graph (w : Workflow) (fuel : nat) :
  get_critical_path iter new_resolver w (S fuel)
  = Some (take 1 (dict_keys (tasks w))).
Proof.
  unfold get_critical_path, path_lengths. cbn [new_resolver dependency_graph].
  destruct (lengths_loop_no_graph fuel (dict_keys (tasks w)) [])
    as (pl & -> & Hone & Hhd); [done|].
  f_equal. rewrite sorted_desc_ones by done.
  destruct pl as [|[k v] pl].
  - simpl in *. by destruct (dict_keys (tasks w)).
  - apply Forall_cons in Hone as [Hv Hone]. simpl in Hv. subst v.
    assert (Hmax : max_length ((k, 1) :: pl) = 1).
    { unfold max_length. simpl.
      assert (foldr Nat.max 0 (map snd pl) ≤ 1); [|lia].
      clear Hhd. induction Hone as [|[k' v'] pl Hv' _ IH]; simpl in *; lia. }
    rewrite Hmax. simpl. rewrite collect_path_below by done.
    simpl in Hhd. destruct (dict_keys (tasks w)); [done|].
    simpl in *. by injection Hhd as ->.
Qed.

End GraphFacts.

Lemma build_graph_spec_witness :
  ∃ b, (build_graph elements diamond_workflow).1 = Some b
       ∧ (b = true ↔ acyclic diamond_workflow).
Proof.
  apply (build_graph_spec elements WorkflowProps.elements_iter
           diamond_workflow).
Defined.

Lemma critical_path_length_witness :
  ∃ fuel path,
    get_critical_path elements (build_graph elements diamond_workflow).2
      diamond_workflow fuel = Some path
    ∧ ∀ c, dep_chain diamond_workflow c → length c ≤ length path.
Proof.
  destruct (critical_path_length elements WorkflowProps.elements_iter
              diamond_workflow WorkflowProps.diamond_acyclic) as [fuel0 H].
  destruct (H fuel0 (le_n fuel0)) as (path & Hp & Hle & _).
  by exists fuel0, path.
Defined.

Lemma critical_path_without_graph_witness :
  get_critical_path elements new_resolver diamond_workflow 1 = Some ["A"].
Proof.
  rewrite (critical_path_without_graph elements WorkflowProps.elements_iter
             diamond_workflow 0).
  by vm_compute.
Defined.

End WorkflowExtProps.

(* ===================================================================== *)
(** * workflow_manager.py: what the critical path holds *)
(* ===================================================================== *)

Module CriticalPathProps.
Import Workflow WorkflowExt.

Lemma declared_edge (w : Workflow) t d : d ∈ declared w t ↔ edge w t d.
Proof.
  unfold declared, edge. rewrite elem_of_union_list. split.
  - intros (X & HX & Hd). apply list_elem_of_fmap in HX as ([k task] & -> & Hin).
    simpl in Hd. case_bool_decide as Hk; [|set_solver]. simpl in Hk. subst k.
    by exists task.
  - intros (task & Hin & Hd). eexists. split.
    + apply list_elem_of_fmap. by exists (t, task).
    + simpl. by rewrite bool_decide_eq_true_2.
Qed.

Lemma chain_length_unique (w : Workflow) t n m :
  chain_length w t n → chain_length w t m → n = m.
Proof.
  intros [(c & Hc1 & Hc2 & <-) Hn] [(c' & Hc1' & Hc2' & <-) Hm].
  apply Nat.le_antisymm; [by apply Hm|by apply Hn].
Qed.

Lemma find_first {A} (P : A → bool) (l : list A) x :
  find P l = Some x →
  ∃ l1 l2, l = l1 ++ x :: l2 ∧ P x = true ∧ ∀ y, y ∈ l1 → P y = false.
Proof.
  induction l as [|a l IH]; [done|]. simpl.
  destruct (P a) eqn:Ea.
  - intros [= ->]. exists [], l. split; [done|]. split; [done|].
    by intros ? ?%elem_of_nil.
  - intros (l1 & l2 & -> & Hx & Hl1)%IH. exists (a :: l1), l2.
    split; [done|]. split; [done|].
    intros y [->|Hy]%elem_of_cons; [done|by apply Hl1].
Qed.

Lemma measured_app deps seen l1 mid l2 order :
  measured deps seen l1 mid → measured deps mid l2 order →
  measured deps seen (l1 ++ l2) order.
Proof.
  intros H1 H2. induction H1 as [seen|seen t ts o Ht _ IH|seen t ts m o Ht Hd _ _ IH];
    simpl.
  - done.
  - apply measured_known; [done|by apply IH].
  - eapply measured_new; [done|done|by apply IH].
Qed.

(** The order of recording is determined by the tasks and the order in
    which dependencies are visited. *)
Lemma measured_functional deps seen ts o1 o2 :
  measured deps seen ts o1 → measured deps seen ts o2 → o1 = o2.
Proof.
  intros H1. revert o2.
  induction H1 as [seen|seen t ts o Ht _ IH|seen t ts m o Ht _ IHd _ IH];
    intros o2 H2; inversion H2; subst; try done.
  - by apply IH.
  - apply IH. by rewrite (IHd _ ltac:(eassumption)).
Qed.

Section Facts.
Variable iter : gset string → list string.
Hypothesis iter_spec : ∀ s x, x ∈ iter s ↔ x ∈ s.

Section Order.
Variable w : Workflow.
Abbreviation g := (dependency_graph (fill_graphs iter (tasks w))).
Abbreviation deps := (fun t => iter (declared w t)).
Hypothesis no_cycle : ∀ x, ¬ tc (gedge g) x x.

Lemma graph_get_declared t : graph_get g t = declared w t.
Proof.
  apply set_eq. intros d. rewrite declared_edge.
  apply (WorkflowProps.fill_graphs_edge iter iter_spec).
Qed.

Lemma max_dep_loop_measured call t :
  (∀ d pl n pl', call d pl = Some (n, pl') → consistent g pl →
                 calc_post g d pl n pl'
                 ∧ measured deps (dict_keys pl) [d] (dict_keys pl')) →
  ∀ l acc pl mx pl',
    max_dep_loop call l acc pl = Some (mx, pl') → consistent g pl →
    (∀ d, d ∈ l → gedge g t d) →
    measured deps (dict_keys pl) l (dict_keys pl').
Proof.
  intros Hcall l. induction l as [|d l IH]; intros acc pl mx pl' Hrun Hc Hl;
    simpl in Hrun.
  - injection Hrun as <- <-. constructor.
  - destruct (call d pl) as [[n pl1]|] eqn:Ecall; [|done].
    destruct (Hcall d pl n pl1 Ecall Hc) as [(ext1 & -> & Hc1 & _) Hm].
    apply (measured_app deps _ [d] _ l _ Hm).
    eapply IH; [done|done|]. intros ? ?. apply Hl. by right.
Qed.

Lemma calculate_length_measured fuel t pl n pl' :
  calculate_length iter g fuel t pl = Some (n, pl') → consistent g pl →
  measured deps (dict_keys pl) [t] (dict_keys pl').
Proof.
  revert t pl n pl'. induction fuel as [|fuel IH]; intros t pl n pl' Hrun Hc;
    [done|].
  simpl in Hrun. destruct (dict_get pl t) as [n0|] eqn:Eget.
  - injection Hrun as <- <-. apply measured_known; [|constructor].
    apply WorkflowProps.dict_get_is_Some. by eexists.
  - destruct (max_dep_loop (calculate_length iter g fuel)
                (iter (graph_get g t)) 0 pl) as [[mx pl1]|] eqn:Eloop; [|done].
    injection Hrun as <- <-.
    assert (Hedges : ∀ d, d ∈ iter (graph_get g t) → gedge g t d).
    { intros d Hd. by apply iter_spec in Hd. }
    destruct (WorkflowProps.max_dep_loop_spec iter iter_spec g
                (calculate_length iter g fuel) t
                (WorkflowProps.calculate_length_spec iter iter_spec g no_cycle
                   fuel)
                _ _ _ _ _ Eloop Hc Hedges)
      as (ext & -> & Hc1 & Hin & Hmx & Hnew).
    assert (Habs : dict_get (pl ++ ext) t = None).
    { apply WorkflowProps.dict_get_None.
      rewrite WorkflowProps.dict_keys_app, elem_of_app.
      intros [Ht|Ht].
      - by apply WorkflowProps.dict_get_None in Eget.
      - destruct (Hnew t Ht) as [Hcyc _]. by apply no_cycle in Hcyc. }
    rewrite (WorkflowProps.dict_set_absent _ _ _ Habs).
    rewrite (WorkflowProps.dict_keys_app (pl ++ ext)). simpl.
    apply measured_new with (mid := dict_keys (pl ++ ext)); [| |constructor].
    + by apply WorkflowProps.dict_get_None in Eget.
    + simpl. rewrite <- graph_get_declared.
      apply (max_dep_loop_measured (calculate_length iter g fuel) t)
        with (acc := 0) (mx := mx); [|done|done|done].
      intros d pl0 n0 pl0' Hcall Hc0. split.
      * by eapply WorkflowProps.calculate_length_spec.
      * by eapply IH.
Qed.

Lemma lengths_loop_measured fuel ids pl pl' :
  lengths_loop iter g fuel ids pl = Some pl' → consistent g pl →
  measured deps (dict_keys pl) ids (dict_keys pl').
Proof.
  revert pl. induction ids as [|t ids IH]; intros pl Hrun Hc; simpl in Hrun.
  - injection Hrun as <-. constructor.
  - destruct (calculate_length iter g fuel t pl) as [[n pl1]|] eqn:Ecalc;
      [|done].
    destruct (WorkflowProps.calculate_length_spec iter iter_spec g no_cycle
                _ _ _ _ _ Ecalc Hc) as (ext1 & Heq & Hc1 & _).
    apply (measured_app deps _ [t] (dict_keys pl1) ids).
    + by eapply calculate_length_measured.
    + by apply IH.
Qed.

Lemma first_with_first_such pl len t :
  NoDup (dict_keys pl) →
  (∀ u n, dict_get pl u = Some n → chain_length w u n) →
  first_with pl len = Some t →
  first_such (dict_keys pl) (fun u => chain_length w u len) t.
Proof.
  intros Hnd Hlen Hf. unfold first_with in Hf.
  destruct (find _ pl) as [[k v]|] eqn:Efind; [|done].
  injection Hf as ->.
  destruct (find_first _ _ _ Efind) as (l1 & l2 & -> & Hv & Hl1).
  simpl in Hv. apply Nat.eqb_eq in Hv. subst v.
  exists (dict_keys l1), (dict_keys l2).
  split; [by rewrite WorkflowProps.dict_keys_app|]. split.
  - apply Hlen. apply WorkflowProps.dict_get_NoDup; [done|].
    apply elem_of_app. right. left.
  - intros y Hy Hcl. apply list_elem_of_fmap in Hy as ([k v] & -> & Hin).
    simpl in Hcl.
    assert (Hk : dict_get (l1 ++ (t, len) :: l2) k = Some v).
    { apply WorkflowProps.dict_get_NoDup; [done|]. apply elem_of_app. by left. }
    pose proof (chain_length_unique _ _ _ _ (Hlen _ _ Hk) Hcl) as ->.
    specialize (Hl1 _ Hin). simpl in Hl1. by rewrite Nat.eqb_refl in Hl1.
Qed.

(** The largest recorded length is the length of the longest dependency
    chain of the workflow. *)
Lemma max_length_longest fuel pl :
  lengths_loop iter g fuel (dict_keys (tasks w)) [] = Some pl →
  (∀ c, dep_chain w c → length c ≤ max_length pl)
  ∧ (tasks w ≠ [] → ∃ c, dep_chain w c ∧ length c = max_length pl).
Proof.
  intros Hpl.
  destruct (WorkflowProps.lengths_loop_spec iter iter_spec g no_cycle _ _ _ _
              Hpl (WorkflowProps.consistent_nil g)) as (Hc & Hall & _).
  assert (Hnd : NoDup (dict_keys pl)).
  { eapply WorkflowProps.lengths_loop_NoDup; [done|]. apply NoDup_nil_2. }
  split.
  - intros c [(x & Hhd & Hx) Hf].
    apply Hall, WorkflowProps.dict_get_is_Some in Hx as [n Hn].
    etrans; [by eapply (WorkflowExtProps.chain_bound iter iter_spec w)|].
    eapply WorkflowProps.max_length_ge.
    by apply WorkflowProps.dict_get_Some_elem.
  - intros Hne.
    assert (∃ k, k ∈ dict_keys (tasks w)) as [k Hk0].
    { clear -Hne. revert Hne. destruct (tasks w) as [|[k t] ts]; [done|].
      intros _. exists k. left. }
    assert (Hpos : 1 ≤ max_length pl).
    { assert (Hk : k ∈ dict_keys pl) by (by apply Hall).
      apply WorkflowProps.dict_get_is_Some in Hk as [n Hn].
      pose proof (WorkflowProps.consistent_positive g pl k n Hc Hn).
      pose proof (WorkflowProps.max_length_ge pl k n
                    (WorkflowProps.dict_get_Some_elem _ _ _ Hn)).
      lia. }
    destruct (WorkflowProps.max_length_attained pl Hpos) as [x Hx].
    assert (Hxk : x ∈ dict_keys pl).
    { unfold dict_keys. apply list_elem_of_fmap. by exists (x, max_length pl). }
    apply (WorkflowProps.dict_get_NoDup _ _ _ Hnd) in Hx.
    destruct (WorkflowExtProps.lengths_loop_reach iter iter_spec w _ _ _ _
                no_cycle Hpl (WorkflowProps.consistent_nil g) x Hxk)
      as [Hin|(t & Ht & Hreach)].
    { by apply elem_of_nil in Hin. }
    pose proof (Hall t Ht) as Htk.
    apply WorkflowProps.dict_get_is_Some in Htk as [n Hn].
    destruct (WorkflowExtProps.recorded_mono iter w pl Hc t x Hreach n Hn)
      as (m & Hm & Hmn).
    rewrite Hx in Hm. injection Hm as <-.
    pose proof (WorkflowProps.max_length_ge pl t n
                  (WorkflowProps.dict_get_Some_elem _ _ _ Hn)) as Hmax.
    assert (n = max_length pl) as -> by lia.
    destruct (WorkflowExtProps.chain_exists iter iter_spec w pl Hc _ t Hn)
      as (c & Hhd & Hf & Hlc).
    exists c. split; [|done]. split; [|done]. by exists t.
Qed.

End Order.

Lemma diamond_chains :
  dep_chain diamond_workflow ["D"; "B"; "A"]
  ∧ ∀ c, follows_edges diamond_workflow c → length c ≤ 3.
Proof.
  split.
  - split.
    + exists "D". split; [done|].
      assert (dict_keys (tasks diamond_workflow) = ["A"; "B"; "C"; "D"]) as ->
        by by vm_compute.
      set_solver.
    + simpl. rewrite !WorkflowProps.diamond_edge. naive_solver.
  - intros [|x [|y [|z [|u c]]]] Hf; simpl; try lia.
    exfalso. simpl in Hf. destruct Hf as (H1 & H2 & H3 & _).
    apply WorkflowProps.diamond_edge in H1, H2, H3. naive_solver.
Qed.

(** C4 (amended): on an acyclic workflow, after [build_graph],
    [get_critical_path] returns once the recursion is given enough levels.
    It records every task, each with the number of elements of the longest
    dependency chain that starts at it, which is one more than the largest
    length recorded for one of its dependencies (one when it has none).
    The tasks are recorded in the order of a depth-first measurement: the
    tasks of the workflow are measured in insertion order, and a task is
    recorded after its dependencies, which are measured in the order in
    which their set is iterated.  The returned path is as long as the longest dependency chain
    of the workflow and holds one task per length value, from the largest
    down to one: each is the first task, in the order of recording, with
    that length.  On the diamond the path has three elements. *)
Theorem critical_path_spec (w : Workflow) :
  acyclic w →
  ∃ fuel0, ∀ fuel, fuel0 ≤ fuel →
    ∃ pl path,
      path_lengths iter (build_graph iter w).2 w fuel = Some pl
      ∧ get_critical_path iter (build_graph iter w).2 w fuel = Some path
      ∧ (∀ t, t ∈ dict_keys (tasks w) → t ∈ dict_keys pl)
      ∧ (∀ t n, dict_get pl t = Some n →
                chain_length w t n ∧ n = S (max_over pl (declared w t)))
      ∧ record_order iter w (dict_keys pl)
      ∧ critical_path_by w (dict_keys pl) path
      ∧ (w = diamond_workflow → length path = 3).
Proof.
  intros Hac.
  pose proof (WorkflowProps.acyclic_no_cycle iter iter_spec w Hac) as Hnc.
  destruct (WorkflowProps.path_lengths_acyclic iter iter_spec w Hac)
    as [fuel0 H].
  exists fuel0. intros fuel Hle.
  destruct (H fuel Hle) as (pl & Hpl & Hc & Hnd & Hall).
  destruct (WorkflowProps.collect_path_consistent iter iter_spec _ pl Hc Hnd)
    as [Hlen Hnth].
  rewrite WorkflowProps.build_graph_resolver.
  unfold get_critical_path. rewrite Hpl.
  set (path := collect_path (sorted_desc pl) (Z.of_nat (max_length pl))) in *.
  assert (Hchain : ∀ t n, dict_get pl t = Some n → chain_length w t n).
  { intros t n Ht. split.
    - by apply (WorkflowExtProps.chain_exists iter iter_spec w pl Hc).
    - intros c Hhd Hf.
      by apply (WorkflowExtProps.chain_bound iter iter_spec w pl Hc c t). }
  destruct (max_length_longest w Hnc fuel pl Hpl) as [Hub Hex].
  rewrite <- Hlen in Hub, Hex.
  exists pl, path. split; [done|]. split; [done|]. split; [done|].
  split.
  { intros t n Ht. split; [by apply Hchain|].
    rewrite <- (graph_get_declared w). by destruct (Hc t n Ht). }
  split; [|split].
  - apply (lengths_loop_measured w Hnc fuel _ [] pl Hpl).
    apply WorkflowProps.consistent_nil.
  - split; [done|]. split; [done|]. intros i t Hi.
    assert (Hlt : i < max_length pl).
    { rewrite <- Hlen. by eapply lookup_lt_Some. }
    destruct (Hnth i Hlt) as [_ Hfirst]. rewrite Hi in Hfirst.
    rewrite Hlen. by apply first_with_first_such.
  - intros ->. destruct diamond_chains as [Hdba Hmax].
    apply Nat.le_antisymm.
    + destruct Hex as (c & [_ Hf] & <-); [done|]. by apply Hmax.
    + by apply (Hub ["D"; "B"; "A"]).
Qed.

End Facts.

Lemma rpq_acyclic : acyclic rpq_workflow.
Proof.
  destruct (WorkflowProps.has_cycle_correct elements
              WorkflowProps.elements_iter rpq_workflow) as (b & Hb & Hiff & _).
  apply Hiff. vm_compute in Hb. by injection Hb as <-.
Qed.

Lemma rpq_chain_length_P : chain_length rpq_workflow "P" 1.
Proof.
  split; [by exists ["P"]|].
  intros [|x [|y c]] Hhd Hf; simpl; try lia.
  injection Hhd as ->. destruct Hf as [(task & Hin & Hd) _]. exfalso.
  change (tasks rpq_workflow)
    with [("R", mk_task "R" {["Q"]}); ("P", mk_task "P" ∅);
          ("Q", mk_task "Q" ∅)] in Hin.
  repeat (apply elem_of_cons in Hin as [[= ->]|Hin]); simpl in Hd;
    [set_solver..|by apply elem_of_nil in Hin].
Qed.

(** The claimed tie-break fails: with R (depending on Q), P and Q added in
    this order, the path is R, Q, although P comes before Q in the
    insertion order of the tasks and its longest chain has one element as
    well. *)
Lemma critical_path_not_by_task_order :
  acyclic rpq_workflow
  ∧ get_critical_path elements (build_graph elements rpq_workflow).2
      rpq_workflow 1000 = Some ["R"; "Q"]
  ∧ ¬ critical_path_by rpq_workflow (dict_keys (tasks rpq_workflow))
        ["R"; "Q"].
Proof.
  split; [apply rpq_acyclic|]. split; [by vm_compute|].
  intros (_ & _ & Hone).
  destruct (Hone 1 "Q" eq_refl) as (before & after & Heq & _ & Hbefore).
  assert (dict_keys (tasks rpq_workflow) = ["R"; "P"; "Q"]) as Hk
    by by vm_compute.
  rewrite Hk in Heq.
  apply (Hbefore "P"); [|apply rpq_chain_length_P].
  destruct before as [|b1 [|b2 [|b3 before]]]; simplify_eq/=.
  - set_solver.
  - by destruct before.
Qed.

(** In the three-task workflow Q is recorded first, as the dependency of
    R, then R, then P. *)
Example rpq_record_order :
  record_order elements rpq_workflow ["Q"; "R"; "P"].
Proof.
  unfold record_order.
  assert (dict_keys (tasks rpq_workflow) = ["R"; "P"; "Q"]) as ->
    by by vm_compute.
  assert (HR : elements (declared rpq_workflow "R") = ["Q"]) by by vm_compute.
  assert (HP : elements (declared rpq_workflow "P") = []) by by vm_compute.
  assert (HQ : elements (declared rpq_workflow "Q") = []) by by vm_compute.
  apply measured_new with (mid := ["Q"]); [set_solver| |].
  - cbv beta. rewrite HR.
    apply measured_new with (mid := []); [set_solver| |constructor].
    cbv beta. rewrite HQ. constructor.
  - apply measured_new with (mid := ["Q"; "R"]); [set_solver| |].
    + cbv beta. rewrite HP. constructor.
    + apply measured_known; [set_solver|constructor].
Qed.

Lemma critical_path_spec_witness :
  ∃ fuel path,
    get_critical_path elements (build_graph elements diamond_workflow).2
      diamond_workflow fuel = Some path
    ∧ length path = 3.
Proof.
  destruct (critical_path_spec elements WorkflowProps.elements_iter
              diamond_workflow WorkflowProps.diamond_acyclic) as [fuel0 H].
  destruct (H fuel0 (le_n fuel0)) as (pl & path & _ & Hp & _ & _ & _ & _ & Hd).
  exists fuel0, path. split; [done|]. by apply Hd.
Defined.

End CriticalPathProps.

(* ===================================================================== *)
(** * Properties of the tracker, the validator and the manager *)
(* ===================================================================== *)

Module StateExtProps.
Import StateManager StateExt.

Section Facts.

Context {PyObj Callable : Type} (truthy_obj : PyObj → bool).

Abbreviation Machine := (StateMachine PyObj Callable).
Abbreviation Edge := (StateTransition PyObj Callable).
Abbreviation Manager := (AdvancedStateManager PyObj Callable).

(** X14: without a context, [can_transition] ignores conditions.  For a
    context that is [None] or falsy the call returns [True] exactly when
    some edge from [from_state] to [to_state] is stored, whatever the
    conditions and guard clauses of the edges are. *)
Theorem can_transition_without_context (m : Machine)
  (from_state to_state : string) (c : Context PyObj) :
  truthy truthy_obj c = false →
  can_transition truthy_obj m from_state to_state c = true
  ↔ ∃ t, t ∈ default [] (transitions m !! from_state)
         ∧ StateManager.to_state t = to_state.
Proof.
  intros Hc. unfold can_transition. rewrite Hc.
  destruct (find _ _) as [t|] eqn:E.
  - apply find_some in E as [Hin Ht]. apply bool_decide_eq_true in Ht.
    apply list_elem_of_In in Hin.
    split; [|by destruct (condition t)]. intros _. by exists t.
  - split; [done|]. intros (t & Hin & Ht).
    apply list_elem_of_In in Hin.
    eapply find_none in E; [|exact Hin]. simpl in E.
    by rewrite bool_decide_eq_true_2 in E.
Qed.

Lemma validate_transition_spec (v : StateValidator) f t :
  validate_transition v f t
  = if forallb (fun rule => rule f t) (rules v) then (true, None)
    else (false, Some ("Validation failed for " +:+ f +:+ " -> " +:+ t)).
Proof.
  unfold validate_transition.
  induction (rules v) as [|r rs IH]; [done|]. simpl.
  destruct (r f t); simpl; [apply IH|done].
Qed.

Lemma edge_enabled_condition c (t : Edge) :
  edge_enabled truthy_obj c t = true → condition_holds truthy_obj c t = true.
Proof.
  unfold edge_enabled, condition_holds. by intros [? _]%andb_prop.
Qed.

Lemma guard_free_enabled c (t : Edge) :
  guard_clauses t = [] →
  edge_enabled truthy_obj c t = condition_holds truthy_obj c t.
Proof.
  intros Hg. unfold edge_enabled, condition_holds. rewrite Hg. simpl.
  by rewrite andb_true_r.
Qed.

Lemma find_ext_in {A} (f g : A → bool) (l : list A) :
  (∀ x, x ∈ l → f x = g x) → find f l = find g l.
Proof.
  induction l as [|x l IH]; intros H; [done|]. simpl.
  rewrite (H x) by left. rewrite IH; [done|].
  intros y Hy. apply H. by right.
Qed.

Lemma guard_free_select (m : Machine) c :
  guard_free m →
  select_transition truthy_obj m c
  = find (condition_holds truthy_obj c) (outgoing m).
Proof.
  intros Hg. unfold select_transition. apply find_ext_in.
  intros t Ht. apply guard_free_enabled.
  unfold outgoing in Ht.
  destruct (transitions m !! current_state m) as [ts|] eqn:E;
    [|by apply elem_of_nil in Ht].
  by apply (Hg (current_state m) ts).
Qed.

(** X15: a rejected request leaves no trace, except when a guard clause
    fails.  If [transition_with_validation] returns [False] with a message
    other than "Transition failed" (no edge's condition holds, or a
    validation rule rejects the move), the manager is unchanged: no audit
    entry is written, no snapshot recorded and no callable run.  With the
    message "Transition failed" the machine has recorded one failure entry
    in its audit trail and stays in its state, and the tracker is
    unchanged. *)
Theorem rejected_request (mgr : Manager) trig c usr eid now sid ts now_d now_c :
  (transition_with_validation truthy_obj mgr trig c usr eid now sid ts
     now_d now_c).1.1.1 = false →
  if decide ((transition_with_validation truthy_obj mgr trig c usr eid now sid
                ts now_d now_c).1.1.2 = Some "Transition failed")
  then transition_with_validation truthy_obj mgr trig c usr eid now sid ts
         now_d now_c
       = ((false, Some "Transition failed"),
          mkManager (append_audit (machine mgr)
                       (failure_entry (machine mgr) eid now trig usr))
            (tracker mgr) (validator mgr),
          [])
  else (transition_with_validation truthy_obj mgr trig c usr eid now sid ts
          now_d now_c).1.2 = mgr
       ∧ (transition_with_validation truthy_obj mgr trig c usr eid now sid ts
            now_d now_c).2 = [].
Proof.
  unfold transition_with_validation.
  destruct (find _ (outgoing (machine mgr))) as [t0|] eqn:Epre.
  2: { intros _. by rewrite decide_False. }
  rewrite validate_transition_spec.
  destruct (forallb _ (rules (validator mgr))).
  2: { intros _. rewrite decide_False; [done|]. simpl.
       intros H. discriminate H. }
  unfold transition.
  destruct (select_transition truthy_obj (machine mgr) c) as [t|] eqn:Esel.
  - simpl. done.
  - intros _. cbn [fst snd]. by rewrite decide_True.
Qed.

(** X16: what the tracker records when a guard clause intervenes.  When
    [transition_with_validation] returns [True], the machine is in the
    target state of the first outgoing edge whose condition and guard
    clauses all hold, while the tracker records, as its current state and
    in the snapshot it appends, the target state of the first outgoing
    edge whose condition holds, which is also the only move the validator
    was asked about. *)
Theorem accepted_request (mgr : Manager) trig c usr eid now sid ts now_d now_c :
  (transition_with_validation truthy_obj mgr trig c usr eid now sid ts
     now_d now_c).1.1.1 = true →
  ∃ t0 t,
    find (condition_holds truthy_obj c) (outgoing (machine mgr)) = Some t0
    ∧ select_transition truthy_obj (machine mgr) c = Some t
    ∧ (validate_transition (validator mgr) (current_state (machine mgr))
         (to_state t0)).1 = true
    ∧ current_state
        (machine (transition_with_validation truthy_obj mgr trig c usr eid
                    now sid ts now_d now_c).1.2) = to_state t
    ∧ t_current_state
        (tracker (transition_with_validation truthy_obj mgr trig c usr eid
                    now sid ts now_d now_c).1.2) = to_state t0
    ∧ state_history
        (tracker (transition_with_validation truthy_obj mgr trig c usr eid
                    now sid ts now_d now_c).1.2)
      = state_history (tracker mgr)
        ++ [mkStateSnapshot sid (to_state t0) ts
              (if truthy truthy_obj c then c else None) ∅].
Proof.
  unfold transition_with_validation.
  destruct (find _ (outgoing (machine mgr))) as [t0|] eqn:Epre; [|done].
  destruct (validate_transition _ _ _) as [[] err] eqn:Eval; [|done].
  unfold transition.
  destruct (select_transition truthy_obj (machine mgr) c) as [t|] eqn:Esel;
    [|done].
  simpl. intros _. exists t0, t. by rewrite Eval.
Qed.

(** ** Managers without guard clauses *)

Lemma in_sync_step (mgr : Manager) (o : ManagerOp PyObj Callable) :
  guard_free_op o → in_sync mgr → in_sync (apply_manager_op truthy_obj mgr o).
Proof.
  intros Ho (Hg & Hcur & Hcnt & Hlen & Hall).
  destruct o as [st ty|t|st h|st h|rule|trig c usr eid now sid ts nd nc];
    simpl; try done.
  - (* add_transition *)
    unfold add_transition. case_bool_decide; [done|].
    split; [|done]. intros s ts0 t' Hs Ht'. simpl in Hs.
    destruct (decide (s = from_state t)) as [->|Hne].
    + rewrite lookup_insert_eq in Hs. injection Hs as <-.
      apply elem_of_app in Ht' as [Ht'|Ht'].
      * destruct (transitions (machine mgr) !! from_state t) as [l|] eqn:E;
          [|by apply elem_of_nil in Ht'].
        by apply (Hg (from_state t) l).
      * apply list_elem_of_singleton in Ht' as ->. exact Ho.
    + rewrite lookup_insert_ne in Hs by done. by apply (Hg s ts0).
  - (* transition_with_validation *)
    unfold transition_with_validation.
    rewrite <- (guard_free_select (machine mgr) c Hg).
    destruct (select_transition truthy_obj (machine mgr) c) as [t0|] eqn:Esel;
      [|done].
    destruct (validate_transition _ _ _) as [[] err]; [|done].
    unfold transition. rewrite Esel. unfold in_sync. simpl.
    split; [done|]. split; [done|].
    rewrite !length_app, filter_app, length_app. simpl.
    split; [lia|]. split.
    + lia.
    + apply Forall_app. split; [done|]. by constructor.
Qed.

(** X17: without guard clauses the tracker follows the machine.  On a
    manager whose edges carry no guard clauses, and whose machine is moved
    only through [transition_with_validation], after any sequence of calls
    the tracker's current state is the machine's current state, the report's
    [total_transitions] equals its [history_length], which is one more than
    the number of audit entries, and every audit entry records a success:
    "Transition failed" is never returned. *)
Theorem tracker_follows_machine (initial_state sid : string) (ts now_c : Z)
  (ops : list (ManagerOp PyObj Callable)) :
  Forall guard_free_op ops →
  t_current_state
    (tracker (run_manager_ops truthy_obj
                (new_manager truthy_obj initial_state sid ts now_c) ops))
  = current_state
      (machine (run_manager_ops truthy_obj
                  (new_manager truthy_obj initial_state sid ts now_c) ops))
  ∧ total_transitions
      (get_state_report
         (run_manager_ops truthy_obj
            (new_manager truthy_obj initial_state sid ts now_c) ops))
    = history_length
        (get_state_report
           (run_manager_ops truthy_obj
              (new_manager truthy_obj initial_state sid ts now_c) ops))
  ∧ history_length
      (get_state_report
         (run_manager_ops truthy_obj
            (new_manager truthy_obj initial_state sid ts now_c) ops))
    = (1 + audit_entries
             (get_state_report
                (run_manager_ops truthy_obj
                   (new_manager truthy_obj initial_state sid ts now_c) ops)))%Z
  ∧ Forall (fun e => success e = true)
      (audit_trail
         (machine (run_manager_ops truthy_obj
                     (new_manager truthy_obj initial_state sid ts now_c) ops))).
Proof.
  intros Hops.
  assert (H : ∀ mgr, in_sync mgr →
                     in_sync (run_manager_ops truthy_obj mgr ops)).
  { induction Hops as [|o ops Ho _ IH]; intros mgr Hs; [done|].
    simpl. apply IH. by apply in_sync_step. }
  destruct (H (new_manager truthy_obj initial_state sid ts now_c))
    as (Hg & Hcur & Hcnt & Hlen & Hall).
  { split.
    { intros s l t Hs. simpl in Hs. by rewrite lookup_empty in Hs. }
    split; [done|]. split; [done|]. split; [done|]. constructor. }
  split; [done|]. split; [done|]. split; [|done].
  unfold get_state_report. simpl. rewrite Hlen.
  assert (Hf : filter (fun e => success e = true)
                 (audit_trail
                    (machine (run_manager_ops truthy_obj
                                (new_manager truthy_obj initial_state sid ts
                                   now_c) ops)))
               = audit_trail
                   (machine (run_manager_ops truthy_obj
                               (new_manager truthy_obj initial_state sid ts
                                  now_c) ops))).
  { revert Hall. generalize (audit_trail
                    (machine (run_manager_ops truthy_obj
                                (new_manager truthy_obj initial_state sid ts
                                   now_c) ops))).
    intros l Hl. induction Hl as [|e l He _ IH]; [done|].
    rewrite filter_cons, decide_True by done. by rewrite IH. }
  rewrite Hf. lia.
Qed.

End Facts.

Lemma can_transition_without_context_witness :
  can_transition no_truth three_state_machine "INITIAL" "RUNNING" None = true
  ↔ ∃ t : StateTransition unit string,
      t ∈ default [] (transitions three_state_machine !! "INITIAL")
      ∧ to_state t = "RUNNING".
Proof.
  apply (can_transition_without_context no_truth three_state_machine
           "INITIAL" "RUNNING" None).
  reflexivity.
Defined.

Lemma rejected_request_witness :
  (transition_with_validation no_truth
     (new_manager no_truth "INITIAL" "s0" 0 0 : AdvancedStateManager unit string)
     "go" None "system" "e1" 1 "s1" 1 1 1).1.2
  = new_manager no_truth "INITIAL" "s0" 0 0.
Proof.
  pose proof (rejected_request no_truth
                (new_manager no_truth "INITIAL" "s0" 0 0
                 : AdvancedStateManager unit string)
                "go" None "system" "e1" 1 "s1" 1 1 1 eq_refl) as H.
  rewrite decide_False in H by (by vm_compute). apply H.
Defined.

Lemma accepted_request_witness :
  ∃ t0 t : StateTransition unit string,
    to_state t0 = "DONE" ∧ to_state t = "RUNNING"
    ∧ current_state
        (machine (transition_with_validation no_truth guarded_manager "go"
                    None "system" "e1" 1 "s1" 1 1 1).1.2) = to_state t
    ∧ t_current_state
        (tracker (transition_with_validation no_truth guarded_manager "go"
                    None "system" "e1" 1 "s1" 1 1 1).1.2) = to_state t0.
Proof.
  destruct (accepted_request no_truth guarded_manager "go" None "system" "e1" 1
              "s1" 1 1 1 eq_refl)
    as (t0 & t & Hpre & Hsel & _ & Hm & Ht & _).
  exists t0, t. vm_compute in Hpre, Hsel.
  injection Hpre as <-. injection Hsel as <-. by split.
Defined.

Lemma tracker_follows_machine_witness :
  t_current_state
    (tracker (run_manager_ops no_truth
                (new_manager no_truth "INITIAL" "s0" 0 0)
                (three_state_manager_ops
                 ++ [MTransition "go" None "system" "e1" 1 "s1" 1 1 1])))
  = current_state
      (machine (run_manager_ops no_truth
                  (new_manager no_truth "INITIAL" "s0" 0 0)
                  (three_state_manager_ops
                   ++ [MTransition "go" None "system" "e1" 1 "s1" 1 1 1]))).
Proof.
  apply (tracker_follows_machine no_truth "INITIAL" "s0" 0 0
           (three_state_manager_ops
            ++ [MTransition "go" None "system" "e1" 1 "s1" 1 1 1])).
  repeat constructor.
Defined.

End StateExtProps.

(* ===================================================================== *)
(** * Properties of the pool, the distributor and the coordinator *)
(* ===================================================================== *)

Module OrchestratorExtProps.
Import Orchestrator OrchestratorExt.

(** ** The pool *)

Lemma pool_ops_invariant (p : AgentPool) (ops : list PoolOp) :
  ((get_pool_size p ≤ Z.max 0 (max_agents p))%Z ∧ ids_consistent p) →
  (get_pool_size (foldl apply_pool_op p ops) ≤ Z.max 0 (max_agents p))%Z
  ∧ ids_consistent (foldl apply_pool_op p ops).
Proof.
  revert p. induction ops as [|op ops IH]; intros p Hp; [done|]. simpl.
  assert (Hm : max_agents (apply_pool_op p op) = max_agents p).
  { destruct op; simpl.
    - unfold register_agent. by destruct (_ <=? _)%Z.
    - unfold unregister_agent. by case_bool_decide. }
  rewrite <- Hm. apply IH. rewrite Hm. destruct Hp as [Hsz Hid].
  unfold get_pool_size in *. destruct op as [a caps now|a]; simpl.
  - unfold register_agent.
    destruct (Z.leb_spec (max_agents p) (Z.of_nat (size (agents p))));
      simpl; [done|]. split.
    + destruct (agents p !! a) as [x|] eqn:E.
      * rewrite map_size_insert_Some by done. lia.
      * rewrite map_size_insert_None by done. lia.
    + intros k x Hk. simpl in Hk. destruct (decide (k = a)) as [->|Hne].
      * rewrite lookup_insert_eq in Hk. by injection Hk as <-.
      * rewrite lookup_insert_ne in Hk by done. by apply Hid.
  - unfold unregister_agent. case_bool_decide as Hin; simpl; [|done]. split.
    + apply elem_of_dom in Hin as [x Hx].
      rewrite map_size_delete_Some by done. lia.
    + intros k x Hk. simpl in Hk. apply lookup_delete_Some in Hk as [_ Hk].
      by apply Hid.
Qed.

Lemma new_pool_invariant (name : string) (max : Z) :
  (get_pool_size (new_pool name max) ≤ Z.max 0 (max_agents (new_pool name max)))%Z
  ∧ ids_consistent (new_pool name max).
Proof.
  split.
  - unfold get_pool_size. simpl. rewrite map_size_empty. lia.
  - intros k a Hk. simpl in Hk. by rewrite lookup_empty in Hk.
Qed.

(** X18: the pool never exceeds its capacity.  After any sequence of
    [register_agent] and [unregister_agent] calls on a new pool,
    [get_pool_size] is at most [max_agents] (and zero when [max_agents]
    is not positive), and every record is filed under its own id. *)
Theorem pool_capacity (name : string) (max : Z) (ops : list PoolOp) :
  (get_pool_size (foldl apply_pool_op (new_pool name max) ops) ≤ Z.max 0 max)%Z
  ∧ ids_consistent (foldl apply_pool_op (new_pool name max) ops).
Proof.
  apply (pool_ops_invariant (new_pool name max)), new_pool_invariant.
Qed.

(** ** The distributor *)

Lemma first_min_spec {A} (key : A → Z) (x : A) (l : list A) :
  ∃ i, (x :: l) !! i = Some (first_min key x l)
       ∧ ∀ j b, (x :: l) !! j = Some b →
                (key (first_min key x l) ≤ key b)%Z
                ∧ (key b = key (first_min key x l) → i ≤ j).
Proof.
  revert x. induction l as [|y l IH]; intros x.
  - exists 0. split; [done|]. intros [|j] b Hb; [|done].
    injection Hb as <-. split; [simpl; lia|lia].
  - simpl. destruct (Z.ltb_spec (key y) (key x)) as [Hlt|Hge].
    + destruct (IH y) as (i & Hi & Hmin). exists (S i). split; [done|].
      intros [|j] b Hb.
      * injection Hb as <-. destruct (Hmin 0 y eq_refl) as [Hle _].
        split; lia.
      * destruct (Hmin j b Hb) as [Hle Htie]. split; [done|].
        intros Heq. specialize (Htie Heq). lia.
    + destruct (IH x) as (i & Hi & Hmin). destruct i as [|i].
      * exists 0. split; [done|]. intros [|[|j]] b Hb.
        -- injection Hb as <-. split; [|lia].
           by destruct (Hmin 0 x eq_refl).
        -- injection Hb as <-. simpl in Hi. injection Hi as Hi.
           rewrite <- Hi. split; lia.
        -- destruct (Hmin (S j) b Hb) as [Hle _]. split; [done|lia].
      * exists (S (S i)). split; [done|]. intros [|[|j]] b Hb.
        -- injection Hb as <-. destruct (Hmin 0 x eq_refl) as [Hle Htie].
           split; [done|]. intros Heq. specialize (Htie Heq). lia.
        -- injection Hb as <-. destruct (Hmin 0 x eq_refl) as [Hle Htie].
           split; [lia|]. intros Heq.
           assert (key x = key (first_min key x l)) as Hx by lia.
           specialize (Htie Hx). lia.
        -- destruct (Hmin (S j) b Hb) as [Hle Htie]. split; [done|].
           intros Heq. specialize (Htie Heq). lia.
Qed.

(** X19: [_least_loaded] picks the first least-loaded idle agent.  The call
    returns [None] exactly when no agent of the dictionary is idle;
    otherwise it returns the id of an idle agent whose [tasks_completed] no
    idle agent undercuts, and among the idle agents with that count the one
    that comes first in the dictionary. *)
Theorem least_loaded_spec (agents : AgentDict) :
  match _least_loaded agents with
  | None => ∀ a, a ∈ map snd agents → status a ≠ "idle"
  | Some aid =>
      ∃ i a, idle_agents agents !! i = Some a ∧ aid = id a
             ∧ ∀ j b, idle_agents agents !! j = Some b →
                      (tasks_completed a ≤ tasks_completed b)%Z
                      ∧ (tasks_completed b = tasks_completed a → i ≤ j)
  end.
Proof.
  unfold _least_loaded. destruct (idle_agents agents) as [|a rest] eqn:E.
  - intros a Ha Hidle.
    assert (a ∈ idle_agents agents) as Hin
      by (by apply list_elem_of_filter).
    rewrite E in Hin. by apply elem_of_nil in Hin.
  - destruct (first_min_spec tasks_completed a rest) as (i & Hi & Hmin).
    exists i, (first_min tasks_completed a rest). split; [done|].
    split; [done|]. exact Hmin.
Qed.

Lemma idle_agents_elem (agents : AgentDict) a :
  a ∈ idle_agents agents ↔ status a = "idle" ∧ ∃ k, (k, a) ∈ agents.
Proof.
  unfold idle_agents. rewrite list_elem_of_filter, list_elem_of_fmap.
  split.
  - intros [Hs ([k a'] & -> & Hin)]. split; [done|]. by exists k.
  - intros [Hs [k Hin]]. split; [done|]. by exists (k, a).
Qed.

Lemma weighted_loop_elem idle r current x :
  weighted_loop idle r current = Some x → ∃ a, a ∈ idle ∧ x = id a.
Proof.
  revert current. induction idle as [|a idle IH]; intros current; [done|].
  simpl. destruct (Qle_bool _ _).
  - intros [= <-]. exists a. split; [left|done].
  - intros H. destruct (IH _ H) as (b & Hb & ->). exists b.
    split; [by right|done].
Qed.

Lemma no_idle_agents (agents : AgentDict) :
  idle_agents agents = [] → ∀ k a, (k, a) ∈ agents → status a ≠ "idle".
Proof.
  intros E k a Hin Hs.
  assert (a ∈ idle_agents agents) as Ha
    by (apply idle_agents_elem; split; [done|by exists k]).
  rewrite E in Ha. by apply elem_of_nil in Ha.
Qed.

Lemma round_robin_selects (d : TaskDistributor) (agents : AgentDict) :
  agents ≠ [] →
  ∃ k a, (k, a) ∈ agents ∧ (_round_robin d agents).1 = Some k.
Proof.
  intros Hne. unfold _round_robin. cbn [fst].
  assert (Hlt : Z.to_nat (round_robin_index d `mod` Z.of_nat (length agents))
                < length (map fst agents)).
  { rewrite length_map.
    pose proof (Z.mod_pos_bound (round_robin_index d)
                  (Z.of_nat (length agents))) as Hb.
    destruct agents; [done|]. simpl length in *. lia. }
  apply lookup_lt_is_Some_2 in Hlt as [k Hk]. rewrite Hk.
  apply list_elem_of_lookup_2, list_elem_of_fmap in Hk as ([k' a] & -> & Hin).
  by exists k', a.
Qed.

Lemma least_loaded_selects (agents : AgentDict) :
  match _least_loaded agents with
  | Some aid => ∃ k a, (k, a) ∈ agents ∧ aid = id a ∧ status a = "idle"
  | None => ∀ k a, (k, a) ∈ agents → status a ≠ "idle"
  end.
Proof.
  unfold _least_loaded. destruct (idle_agents agents) as [|a rest] eqn:E.
  { by apply no_idle_agents. }
  destruct (first_min_spec tasks_completed a rest) as (i & Hi & _).
  apply list_elem_of_lookup_2 in Hi. rewrite <- E in Hi.
  apply idle_agents_elem in Hi as [Hs [k Hin]].
  by exists k, (first_min tasks_completed a rest).
Qed.

Lemma priority_based_selects (agents : AgentDict) :
  match _priority_based agents with
  | Some aid => ∃ k a, (k, a) ∈ agents ∧ aid = id a ∧ status a = "idle"
  | None => ∀ k a, (k, a) ∈ agents → status a ≠ "idle"
  end.
Proof.
  unfold _priority_based. destruct (idle_agents agents) as [|a rest] eqn:E.
  { by apply no_idle_agents. }
  assert (Ha : a ∈ idle_agents agents) by (rewrite E; left).
  apply idle_agents_elem in Ha as [Hs [k Hin]]. by exists k, a.
Qed.

Lemma weighted_selects (agents : AgentDict) (r : Q) :
  match _weighted agents r with
  | Some aid => ∃ k a, (k, a) ∈ agents ∧ aid = id a ∧ status a = "idle"
  | None => ∀ k a, (k, a) ∈ agents → status a ≠ "idle"
  end.
Proof.
  unfold _weighted. destruct (idle_agents agents) as [|a rest] eqn:E.
  { by apply no_idle_agents. }
  destruct (weighted_loop (a :: rest) r 0) as [x|] eqn:Ew.
  - apply weighted_loop_elem in Ew as (b & Hb & ->). rewrite <- E in Hb.
    apply idle_agents_elem in Hb as [Hs [k Hin]]. by exists k, b.
  - assert (Ha : a ∈ idle_agents agents) by (rewrite E; left).
    apply idle_agents_elem in Ha as [Hs [k Hin]]. by exists k, a.
Qed.

Lemma distribute_task_member (d : TaskDistributor) (agents : AgentDict)
  (r : Q) (aid : string) :
  (distribute_task d agents r).1 = Some aid →
  ∃ k a, (k, a) ∈ agents
         ∧ match strategy d with
           | ROUND_ROBIN => aid = k
           | _ => aid = id a ∧ status a = "idle"
           end.
Proof.
  unfold distribute_task. destruct agents as [|kv agents]; [done|].
  destruct (strategy d); cbn [fst].
  - destruct (round_robin_selects d (kv :: agents)) as (k & a & Hin & ->);
      [done|].
    intros [= <-]. by exists k, a.
  - pose proof (least_loaded_selects (kv :: agents)) as H.
    intros E. rewrite E in H. destruct H as (k & a & ? & ? & ?).
    by exists k, a.
  - pose proof (priority_based_selects (kv :: agents)) as H.
    intros E. rewrite E in H. destruct H as (k & a & ? & ? & ?).
    by exists k, a.
  - pose proof (weighted_selects (kv :: agents) r) as H.
    intros E. rewrite E in H. destruct H as (k & a & ? & ? & ?).
    by exists k, a.
Qed.

(** X20: whom [distribute_task] can select.  Whatever the strategy, a
    returned id belongs to an agent of the dictionary.  Round-robin selects
    by position only, so it returns an agent whenever the dictionary is not
    empty, busy or not; the other three strategies return the id of an idle
    agent, and [None] exactly when no agent is idle. *)
Theorem distribute_task_spec (d : TaskDistributor) (agents : AgentDict)
  (r : Q) :
  match (distribute_task d agents r).1 with
  | Some aid =>
      ∃ k a, (k, a) ∈ agents
             ∧ match strategy d with
               | ROUND_ROBIN => aid = k
               | _ => aid = id a ∧ status a = "idle"
               end
  | None =>
      agents = []
      ∨ (strategy d ≠ ROUND_ROBIN
         ∧ ∀ k a, (k, a) ∈ agents → status a ≠ "idle")
  end.
Proof.
  unfold distribute_task. destruct agents as [|kv agents]; [by left|].
  destruct (strategy d) eqn:Es; cbn [fst].
  - destruct (round_robin_selects d (kv :: agents)) as (k & a & Hin & ->);
      [done|].
    by exists k, a.
  - pose proof (least_loaded_selects (kv :: agents)) as H.
    destruct (_least_loaded (kv :: agents)) as [aid|].
    + destruct H as (k & a & ? & ? & ?). by exists k, a.
    + right. by split.
  - pose proof (priority_based_selects (kv :: agents)) as H.
    destruct (_priority_based (kv :: agents)) as [aid|].
    + destruct H as (k & a & ? & ? & ?). by exists k, a.
    + right. by split.
  - pose proof (weighted_selects (kv :: agents) r) as H.
    destruct (_weighted (kv :: agents) r) as [aid|].
    + destruct H as (k & a & ? & ? & ?). by exists k, a.
    + right. by split.
Qed.

Lemma distribute_task_round_robin (d : TaskDistributor) (agents : AgentDict) r :
  agents ≠ [] → strategy d = ROUND_ROBIN →
  distribute_task d agents r = _round_robin d agents.
Proof.
  intros Hne Hs. unfold distribute_task. rewrite Hs. by destruct agents.
Qed.

Lemma distribute_n_round_robin (agents : AgentDict) r n :
  agents ≠ [] →
  ∀ d, strategy d = ROUND_ROBIN →
    (distribute_n d agents r n).1
    = (fun j => map fst agents
                  !! Z.to_nat ((round_robin_index d + Z.of_nat j)
                               `mod` Z.of_nat (length agents)))
      <$> seq 0 n.
Proof.
  intros Hne. induction n as [|n IH]; intros d Hs; [done|].
  cbn [distribute_n]. rewrite distribute_task_round_robin by done.
  unfold _round_robin.
  specialize (IH (mkTaskDistributor (strategy d) (round_robin_index d + 1)) Hs).
  destruct (distribute_n _ agents r n) as [xs d2]. cbn [fst] in *.
  rewrite IH. cbn [seq fmap list_fmap]. f_equal.
  - by rewrite Z.add_0_r.
  - rewrite <- seq_shift, <- list_fmap_compose. apply list_fmap_ext.
    intros i j _. cbn. do 3 f_equal. lia.
Qed.

(** X21: round-robin serves every agent in turn.  With the round-robin
    strategy and a non-empty dictionary that stays the same, as many
    consecutive [distribute_task] calls as there are agents return every
    agent id exactly once: the ids in dictionary order, rotated by the
    current index. *)
Theorem round_robin_fair (d : TaskDistributor) (agents : AgentDict) (r : Q) :
  strategy d = ROUND_ROBIN → agents ≠ [] → (0 ≤ round_robin_index d)%Z →
  (distribute_n d agents r (length agents)).1
  = Some <$> rotate (Z.to_nat (round_robin_index d)) (map fst agents).
Proof.
  intros Hs Hne Hidx. rewrite distribute_n_round_robin by done.
  assert (Hlen : 0 < length agents) by (destruct agents; [done|simpl; lia]).
  apply list_eq. intros j. rewrite !list_lookup_fmap.
  destruct (decide (j < length agents)) as [Hj|Hj].
  - rewrite lookup_seq_lt by done. cbn.
    rewrite lookup_rotate_r by (by rewrite length_map).
    rewrite length_map. unfold rotate_nat_add.
    assert (Hin : Z.to_nat ((round_robin_index d + Z.of_nat j)
                            `mod` Z.of_nat (length agents))
                  < length (map fst agents)).
    { rewrite length_map.
      pose proof (Z.mod_pos_bound (round_robin_index d + Z.of_nat j)
                    (Z.of_nat (length agents))). lia. }
    apply lookup_lt_is_Some_2 in Hin as [k Hk].
    rewrite Z2Nat.id by done. by rewrite Hk.
  - rewrite lookup_seq_ge by lia. cbn.
    rewrite lookup_ge_None_2; [done|]. rewrite length_rotate, length_map. lia.
Qed.

(** ** The coordinator *)

Lemma items_in_elem order (m : gmap string AgentInfo) k a :
  (k, a) ∈ items_in order m → m !! k = Some a.
Proof.
  unfold items_in. rewrite list_elem_of_omap. intros (k' & _ & Hk).
  destruct (m !! k') as [a'|] eqn:E; [|done]. simpl in Hk.
  by injection Hk as -> ->.
Qed.

(** X22: an assignment and its completion.  When [coordinate_execution]
    returns an agent id on a pool whose records are filed under their own
    ids, that agent is in the pool (and was idle unless the strategy is
    round-robin); afterwards it is busy with the task, every other agent is
    unchanged and the task has a pending assignment to it.  A following
    [complete_task] for the task returns [True], makes the agent idle with
    no current task and one more completed task, and marks the assignment
    completed. *)
Theorem coordinate_then_complete (ec ec1 : ExecutionCoordinator)
  (task_id : string) (task_data : gmap string DataValue) (now : Z) (r : Q)
  (order : list string) (aid : string) :
  ids_consistent (agent_pool ec) →
  coordinate_execution ec task_id task_data now r order = (Some aid, ec1) →
  ∃ a,
    get_agent (agent_pool ec) aid = Some a
    ∧ (strategy (distributor ec) ≠ ROUND_ROBIN → status a = "idle")
    ∧ get_agent (agent_pool ec1) aid
      = Some (mkAgentInfo (id a) (capabilities a) "busy" (Some task_id)
                (tasks_completed a) (registered_time a))
    ∧ (∀ k, k ≠ aid →
            get_agent (agent_pool ec1) k = get_agent (agent_pool ec) k)
    ∧ (∃ asg, assignments ec1 !! task_id = Some asg
              ∧ a_agent_id asg = aid ∧ a_status asg = "pending")
    ∧ (complete_task ec1 task_id).1 = true
    ∧ get_agent (agent_pool (complete_task ec1 task_id).2) aid
      = Some (mkAgentInfo (id a) (capabilities a) "idle" None
                (tasks_completed a + 1) (registered_time a))
    ∧ a_status <$> assignments (complete_task ec1 task_id).2 !! task_id
      = Some "completed".
Proof.
  intros Hid. unfold coordinate_execution.
  pose proof (distribute_task_member (distributor ec)
                (items_in order (agents (agent_pool ec))) r) as Hsel.
  destruct (distribute_task _ _ r) as [sel d'] eqn:Ed. cbn [fst] in Hsel.
  destruct sel as [x|]; [|done].
  case_bool_decide as Hx; [done|]. intros [= -> <-].
  destruct (Hsel aid eq_refl) as (k & a & Hin & Hk).
  apply items_in_elem in Hin. pose proof (Hid k a Hin) as Hka.
  assert (Hget : agents (agent_pool ec) !! aid = Some a).
  { destruct (strategy (distributor ec)); [by subst|..];
      destruct Hk as [-> _]; by rewrite Hka. }
  exists a. unfold get_agent. rewrite Hget. cbn.
  split; [done|]. split.
  { intros Hs. by destruct (strategy (distributor ec)); [|destruct Hk..]. }
  rewrite lookup_insert_eq. split; [done|]. split.
  { intros k' Hk'. by rewrite lookup_insert_ne. }
  rewrite lookup_insert_eq. split; [by eexists|].
  unfold complete_task. cbn. rewrite lookup_insert_eq. cbn.
  unfold get_agent. cbn. rewrite lookup_insert_eq. cbn.
  by rewrite !lookup_insert_eq.
Qed.

(** X23: [complete_task] counts every call.  For an unknown task id the call
    returns [False] and changes nothing.  For a known one it returns [True]
    whatever the status of the assignment, so completing the same task
    twice adds two to the agent's [tasks_completed]. *)
Theorem complete_task_repeated (ec : ExecutionCoordinator) (task_id : string) :
  match assignments ec !! task_id with
  | None => complete_task ec task_id = (false, ec)
  | Some asg =>
      (complete_task ec task_id).1 = true
      ∧ (complete_task (complete_task ec task_id).2 task_id).1 = true
      ∧ ∀ a, get_agent (agent_pool ec) (a_agent_id asg) = Some a →
             tasks_completed
             <$> get_agent
                   (agent_pool
                      (complete_task (complete_task ec task_id).2 task_id).2)
                   (a_agent_id asg)
             = Some (tasks_completed a + 2)%Z
  end.
Proof.
  destruct (assignments ec !! task_id) as [asg|] eqn:E.
  2: { unfold complete_task. by rewrite E. }
  unfold complete_task. rewrite E. cbn. rewrite lookup_insert_eq. cbn.
  split; [done|]. split; [done|].
  intros a Ha. unfold get_agent in *. rewrite Ha. cbn.
  rewrite lookup_insert_eq. cbn. rewrite lookup_insert_eq. cbn.
  f_equal. lia.
Qed.

Lemma round_robin_fair_witness :
  (distribute_n (mkTaskDistributor ROUND_ROBIN 1)
     [("a1", mkAgentInfo "a1" [] "busy" None 0 0);
      ("a2", mkAgentInfo "a2" [] "idle" None 0 1)] 0 2).1
  = [Some "a2"; Some "a1"].
Proof.
  rewrite round_robin_fair; [reflexivity|reflexivity|done|done].
Defined.

Lemma coordinate_then_complete_witness :
  (complete_task
     (coordinate_execution sample_coordinator "t1" ∅ 5 0 ["a1"; "a2"]).2
     "t1").1 = true.
Proof.
  destruct (coordinate_then_complete sample_coordinator
              (coordinate_execution sample_coordinator "t1" ∅ 5 0
                 ["a1"; "a2"]).2
              "t1" ∅ 5 0 ["a1"; "a2"] "a1")
    as (a & _ & _ & _ & _ & _ & H & _).
  - apply (pool_ops_invariant (new_pool "pool" 10)), new_pool_invariant.
  - by vm_compute.
  - exact H.
Defined.

End OrchestratorExtProps.

(* ===================================================================== *)
(** * Properties of health monitoring, failover and backups *)
(* ===================================================================== *)

Module FaultToleranceExtProps.
Import Protocol FaultToleranceExt.

Lemma expired_spec timeout now h :
  expired timeout now h = true
  ↔ (timeout < inject_Z (now - last_heartbeat h) / 1000000)%Q.
Proof.
  unfold expired. rewrite negb_true_iff, <- not_true_iff_false, Qle_bool_iff.
  split; [apply Qnot_le_lt|apply Qlt_not_le].
Qed.

Lemma expired_mono timeout now now' h :
  (now ≤ now')%Z → expired timeout now h = true → expired timeout now' h = true.
Proof.
  rewrite !expired_spec. intros Hle Hlt.
  eapply Qlt_le_trans; [exact Hlt|].
  apply Qmult_le_compat_r; [|done].
  rewrite <- Zle_Qle. lia.
Qed.

(** X24: a failed agent stays failed until it sends a heartbeat.  Every
    agent that [check_health] reports is registered; it is reported again,
    with its status still "failed", by any later [check_health]; and the
    agents are reported in the order of their registration. *)
Theorem check_health_persistent (hm : HealthMonitor) (now now' : Z)
  (agent_id : string) :
  (now ≤ now')%Z →
  agent_id ∈ (check_health hm now).1 →
  agent_id ∈ Workflow.dict_keys (agent_health hm)
  ∧ agent_id ∈ (check_health (check_health hm now).2 now').1
  ∧ (∃ h, (agent_id, h) ∈ agent_health (check_health hm now).2
          ∧ h_status h = "failed")
  ∧ (check_health hm now).1 `sublist_of` Workflow.dict_keys (agent_health hm).
Proof.
  intros Hle Hin. unfold check_health in *. cbn [fst snd] in *.
  apply list_elem_of_fmap in Hin as ([k h] & -> & Hin).
  apply list_elem_of_filter in Hin as [Hexp Hin]. cbn [fst snd] in *.
  apply Is_true_true in Hexp.
  assert (Hmarked :
    (k, mkHealth (last_heartbeat h) "failed" (error_count h) (success_count h))
    ∈ map (fun kv =>
             if expired (heartbeat_timeout hm) now kv.2
             then (kv.1,
                   mkHealth (last_heartbeat kv.2) "failed" (error_count kv.2)
                     (success_count kv.2))
             else kv)
        (agent_health hm)).
  { apply list_elem_of_fmap. exists (k, h). cbn. by rewrite Hexp. }
  split; [|split; [|split]].
  - unfold Workflow.dict_keys. apply list_elem_of_fmap. by exists (k, h).
  - apply list_elem_of_fmap. eexists (k, _). split; [done|].
    apply list_elem_of_filter. split; [|exact Hmarked]. cbn.
    apply Is_true_true. by apply (expired_mono _ now).
  - eexists. split; [exact Hmarked|done].
  - unfold Workflow.dict_keys. apply fmap_sublist, sublist_filter.
Qed.

Lemma dict_set_unique {V} (d : list (string * V)) k v v' :
  NoDup (Workflow.dict_keys d) → (k, v') ∈ Workflow.dict_set d k v → v' = v.
Proof.
  unfold Workflow.dict_keys. induction d as [|[k0 v0] d IH]; simpl.
  - by intros _ [= ->]%list_elem_of_singleton.
  - intros [Hnin Hnd]%NoDup_cons. case_bool_decide as E.
    + subst k0. intros [[= ->]|Hin]%elem_of_cons; [done|].
      destruct Hnin. apply list_elem_of_fmap. by exists (k, v').
    + intros [[= -> ->]|Hin]%elem_of_cons; [done|]. by apply IH.
Qed.

(** X25: a heartbeat revives an agent.  After [heartbeat] for a registered
    agent, a [check_health] that runs no more than the timeout later does
    not report the agent and leaves it "healthy", whatever its status was
    before; its error and success counts are unchanged. *)
Theorem heartbeat_revives (hm : HealthMonitor) (agent_id : string)
  (h : Health) (t now : Z) :
  NoDup (Workflow.dict_keys (agent_health hm)) →
  Workflow.dict_get (agent_health hm) agent_id = Some h →
  (inject_Z (now - t) / 1000000 <= heartbeat_timeout hm)%Q →
  (agent_id ∉ (check_health (heartbeat hm agent_id t) now).1)
  ∧ ∀ h', (agent_id, h')
          ∈ agent_health (check_health (heartbeat hm agent_id t) now).2 →
          h' = mkHealth t "healthy" (error_count h) (success_count h).
Proof.
  intros Hnd Hget Hfresh. unfold heartbeat. rewrite Hget.
  set (h1 := mkHealth t "healthy" (error_count h) (success_count h)).
  assert (Hnot : expired (heartbeat_timeout hm) now h1 = false).
  { unfold expired. apply negb_false_iff. by apply Qle_bool_iff. }
  unfold check_health. cbn [fst snd set_health agent_health heartbeat_timeout].
  split.
  - intros Hin. apply list_elem_of_fmap in Hin as ([k h'] & Hk & Hin).
    cbn in Hk. subst k. apply list_elem_of_filter in Hin as [Hexp Hin].
    apply (dict_set_unique _ _ _ _ Hnd) in Hin. subst h'. cbn in Hexp.
    rewrite Hnot in Hexp. done.
  - intros h' Hin. apply list_elem_of_fmap in Hin as ([k h2] & Heq & Hin).
    destruct (expired (heartbeat_timeout hm) now h2) eqn:Hexp; cbn in Heq.
    + rewrite Hexp in Heq. injection Heq as <- ->.
      apply (dict_set_unique _ _ _ _ Hnd) in Hin. subst h2.
      by rewrite Hnot in Hexp.
    + rewrite Hexp in Heq. injection Heq as <- <-.
      by apply (dict_set_unique _ _ _ _ Hnd) in Hin.
Qed.

(** ** Failover *)

Lemma get_backup_register fm p b q :
  get_backup (register_backup fm p b) q
  = match get_backup fm q with
    | Some x => Some x
    | None => if bool_decide (p = q) then Some b else None
    end.
Proof.
  unfold get_backup, register_backup. cbn. case_bool_decide as E.
  - subst q. rewrite lookup_insert_eq. cbn.
    by destruct (default [] (agent_backup_map fm !! p)).
  - rewrite lookup_insert_ne by done.
    by destruct (head (default [] (agent_backup_map fm !! q))).
Qed.

(** X26: the first registered backup is the backup.  After any run of
    [register_backup] calls on a new manager, [get_backup] returns for
    every agent the backup of the first call that named it as primary, and
    [None] when no call did: later registrations never replace it.
    [execute_failover] returns the same, except that an empty backup id
    yields [None]. *)
Theorem first_backup_wins (calls : list (string * string)) (agent_id : string) :
  get_backup (register_backups new_failover calls) agent_id
  = snd <$> find (fun pb => bool_decide (pb.1 = agent_id)) calls
  ∧ execute_failover (register_backups new_failover calls) agent_id
    = match find (fun pb => bool_decide (pb.1 = agent_id)) calls with
      | Some pb => if bool_decide (pb.2 = "") then None else Some pb.2
      | None => None
      end.
Proof.
  assert (H : ∀ fm,
    get_backup (register_backups fm calls) agent_id
    = match get_backup fm agent_id with
      | Some x => Some x
      | None => snd <$> find (fun pb => bool_decide (pb.1 = agent_id)) calls
      end).
  { induction calls as [|[p b] calls IH]; intros fm.
    - cbn. by destruct (get_backup fm agent_id).
    - cbn [register_backups foldl]. fold (register_backups
        (register_backup fm (p, b).1 (p, b).2) calls).
      rewrite IH, get_backup_register. cbn.
      destruct (get_backup fm agent_id); [done|].
      by case_bool_decide. }
  assert (Hg : get_backup (register_backups new_failover calls) agent_id
               = snd <$> find (fun pb => bool_decide (pb.1 = agent_id)) calls).
  { rewrite H. unfold get_backup. cbn. by rewrite lookup_empty. }
  split; [done|]. unfold execute_failover. rewrite Hg.
  by destruct (find _ calls).
Qed.

(** ** Backups *)

Lemma cover_four_fifths (n : Z) :
  (0 ≤ n)%Z → Qle_bool (inject_Z n * (4 # 5)) (inject_Z n) = true.
Proof.
  intros Hn. apply Qle_bool_iff. unfold Qle, Qmult, inject_Z. simpl. nia.
Qed.

(** X27: [validate_redundancy] always reports "high".  Every configuration
    stored by [create_backup_configuration] has the status "active",
    whatever status the caller's dictionary held, so after any run of
    calls on a new coordinator [active_configs] equals
    [total_backup_configs] and [redundancy_level] is "high", also when no
    configuration exists. *)
Theorem redundancy_always_high
  (calls : list (string * gmap string pyval * Z)) :
  active_configs
    (validate_redundancy (create_configurations new_backup_coordinator calls))
  = total_backup_configs
      (validate_redundancy (create_configurations new_backup_coordinator calls))
  ∧ redundancy_level
      (validate_redundancy (create_configurations new_backup_coordinator calls))
    = "high"
  ∧ ∀ config_id c,
      get_backup_configuration
        (create_configurations new_backup_coordinator calls) config_id
      = Some c →
      c !! "status" = Some (PStr "active").
Proof.
  assert (H : ∀ bc,
    (∀ k c, backup_configurations bc !! k = Some c →
            c !! "status" = Some (PStr "active")) →
    ∀ k c, backup_configurations (create_configurations bc calls) !! k = Some c →
           c !! "status" = Some (PStr "active")).
  { induction calls as [|[[cid cfg] now] calls IH]; intros bc Hbc; [done|].
    cbn [create_configurations foldl].
    fold (create_configurations
            (create_backup_configuration bc cid cfg now) calls).
    apply IH. intros k c. cbn. destruct (decide (k = cid)) as [->|Hne].
    - rewrite lookup_insert_eq. intros [= <-]. by rewrite lookup_insert_eq.
    - rewrite lookup_insert_ne by done. apply Hbc. }
  specialize (H new_backup_coordinator).
  assert (Hall : ∀ k c,
    backup_configurations (create_configurations new_backup_coordinator calls)
      !! k = Some c → c !! "status" = Some (PStr "active")).
  { apply H. intros k c Hk. cbn in Hk. by rewrite lookup_empty in Hk. }
  assert (Hf : filter (fun kc : string * gmap string pyval => is_active kc.2)
                 (backup_configurations
                    (create_configurations new_backup_coordinator calls))
               = backup_configurations
                   (create_configurations new_backup_coordinator calls)).
  { apply map_filter_id. intros k c Hk. cbn. unfold is_active.
    rewrite (Hall k c Hk). by rewrite bool_decide_eq_true_2. }
  unfold validate_redundancy. cbn. rewrite Hf.
  split; [done|]. split; [|exact Hall].
  rewrite cover_four_fifths; [done|lia].
Qed.

Lemma check_health_persistent_witness :
  "a1" ∈ (check_health
            (check_health (register_agent (new_monitor 5) "a1" 0) 6000001).2
            7000000).1.
Proof.
  apply (check_health_persistent (register_agent (new_monitor 5) "a1" 0)
           6000001 7000000 "a1").
  - lia.
  - vm_compute. left.
Defined.

Lemma heartbeat_revives_witness :
  "a1" ∉ (check_health
            (heartbeat (register_agent (new_monitor 5) "a1" 0) "a1" 6000000)
            7000000).1.
Proof.
  apply (heartbeat_revives (register_agent (new_monitor 5) "a1" 0) "a1"
           (mkHealth 0 "healthy" 0 0) 6000000 7000000).
  - vm_compute. apply NoDup_singleton.
  - reflexivity.
  - by vm_compute.
Defined.

End FaultToleranceExtProps.

(* ===================================================================== *)
(** * Properties of validation, rate limiting and the handler *)
(* ===================================================================== *)

Module ProtocolExtProps.
Import Protocol ProtocolExt.

Lemma validate_message_sound (message : gmap string pyval) :
  validate_message message = Return true → well_formed message.
Proof.
  unfold validate_message, well_formed.
  destruct (forallb _ REQUIRED_FIELDS) eqn:Hreq; simpl; [|done].
  assert (Hf : ∀ f, f ∈ REQUIRED_FIELDS → is_Some (message !! f)).
  { rewrite forallb_forall in Hreq. intros f Hin.
    apply list_elem_of_In in Hin. apply Hreq in Hin.
    by apply bool_decide_eq_true, elem_of_dom in Hin. }
  clear Hreq.
  destruct (message !! "type") as [[]|] eqn:Hty; simpl; try done.
  case_bool_decide as Hs; [|done].
  destruct (message !! "priority") as [[]|] eqn:Hp; simpl; try done.
  - case_bool_decide as Hsp; [|done].
    destruct (message !! "payload") as [[]|] eqn:Hpl; try done.
    intros _. split; [done|]. split; [by eexists|].
    split; [right; by eexists|by eexists].
  - destruct (message !! "payload") as [[]|] eqn:Hpl; try done.
    intros _. split; [done|]. split; [by eexists|].
    split; [by left|by eexists].
Qed.

Lemma validate_message_complete (message : gmap string pyval) :
  well_formed message → validate_message message = Return true.
Proof.
  intros (Hf & (s & Hty & Hs) & Hprio & (d & Hpl)).
  unfold validate_message.
  destruct (forallb _ REQUIRED_FIELDS) eqn:Hreq; simpl.
  2: { apply not_true_iff_false in Hreq. destruct Hreq.
       apply forallb_forall. intros f Hin.
       apply bool_decide_eq_true, elem_of_dom, Hf.
       by apply list_elem_of_In. }
  rewrite Hty. simpl. rewrite bool_decide_eq_true_2 by done.
  rewrite Hpl.
  destruct Hprio as [->|(sp & -> & Hsp)]; simpl; [done|].
  by rewrite bool_decide_eq_true_2.
Qed.

Lemma validate_message_never_false (message : gmap string pyval) :
  validate_message message ≠ Return false.
Proof.
  unfold validate_message.
  destruct (forallb _ REQUIRED_FIELDS); simpl; [|done].
  destruct (in_str_set _ VALID_MESSAGE_TYPES) as [[]|]; [|done..].
  destruct (message !! "priority") as [p|].
  - destruct (in_str_set p VALID_PRIORITIES) as [[]|]; [|done..].
    by destruct (message !! "payload") as [[]|].
  - by destruct (message !! "payload") as [[]|].
Qed.

(** X28: what [validate_message] accepts.  The call returns [True] exactly
    for a message that has the fields "sender", "recipient", "type" and
    "payload", whose type is one of the six type names, whose priority, if
    present, is one of the four priority names, and whose payload is a
    dictionary.  It never returns [False]: every other message raises. *)
Theorem validate_message_accepts (message : gmap string pyval) :
  (validate_message message = Return true ↔ well_formed message)
  ∧ validate_message message ≠ Return false.
Proof.
  split; [split|].
  - apply validate_message_sound.
  - apply validate_message_complete.
  - apply validate_message_never_false.
Qed.

(** ** The token bucket *)

(** The bucket refills by the rounded product of the elapsed time and the
    rate.  With rate 0.13 and capacity 1, the call at time 0 takes the only
    token; the call at time 7.692307692307692 is granted as well, because
    the product of the two floats is rounded to 1. *)
Example allow_message_rounds :
  let l0 := new_limiter (NFloat 0x1.0a3d70a3d70a4p-3) 1 0 in
  let r1 := allow_message l0 0 in
  let r2 := allow_message r1.2 0x1.ec4ec4ec4ec4ep+2 in
  r1.1 = Return true ∧ tokens r1.2 = NInt 0
  ∧ r2.1 = Return true ∧ tokens r2.2 = NInt 0.
Proof. repeat split; by vm_compute. Qed.

(** ** The handler *)

Section HandlerFacts.
Variable dumps : gmap string pyval → outcome string.

(** X30: every call of [process_message] is counted once, and an invalid
    message costs no token.  A call returns the serialized message exactly
    when the message validates, the limiter grants a token and
    serialization succeeds; it then adds one to [processed_count] and
    leaves [error_count] alone.  Every other call raises [ValueError], adds
    one to [error_count] and leaves [processed_count] alone.  When
    validation fails the rate limiter is left untouched; otherwise it is
    left as [allow_message] leaves it, also when serialization then
    fails. *)
Theorem process_message_counts (h : ProtocolHandler)
  (message : gmap string pyval) (now : float) :
  (∀ s, (process_message dumps h message now).1 = Return s
        ↔ validate_message message = Return true
          ∧ (allow_message (rate_limiter h) now).1 = Return true
          ∧ dumps message = Return s)
  ∧ match (process_message dumps h message now).1 with
    | Return _ =>
        processed_count (process_message dumps h message now).2
        = (processed_count h + 1)%Z
        ∧ error_count (process_message dumps h message now).2
          = error_count h
    | Raise k _ =>
        k = "ValueError"
        ∧ processed_count (process_message dumps h message now).2
          = processed_count h
        ∧ error_count (process_message dumps h message now).2
          = (error_count h + 1)%Z
    end
  ∧ rate_limiter (process_message dumps h message now).2
    = match validate_message message with
      | Return _ => (allow_message (rate_limiter h) now).2
      | Raise _ _ => rate_limiter h
      end.
Proof.
  pose proof (validate_message_never_false message) as Hnf.
  unfold process_message, process_body.
  destruct (validate_message message) as [[]|k e] eqn:Ev; [|done|].
  - destruct (allow_message (rate_limiter h) now) as [[[]|k e] l'] eqn:Ea; cbn.
    + unfold serialize. destruct (dumps message) as [s|k e]; cbn.
      * split; [|done]. intros s'. split.
        -- by intros [= ->].
        -- by intros (_ & _ & [= ->]).
      * split; [|done]. intros s'. split; [done|]. by intros (_ & _ & ?).
    + split; [|done]. intros s'. split; [done|]. by intros (_ & ? & _).
    + split; [|done]. intros s'. split; [done|]. by intros (_ & ? & _).
  - cbn. split; [|done]. intros s'. split; [done|]. by intros (? & _).
Qed.

End HandlerFacts.

End ProtocolExtProps.
